(** * Data export and data clearing of lobe-chat: a shallow embedding

    Two source files are covered.

    - [src/database/repositories/dataExporter/index.ts]: the class
      [DataExporterRepos] with [removeUserId], [queryTable],
      [queryBaseTables] and [export], and the constant
      [DATA_EXPORT_CONFIG].
    - the settings panel [AdvancedActions] with its [handleClear] callback.

    The exporter talks to three collaborators that are not part of the
    source: the schema registry [EXPORT_TABLES] (module
    [@/database/schemas]), the database handle [db] and the libraries
    [drizzle-orm] (condition builders [eq], [inArray], [and]) and [p-map].
    The registry and the database are parameters of the development; the
    condition builders are constructors of a small syntax tree, and [pMap]
    is a scheduler over suspended mapper calls that is driven by an
    explicit schedule, so that every interleaving of the in-flight queries
    is covered.

    The programs come first, then the vocabulary in which their properties
    are stated, then the properties with their proofs. *)

From Stdlib Require Import ZArith.
From stdpp Require Import gmap strings list fin_maps.

Set Default Proof Using "Type".
Open Scope string_scope.
Open Scope nat_scope.
Open Scope list_scope.

(** ** JavaScript values and rows *)

(** The values a property of a row can hold.  Only the distinction
    between the constructors matters below.  [VInherited name] is the
    member [name] of [Object.prototype], which every plain object
    inherits. *)
Inductive JSVal : Type :=
| VUndefined
| VNull
| VBool (b : bool)
| VNum (z : Z)
| VStr (s : string)
| VInherited (name : string).

(** The members of [Object.prototype] that are functions, each with its
    [length]. *)
Definition OBJECT_PROTOTYPE : list (string * nat) :=
  [("constructor", 1); ("hasOwnProperty", 1); ("isPrototypeOf", 1);
   ("propertyIsEnumerable", 1); ("toLocaleString", 0); ("toString", 0);
   ("valueOf", 0); ("__defineGetter__", 2); ("__defineSetter__", 2);
   ("__lookupGetter__", 1); ("__lookupSetter__", 1)].

(** [Object.prototype[name].length] for the functions of
    [Object.prototype]. *)
Definition inheritedFunction (name : string) : option nat :=
  (list_to_map OBJECT_PROTOTYPE : gmap string nat) !! name.

(** The names a plain object answers to without a property of its own:
    the functions above and the accessor [__proto__]. *)
Definition inherited (name : string) : bool :=
  String.eqb name "__proto__" || bool_decide (is_Some (inheritedFunction name)).

(** A row returned by the database is a plain object: a finite map from
    the names of its own properties to their values. *)
Abbreviation Row := (gmap string JSVal).

(** [item[key]]: the row's own property, else the member of
    [Object.prototype] of that name, else [undefined]. *)
Definition getProp (item : Row) (key : string) : JSVal :=
  match item !! key with
  | Some v => v
  | None => if inherited key then VInherited key else VUndefined
  end.

(** [a || b] on an optional string: [undefined] and the empty string are
    both falsy. *)
Definition orDefault (a : option string) (b : string) : string :=
  match a with
  | Some s => if String.eqb s "" then b else s
  | None => b
  end.

(** A property key that may be [undefined]: JavaScript turns the key into
    the string ["undefined"]. *)
Definition propKey (k : option string) : string := default "undefined" k.

(** ** The schema registry and the condition builders *)

(** A column object of a table definition, identified by its name. *)
Definition Column : Type := string.

(** A table definition: the properties that can be read from the table
    object, its columns among them, each named by a string.
    [tableObj[name]] is [tableObj !! name], [undefined] when nothing can
    be read under that name, and ['userId' in tableObj] is
    [is_Some (tableObj !! "userId")]. *)
Abbreviation TableObj := (gmap string Column).

(** Conditions as built by [eq], [inArray] and [and] of drizzle-orm.  The
    column argument is optional because the source passes
    [tableObj[field]], which is [undefined] when the property is absent. *)
#[warnings="-register-all"]
Inductive SQL : Type :=
| SqlEq (col : option Column) (v : JSVal)
| SqlInArray (col : option Column) (vs : list JSVal)
| SqlAnd (cs : list SQL).

Definition eq_ (col : option Column) (v : JSVal) : SQL := SqlEq col v.
Definition inArray (col : option Column) (vs : list JSVal) : SQL := SqlInArray col vs.

(** [and(...conditions)]: [undefined] for no condition, the condition
    itself for one, the conjunction otherwise. *)
Definition and_ (conditions : list SQL) : option SQL :=
  match conditions with
  | [] => None
  | [c] => Some c
  | _ => Some (SqlAnd conditions)
  end.

(** Equality of two values as a database compares them: a missing or null
    value equals nothing. *)
Definition sqlEqb (a b : JSVal) : bool :=
  match a, b with
  | VBool x, VBool y => Bool.eqb x y
  | VNum x, VNum y => Z.eqb x y
  | VStr x, VStr y => String.eqb x y
  | _, _ => false
  end.

(** When a row satisfies a condition; [env] gives the row's value in each
    column.  A condition on an undefined column is satisfied by no row. *)
Fixpoint holds (env : Column → JSVal) (c : SQL) : bool :=
  match c with
  | SqlEq (Some col) v => sqlEqb (env col) v
  | SqlEq None _ => false
  | SqlInArray (Some col) vs => existsb (sqlEqb (env col)) vs
  | SqlInArray None _ => false
  | SqlAnd cs => forallb (holds env) cs
  end.

(** ** Errors, console output and events *)

Inductive Error : Type :=
| TableNotFound (name : string)    (* new Error(`Table ${table} not found`) *)
| DbError (msg : string)           (* anything the query call raises *)
| PMapTypeError                    (* p-map refuses a concurrency below 1 *)
| NotAFunction (what : string).    (* TypeError: sourceData.map is not a function *)

(** What a query call settles to. *)
Definition QueryOutcome : Type := Error + list Row.

(** One element of the arrays [pMap] resolves to. *)
Record TableData : Type := {
  data : list Row;
  table : string;
}.

(** The console lines of the exporter, one constructor per call site. *)
Inductive LogEntry : Type :=
| LogQueryingBase                                   (* 'Querying base tables...' *)
| LogSourceNoData (source name : string)            (* `Source table .. has no data, skipping query for ..` *)
| LogExported (name : string) (count : nat)         (* `Successfully exported table: .., count: ..` *)
| LogQueryError (name : string) (error : Error)     (* console.error(`Error querying table ..:`, error) *)
| LogBaseResults (baseResults : list TableData)      (* 'baseResults:', baseResults *)
| LogQueryingRelation                               (* 'Querying relation tables...' *)
| LogSkipTable (name : string).                     (* `Skipping table .. as some source tables have no data` *)

(** What an observer of a run sees: console lines, and the begin and the
    end of every [findMany] call. *)
Inductive Event : Type :=
| EvConsole (l : LogEntry)
| EvQueryBegin (name : string) (where_ : option SQL)
| EvQueryEnd (name : string) (outcome : QueryOutcome).

(** ** Asynchronous computations *)

(** The body of an [async] function: it returns, throws, writes to the
    console, or awaits a [findMany] call and goes on with what the call
    settles to. *)
Inductive Task (A : Type) : Type :=
| Ret (a : A)
| Throw (e : Error)
| Console (l : LogEntry) (k : Task A)
| FindMany (name : string) (where_ : option SQL) (k : QueryOutcome → Task A).
Arguments Ret {A} a.
Arguments Throw {A} e.
Arguments Console {A} l k.
Arguments FindMany {A} name where_ k.

Fixpoint bindTask {A B} (t : Task A) (f : A → Task B) : Task B :=
  match t with
  | Ret a => f a
  | Throw e => Throw e
  | Console l k => Console l (bindTask k f)
  | FindMany name w k => FindMany name w (λ o, bindTask (k o) f)
  end.

#[global] Instance Task_ret : MRet Task := @Ret.
#[global] Instance Task_bind : MBind Task := λ A B f t, bindTask t f.

(** [try { body } catch (error) { handler }] *)
Fixpoint tryCatch {A} (body : Task A) (handler : Error → Task A) : Task A :=
  match body with
  | Ret a => Ret a
  | Throw e => handler e
  | Console l k => Console l (tryCatch k handler)
  | FindMany name w k => FindMany name w (λ o, tryCatch (k o) handler)
  end.

(** [await this.db.query[table].findMany({ where })]: a rejection is
    re-thrown at the await. *)
Definition findMany (name : string) (where_ : option SQL) : Task (list Row) :=
  FindMany name where_ (λ o, match o with inl e => Throw e | inr rows => Ret rows end).

Definition consoleLog (l : LogEntry) : Task unit := Console l (Ret ()).

(** What a promise has become when a run stops. [Unsettled] is the state
    of a run whose schedule ended early. *)
Inductive Promise (A : Type) : Type :=
| Fulfilled (a : A)
| Rejected (e : Error)
| Unsettled.
Arguments Fulfilled {A} a.
Arguments Rejected {A} e.
Arguments Unsettled {A}.

(** ** The export configuration *)

(** [BaseTableConfig]; the [type] tag is never set nor read. *)
Record BaseTableConfig : Type := {
  btTable : string;
  btUserField : option string;
}.

(** One entry of [relations]. The entries are cast to their type, and
    several of them leave [field] out. *)
Record Relation : Type := {
  field : option string;
  sourceField : option string;
  sourceTable : string;
}.

(** [RelationTableConfig] *)
Record RelationTableConfig : Type := {
  relations : list Relation;
  rtTable : string;
}.

Record ExportConfig : Type := {
  baseTables : list BaseTableConfig;
  relationTables : list RelationTableConfig;
}.

Definition base (table : string) : BaseTableConfig :=
  {| btTable := table; btUserField := None |}.
Definition baseBy (table userField : string) : BaseTableConfig :=
  {| btTable := table; btUserField := Some userField |}.
Definition rel (f sf : option string) (st : string) : Relation :=
  {| field := f; sourceField := sf; sourceTable := st |}.

Definition DATA_EXPORT_CONFIG : ExportConfig := {|
  baseTables := [
    baseBy "users" "id";
    baseBy "userSettings" "id";
    base "userInstalledPlugins";
    base "agents";
    base "sessionGroups";
    base "sessions";
    base "topics";
    base "threads";
    base "messages";
    base "files";
    base "knowledgeBases";
    base "agentsKnowledgeBases";
    base "aiProviders";
    base "aiModels";
    base "asyncTasks";
    base "chunks";
    base "embeddings"
  ];
  relationTables := [
    {| relations := [rel (Some "agentId") (Some "id") "agents";
                     rel None (Some "sessionId") "sessions"];
       rtTable := "agentsToSessions" |};
    {| relations := [rel None (Some "agentId") "agents";
                     rel None (Some "fileId") "files"];
       rtTable := "agentsFiles" |};
    {| relations := [rel (Some "sessionId") None "sessions"];
       rtTable := "filesToSessions" |};
    {| relations := [rel (Some "id") None "messages"];
       rtTable := "messagePlugins" |};
    {| relations := [rel (Some "id") None "messages"];
       rtTable := "messageTTS" |};
    {| relations := [rel (Some "id") None "messages"];
       rtTable := "messageTranslates" |};
    {| relations := [rel (Some "messageId") None "messages";
                     rel (Some "fileId") None "files"];
       rtTable := "messagesFiles" |};
    {| relations := [rel (Some "messageId") None "messages"];
       rtTable := "messageQueries" |};
    {| relations := [rel (Some "messageId") None "messages";
                     rel (Some "chunkId") None "chunks"];
       rtTable := "messageQueryChunks" |};
    {| relations := [rel (Some "messageId") None "messages";
                     rel (Some "chunkId") None "chunks"];
       rtTable := "messageChunks" |};
    {| relations := [rel (Some "knowledgeBaseId") None "knowledgeBases";
                     rel (Some "fileId") None "files"];
       rtTable := "knowledgeBaseFiles" |}
  ];
|}.

(** ** The exporter *)

(** [removeUserId]: every row is copied without its [userId] property. *)
Definition removeUserId (data : list Row) : list Row :=
  map (λ item : Row, delete "userId" item) data.

(** The result object of [export], created as [{}]: the properties of
    its own, table name to exported rows. *)
Abbreviation ExportResult := (gmap string (list Row)).

(** [results.forEach(({ table, data }) => { result[table] = data; })].
    The one key whose assignment would replace the prototype of the
    object instead of adding a property is [__proto__]; no table of the
    configuration has that name. *)
Definition storeResults (result : ExportResult) (results : list TableData) : ExportResult :=
  foldl (λ r td, <[table td := data td]> r) result results.

(** What [result[name]] evaluates to: an array the export has stored, a
    function inherited from [Object.prototype], given by its [length],
    [Object.prototype] itself for the name [__proto__], or
    [undefined]. *)
Inductive Found : Type :=
| FoundArray (rows : list Row)
| FoundFunction (arity : nat)
| FoundPrototype
| FoundUndefined.

Definition readResult (result : ExportResult) (name : string) : Found :=
  match result !! name with
  | Some rows => FoundArray rows
  | None =>
      if String.eqb name "__proto__" then FoundPrototype
      else
        match inheritedFunction name with
        | Some arity => FoundFunction arity
        | None => FoundUndefined
        end
  end.

(** [x || []]: arrays, functions and objects are truthy. *)
Definition orEmpty (x : Found) : Found :=
  match x with
  | FoundUndefined => FoundArray []
  | _ => x
  end.

(** [x.length], [None] for [undefined]. *)
Definition lengthOf (x : Found) : option nat :=
  match x with
  | FoundArray rows => Some (length rows)
  | FoundFunction arity => Some arity
  | FoundPrototype | FoundUndefined => None
  end.

(** [(result[relation.sourceTable] || []).length > 0]; comparing
    [undefined] with [0] is false. *)
Definition sourceHasData (result : ExportResult) (relation : Relation) : bool :=
  match lengthOf (orEmpty (readResult result (sourceTable relation))) with
  | Some n => bool_decide (0 < n)
  | None => false
  end.

(** An array is truthy, whatever it holds: [config.relations] of a
    relation table. *)
Definition truthyArray {A} (_ : list A) : bool := true.

(** [sourceData.map((item) => item[relation.sourceField || 'id'])] *)
Definition sourceIds (sourceData : list Row) (relation : Relation) : list JSVal :=
  map (λ item, getProp item (orDefault (sourceField relation) "id")) sourceData.

(** How the loop over [config.relations] of [queryTable] ends. *)
Inductive LoopResult : Type :=
| LoopReturned (source : string)        (* the early [return []] *)
| LoopThrew (error : Error)
| LoopDone (conditions : list SQL).

Section Exporter.

(** The schema registry, [EXPORT_TABLES !! name] being [EXPORT_TABLES[name]]
    when that is truthy, and the owner the repository was built for. *)
Variable EXPORT_TABLES : gmap string TableObj.
Variable userId : string.

(** The loop over [config.relations] of [queryTable]: it returns early
    on a source whose [length] is [0], it throws when [sourceData.map] is
    called on what is not an array, and otherwise it collects the
    conditions. *)
Fixpoint relationConditions (tableObj : TableObj) (rels : list Relation)
    (existingData : ExportResult) (conditions : list SQL) : LoopResult :=
  match rels with
  | [] => LoopDone conditions
  | relation :: rest =>
      let sourceData := orEmpty (readResult existingData (sourceTable relation)) in
      if bool_decide (lengthOf sourceData = Some 0) then
        LoopReturned (sourceTable relation)
      else
        match sourceData with
        | FoundArray rows =>
            relationConditions tableObj rest existingData
              (conditions
                 ++ [inArray (tableObj !! propKey (field relation))
                       (sourceIds rows relation)])
        | _ => LoopThrew (NotAFunction "sourceData.map")
        end
  end.

(** [conditions.length === 1 ? conditions[0] : and(...conditions)] *)
Definition combine (conditions : list SQL) : option SQL :=
  if Nat.eqb (length conditions) 1 then conditions !! 0 else and_ conditions.

Definition queryTable (config : RelationTableConfig) (existingData : ExportResult)
    : Task (list Row) :=
  let table := rtTable config in
  match EXPORT_TABLES !! table with
  | None => Throw (TableNotFound table)
  | Some tableObj =>
      tryCatch
        (match relationConditions tableObj (relations config) existingData [] with
         | LoopReturned src => Console (LogSourceNoData src table) (Ret [])
         | LoopThrew error => Throw error
         | LoopDone conditions =>
             let conditions :=
               if bool_decide (is_Some (tableObj !! "userId"))
                  && negb (String.eqb table "users")
                  && negb (truthyArray (relations config))
               then conditions ++ [eq_ (tableObj !! "userId") (VStr userId)]
               else conditions in
             let where_ := combine conditions in
             result ← findMany table where_;
             Console (LogExported table (length result))
               (Ret (if truthyArray (relations config) then result
                     else removeUserId result))
         end)
        (λ error, Console (LogQueryError table error) (Ret []))
  end.

Definition queryBaseTables (config : BaseTableConfig) : Task (list Row) :=
  let table := btTable config in
  match EXPORT_TABLES !! table with
  | None => Throw (TableNotFound table)
  | Some tableObj =>
      tryCatch
        (let userField := orDefault (btUserField config) "userId" in
         let where_ := eq_ (tableObj !! userField) (VStr userId) in
         result ← findMany table (Some where_);
         Console (LogExported table (length result))
           (Ret (removeUserId result)))
        (λ error, Console (LogQueryError table error) (Ret []))
  end.

(** The mapper of the first [pMap] call of [export]. *)
Definition baseMapper (config : BaseTableConfig) : Task TableData :=
  d ← queryBaseTables config;
  mret {| data := d; table := btTable config |}.

(** The mapper of the second [pMap] call of [export]; [result] is the
    object the first phase has filled. *)
Definition relationMapper (result : ExportResult) (config : RelationTableConfig)
    : Task TableData :=
  let allSourcesHaveData := forallb (sourceHasData result) (relations config) in
  if negb allSourcesHaveData then
    Console (LogSkipTable (rtTable config))
      (Ret {| data := []; table := rtTable config |})
  else
    d ← queryTable config result;
    mret {| data := d; table := rtTable config |}.

End Exporter.

(** ** Running tasks against the database *)

Section Semantics.

(** The database: [db name where_] is what
    [this.db.query[name].findMany({ where })] settles to. *)
Variable db : string → option SQL → QueryOutcome.

(** What a task returns or throws when each of its queries is answered
    by [db]. *)
Fixpoint outcome {A} (t : Task A) : Error + A :=
  match t with
  | Ret a => inr a
  | Throw e => inl e
  | Console _ k => outcome k
  | FindMany name w k => outcome (k (db name w))
  end.

(** The events of a task that runs alone. *)
Fixpoint events {A} (t : Task A) : list Event :=
  match t with
  | Ret _ | Throw _ => []
  | Console l k => EvConsole l :: events k
  | FindMany name w k =>
      EvQueryBegin name w :: EvQueryEnd name (db name w) :: events (k (db name w))
  end.

(** The number of queries a task awaits. *)
Fixpoint awaits {A} (t : Task A) : nat :=
  match t with
  | Ret _ | Throw _ => 0
  | Console _ k => awaits k
  | FindMany name w k => S (awaits (k (db name w)))
  end.

End Semantics.

(** ** [pMap] with bounded concurrency *)

(** A task that ran up to its next await. *)
Inductive Suspended (B : Type) : Type :=
| SDone (b : B)
| SFailed (e : Error)
| SAwait (name : string) (where_ : option SQL) (k : QueryOutcome → Task B).
Arguments SDone {B} b.
Arguments SFailed {B} e.
Arguments SAwait {B} name where_ k.

(** Runs a task until it finishes or has issued its next query. *)
Fixpoint advance {B} (t : Task B) : list Event * Suspended B :=
  match t with
  | Ret b => ([], SDone b)
  | Throw e => ([], SFailed e)
  | Console l k => let '(evs, s) := advance k in (EvConsole l :: evs, s)
  | FindMany name w k => ([EvQueryBegin name w], SAwait name w k)
  end.

(** A mapper call that waits for its query. *)
Record Flying (B : Type) : Type := {
  fIndex : nat;
  fTable : string;
  fWhere : option SQL;
  fCont : QueryOutcome → Task B;
}.
Arguments fIndex {B} _.
Arguments fTable {B} _.
Arguments fWhere {B} _.
Arguments fCont {B} _.

(** The state of one [pMap] call: the items not yet handed to the mapper,
    the index of the next one, the mapper calls in flight (their number is
    p-map's [resolvingCount]) and the result array with its holes. *)
Record PMapState (A B : Type) : Type := {
  iterator : list A;
  currentIndex : nat;
  resolving : list (Flying B);
  result : list (option B);
}.
Arguments iterator {A B} _.
Arguments currentIndex {A B} _.
Arguments resolving {A B} _.
Arguments result {A B} _.

Section PMap.

Variable db : string → option SQL → QueryOutcome.
Context {A B : Type}.
Variable mapper : A → Task B.

(** Where a mapper call that ran up to [s] leaves the state: a finished
    call writes [result[index]], a failed one rejects the whole [pMap]
    (p-map's default [stopOnError]), a waiting one stays in flight. *)
Definition land (iter : list A) (cur : nat) (flying : list (Flying B))
    (res : list (option B)) (index : nat) (s : Suspended B)
    : PMapState A B + Error :=
  match s with
  | SDone b =>
      inl {| iterator := iter; currentIndex := cur; resolving := flying;
             result := <[index := Some b]> res |}
  | SFailed e => inr e
  | SAwait name w k =>
      inl {| iterator := iter; currentIndex := cur;
             resolving := flying ++ [{| fIndex := index; fTable := name;
                                        fWhere := w; fCont := k |}];
             result := res |}
  end.

(** The query in slot [slot] settles and its mapper call goes on. *)
Definition resolveAt (slot : nat) (st : PMapState A B)
    : list Event * (PMapState A B + Error) :=
  match resolving st !! slot with
  | None => ([], inl st)
  | Some f =>
      let o := db (fTable f) (fWhere f) in
      let '(evs, s) := advance (fCont f o) in
      (EvQueryEnd (fTable f) o :: evs,
       land (iterator st) (currentIndex st) (delete slot (resolving st))
         (result st) (fIndex f) s)
  end.

(** One step of the event loop.  The decision [d] picks among what can
    happen next: the mapper is called on the next item, when fewer than
    [concurrency] calls are in flight, or one of the queries in flight
    settles. *)
Definition step (concurrency d : nat) (st : PMapState A B)
    : list Event * (PMapState A B + Error) :=
  match iterator st with
  | item :: rest =>
      if bool_decide (length (resolving st) < concurrency) then
        let choice := d mod (S (length (resolving st))) in
        match choice with
        | 0 =>
            let '(evs, s) := advance (mapper item) in
            (evs, land rest (S (currentIndex st)) (resolving st) (result st)
                    (currentIndex st) s)
        | S slot => resolveAt slot st
        end
      else resolveAt (d mod length (resolving st)) st
  | [] => resolveAt (d mod length (resolving st)) st
  end.

Definition settled (st : PMapState A B) : bool :=
  match iterator st, resolving st with
  | [], [] => true
  | _, _ => false
  end.

Fixpoint pMapLoop (concurrency : nat) (sched : list nat) (st : PMapState A B)
    : list Event * Promise (list B) :=
  if settled st then ([], Fulfilled (omap id (result st)))
  else
    match sched with
    | [] => ([], Unsettled)
    | d :: sched' =>
        let '(evs, r) := step concurrency d st in
        match r with
        | inl st' =>
            let '(evs', p) := pMapLoop concurrency sched' st' in
            (evs ++ evs', p)
        | inr e => (evs, Rejected e)
        end
    end.

(** [pMap(iterable, mapper, { concurrency })]: the results in the order
    of the items, or the first error.  [concurrency] ranges over the
    non-negative integers, of which p-map refuses [0] alone; p-map also
    refuses negative numbers, fractions and [NaN] and accepts [Infinity],
    and none of these is a value of [concurrency] here.  The trace ends
    where the promise settles: what the mapper calls still in flight do
    after a rejection is not recorded. *)
Definition pMap (iterable : list A) (concurrency : nat) (sched : list nat)
    : list Event * Promise (list B) :=
  if bool_decide (concurrency < 1) then ([], Rejected PMapTypeError)
  else
    pMapLoop concurrency sched
      {| iterator := iterable; currentIndex := 0; resolving := [];
         result := replicate (length iterable) None |}.

End PMap.

(** ** [export] *)

Section ExportRun.

Variable EXPORT_TABLES : gmap string TableObj.
Variable db : string → option SQL → QueryOutcome.
Variable userId : string.

(** [export] over an arbitrary configuration.  [sched1] and [sched2]
    drive the two [pMap] calls. *)
Definition exportWith (cfg : ExportConfig) (concurrency : nat)
    (sched1 sched2 : list nat) : list Event * Promise ExportResult :=
  let result : ExportResult := ∅ in
  let '(tr1, p1) :=
    pMap db (baseMapper EXPORT_TABLES userId) (baseTables cfg) concurrency sched1 in
  match p1 with
  | Fulfilled baseResults =>
      let result := storeResults result baseResults in
      let '(tr2, p2) :=
        pMap db (relationMapper EXPORT_TABLES userId result) (relationTables cfg)
          concurrency sched2 in
      (EvConsole LogQueryingBase :: tr1
         ++ EvConsole (LogBaseResults baseResults)
         :: EvConsole LogQueryingRelation :: tr2,
       match p2 with
       | Fulfilled relationResults => Fulfilled (storeResults result relationResults)
       | Rejected e => Rejected e
       | Unsettled => Unsettled
       end)
  | Rejected e => (EvConsole LogQueryingBase :: tr1, Rejected e)
  | Unsettled => (EvConsole LogQueryingBase :: tr1, Unsettled)
  end.

Definition export : nat → list nat → list nat → list Event * Promise ExportResult :=
  exportWith DATA_EXPORT_CONFIG.

End ExportRun.

(** The default of [export]'s parameter. *)
Definition defaultConcurrency : nat := 10.

(** * The clear action of the settings panel *)

Module AdvancedActions.

(** The six actions the component takes from its stores, by the names it
    binds them to. *)
Inductive ClearOp : Type :=
| OpClearSessions        (* useSessionStore: s.clearSessions *)
| OpRemoveAllPlugins     (* useToolStore: s.removeAllPlugins *)
| OpClearTopics          (* useChatStore: s.removeAllTopics *)
| OpRemoveAllFiles       (* useFileStore: s.removeAllFiles *)
| OpClearAllMessages     (* useChatStore: s.clearAllMessages *)
| OpClearSessionGroups.  (* useSessionStore: s.clearSessionGroups *)

#[global] Instance ClearOp_eq_dec : EqDecision ClearOp.
Proof. solve_decision. Defined.

(** What the user and the stores see of the handler. *)
Inductive UiEvent : Type :=
| Invoked (op : ClearOp)
| SuccessShown.          (* message.success(t('danger.clear.success')) *)

Section Handler.

(** The state of the stores, the errors a store action can fail with, and
    what awaiting a store action does: the state it leaves and the error
    its promise is rejected with, if any. *)
Context {Store Err : Type}.
Variable perform : ClearOp → Store → Store * option Err.

(** An [async] body over the stores: the events, the state left, and the
    value returned or the error thrown. *)
Definition Async (A : Type) : Type := Store → list UiEvent * Store * (Err + A).

Definition andThen {A B} (m : Async A) (k : A → Async B) : Async B :=
  λ st,
    let '(tr, st', r) := m st in
    match r with
    | inl e => (tr, st', inl e)
    | inr a => let '(tr', st'', r') := k a st' in (tr ++ tr', st'', r')
    end.

(** [await op()] *)
Definition call (op : ClearOp) : Async unit :=
  λ st,
    let '(st', r) := perform op st in
    ([Invoked op], st', match r with Some e => inl e | None => inr () end).

Definition clearSessions : Async unit := call OpClearSessions.
Definition removeAllPlugins : Async unit := call OpRemoveAllPlugins.
Definition clearTopics : Async unit := call OpClearTopics.
Definition removeAllFiles : Async unit := call OpRemoveAllFiles.
Definition clearAllMessages : Async unit := call OpClearAllMessages.
Definition clearSessionGroups : Async unit := call OpClearSessionGroups.

Definition messageSuccess : Async unit := λ st, ([SuccessShown], st, inr ()).

(** The [onOk] callback of the dialog. *)
Definition onOk : Async unit :=
  andThen clearSessions (λ _,
  andThen removeAllPlugins (λ _,
  andThen clearTopics (λ _,
  andThen removeAllFiles (λ _,
  andThen clearAllMessages (λ _,
  andThen clearSessionGroups (λ _,
  messageSuccess)))))).

(** The options [handleClear] opens the confirmation dialog with. *)
Record ModalConfig : Type := {
  centered : bool;
  okButtonDanger : bool;
  modalOnOk : Async unit;
  title : string;
}.

(** [handleClear]: [modal.confirm({ ... })] *)
Definition handleClear : ModalConfig := {|
  centered := true;
  okButtonDanger := true;
  modalOnOk := onOk;
  title := "danger.clear.confirm";
|}.

(** The user confirms the dialog: its [onOk] runs. *)
Definition confirm (m : ModalConfig) : Async unit := modalOnOk m.

End Handler.

End AdvancedActions.

(** * The vocabulary of the properties *)

(** ** Of the scheduler *)

Section SchedulerTerms.

Variable db : string → option SQL → QueryOutcome.
Context {A B : Type}.
Variable mapper : A → Task B.

(** What is left of a mapper call in flight: its events, its outcome and
    the number of its awaits once its query has settled. *)
Definition restEvents (f : Flying B) : list Event :=
  EvQueryEnd (fTable f) (db (fTable f) (fWhere f))
    :: events db (fCont f (db (fTable f) (fWhere f))).
Definition restOutcome (f : Flying B) : Error + B :=
  outcome db (fCont f (db (fTable f) (fWhere f))).
Definition restAwaits (f : Flying B) : nat :=
  awaits db (fCont f (db (fTable f) (fWhere f))).

(** The events a state still owes. *)
Definition remaining (st : PMapState A B) : list Event :=
  (resolving st ≫= restEvents) ++ (iterator st ≫= λ item, events db (mapper item)).

(** The number of steps a state still needs. *)
Definition cost (st : PMapState A B) : nat :=
  sum_list_with (λ f, S (restAwaits f)) (resolving st)
  + sum_list_with (λ item, S (awaits db (mapper item))) (iterator st).

(** The two things that can happen in a state. *)
Inductive Transition (concurrency : nat) (st : PMapState A B)
    : list Event → PMapState A B + Error → Prop :=
| TStart item rest evs s :
    iterator st = item :: rest →
    length (resolving st) < concurrency →
    advance (mapper item) = (evs, s) →
    Transition concurrency st evs
      (land rest (S (currentIndex st)) (resolving st) (result st) (currentIndex st) s)
| TResolve slot f evs s :
    resolving st !! slot = Some f →
    advance (fCont f (db (fTable f) (fWhere f))) = (evs, s) →
    Transition concurrency st
      (EvQueryEnd (fTable f) (db (fTable f) (fWhere f)) :: evs)
      (land (iterator st) (currentIndex st) (delete slot (resolving st))
         (result st) (fIndex f) s).

(** The events of all mapper calls, had they run one after the other. *)
Definition allEvents (items : list A) : list Event :=
  items ≫= λ item, events db (mapper item).

Variable items : list A.

(** What holds of every state [pMap] reaches on [items]: the iterator is
    a suffix of the items, every filled slot holds what the mapper
    returns on the item of that index, every call in flight goes on to
    the outcome of its item, and every hole below the current index
    belongs to a call in flight. *)
Record Inv (st : PMapState A B) : Prop := {
  inv_iterator : iterator st = drop (currentIndex st) items;
  inv_length : length (result st) = length items;
  inv_result : ∀ i b, result st !! i = Some (Some b) →
    ∃ item, items !! i = Some item ∧ outcome db (mapper item) = inr b;
  inv_flying : ∀ f, f ∈ resolving st →
    ∃ item, items !! fIndex f = Some item ∧ outcome db (mapper item) = restOutcome f;
  inv_holes : ∀ i, i < currentIndex st → result st !! i = Some None →
    ∃ f, f ∈ resolving st ∧ fIndex f = i;
}.

End SchedulerTerms.

(** ** Of the mappers *)

Section MapperTerms.

Variable EXPORT_TABLES : gmap string TableObj.
Variable db : string → option SQL → QueryOutcome.
Variable userId : string.

(** The condition [queryBaseTables] queries with. *)
Definition baseWhere (tableObj : TableObj) (config : BaseTableConfig) : option SQL :=
  Some (eq_ (tableObj !! orDefault (btUserField config) "userId") (VStr userId)).

(** The rows [queryBaseTables] returns for a registered table. *)
Definition baseRows (tableObj : TableObj) (config : BaseTableConfig) : list Row :=
  match db (btTable config) (baseWhere tableObj config) with
  | inr rows => removeUserId rows
  | inl _ => []
  end.

(** The console line that ends a query of [name]. *)
Definition queryLog (name : string) (o : QueryOutcome) : LogEntry :=
  match o with
  | inr rows => LogExported name (length rows)
  | inl e => LogQueryError name e
  end.

(** The events of one query of [name] with [where_]. *)
Definition queryEvents (name : string) (where_ : option SQL) : list Event :=
  [EvQueryBegin name where_; EvQueryEnd name (db name where_);
   EvConsole (queryLog name (db name where_))].

(** The condition one relation contributes. *)
Definition relationCondition (tableObj : TableObj) (existingData : ExportResult)
    (relation : Relation) : SQL :=
  inArray (tableObj !! propKey (field relation))
    (sourceIds (default [] (existingData !! sourceTable relation)) relation).

(** The condition [queryTable] queries with when every source has data. *)
Definition relationWhere (tableObj : TableObj) (existingData : ExportResult)
    (config : RelationTableConfig) : option SQL :=
  combine (relationCondition tableObj existingData <$> relations config).

(** The rows [queryTable] returns for a registered table whose sources
    all have data. *)
Definition relationRows (tableObj : TableObj) (existingData : ExportResult)
    (config : RelationTableConfig) : list Row :=
  match db (rtTable config) (relationWhere tableObj existingData config) with
  | inr rows => rows
  | inl _ => []
  end.

(** Every declared source has data. *)
Definition allSourcesHaveData (result : ExportResult) (config : RelationTableConfig)
    : bool :=
  forallb (sourceHasData result) (relations config).

(** Every declared source is an array the export has stored, and not
    something the result object inherits. *)
Definition sourcesAreArrays (result : ExportResult) (config : RelationTableConfig)
    : bool :=
  forallb (λ relation, bool_decide (is_Some (result !! sourceTable relation)))
    (relations config).

(** What the relation mapper returns.  When a source passes the check
    without being an array, [queryTable] throws inside its [try] and
    returns no row. *)
Definition relationOutcome (result : ExportResult) (config : RelationTableConfig)
    : Error + TableData :=
  if allSourcesHaveData result config then
    match EXPORT_TABLES !! rtTable config with
    | Some tableObj =>
        inr {| data := if sourcesAreArrays result config
                       then relationRows tableObj result config
                       else [];
               table := rtTable config |}
    | None => inl (TableNotFound (rtTable config))
    end
  else inr {| data := []; table := rtTable config |}.

(** The events of the relation mapper. *)
Definition relationEvents (result : ExportResult) (config : RelationTableConfig)
    : list Event :=
  if allSourcesHaveData result config then
    match EXPORT_TABLES !! rtTable config with
    | Some tableObj =>
        if sourcesAreArrays result config
        then queryEvents (rtTable config) (relationWhere tableObj result config)
        else [EvConsole (LogQueryError (rtTable config)
                           (NotAFunction "sourceData.map"))]
    | None => []
    end
  else [EvConsole (LogSkipTable (rtTable config))].

End MapperTerms.

(** ** Of the two phases *)

Section ExportTerms.

Variable EXPORT_TABLES : gmap string TableObj.
Variable db : string → option SQL → QueryOutcome.
Variable userId : string.

(** What the base mapper returns, and its events. *)
Definition baseOutcome (config : BaseTableConfig) : Error + TableData :=
  match EXPORT_TABLES !! btTable config with
  | Some tableObj =>
      inr {| data := baseRows db userId tableObj config; table := btTable config |}
  | None => inl (TableNotFound (btTable config))
  end.

Definition baseEvents (config : BaseTableConfig) : list Event :=
  match EXPORT_TABLES !! btTable config with
  | Some tableObj => queryEvents db (btTable config) (baseWhere userId tableObj config)
  | None => []
  end.

(** The array the first [pMap] call resolves to: one element for every
    base table that is registered. *)
Definition baseResultsOf (cfg : ExportConfig) : list TableData :=
  omap (λ config,
          match baseOutcome config with inr td => Some td | inl _ => None end)
       (baseTables cfg).

(** The result object when the relation phase begins. *)
Definition basePhase (cfg : ExportConfig) : ExportResult :=
  storeResults ∅ (baseResultsOf cfg).

(** The array the second [pMap] call resolves to. *)
Definition relationResultsOf (cfg : ExportConfig) : list TableData :=
  omap (λ config,
          match relationOutcome EXPORT_TABLES db (basePhase cfg) config with
          | inr td => Some td
          | inl _ => None
          end)
       (relationTables cfg).

(** The object a fulfilled [export] returns. *)
Definition exported (cfg : ExportConfig) : ExportResult :=
  storeResults (basePhase cfg) (relationResultsOf cfg).

(** The names of all configured tables. *)
Definition configNames (cfg : ExportConfig) : list string :=
  (btTable <$> baseTables cfg) ++ (rtTable <$> relationTables cfg).

(** Every source a relation table declares is a base table. *)
Definition sourcesAreBaseTables (cfg : ExportConfig) : Prop :=
  ∀ config relation,
    config ∈ relationTables cfg →
    relation ∈ relations config →
    sourceTable relation ∈ btTable <$> baseTables cfg.

(** The events of the two phases, had the mapper calls run one after the
    other. *)
Definition basePhaseEvents (cfg : ExportConfig) : list Event :=
  baseTables cfg ≫= baseEvents.
Definition relationPhaseEvents (cfg : ExportConfig) : list Event :=
  relationTables cfg ≫= relationEvents EXPORT_TABLES db (basePhase cfg).

(** The shape of a run of [export]: it stops in the base phase without a
    result, or it goes through the base phase and into the relation
    phase. *)
Inductive ExportShape (cfg : ExportConfig) (concurrency : nat)
    (sched1 sched2 : list nat) : list Event → Promise ExportResult → Prop :=
| ShapeBaseRejected tr1 e :
    tr1 ⊆+ basePhaseEvents cfg →
    (concurrency < 1 ∧ e = PMapTypeError ∧ tr1 = []
     ∨ ∃ config, config ∈ baseTables cfg
                 ∧ EXPORT_TABLES !! btTable config = None
                 ∧ e = TableNotFound (btTable config)) →
    ExportShape cfg concurrency sched1 sched2
      (EvConsole LogQueryingBase :: tr1) (Rejected e)
| ShapeBaseUnsettled tr1 :
    tr1 ⊆+ basePhaseEvents cfg →
    length sched1 < 2 * length (baseTables cfg) →
    ExportShape cfg concurrency sched1 sched2
      (EvConsole LogQueryingBase :: tr1) Unsettled
| ShapeRelation tr1 tr2 p :
    pMap db (baseMapper EXPORT_TABLES userId) (baseTables cfg) concurrency sched1
      = (tr1, Fulfilled (baseResultsOf cfg)) →
    1 ≤ concurrency →
    tr1 ≡ₚ basePhaseEvents cfg →
    Forall (λ config, is_Some (EXPORT_TABLES !! btTable config)) (baseTables cfg) →
    tr2 ⊆+ relationPhaseEvents cfg →
    match p with
    | Fulfilled r =>
        tr2 ≡ₚ relationPhaseEvents cfg
        ∧ r = exported cfg
        ∧ Forall2 (λ config td,
                     relationOutcome EXPORT_TABLES db (basePhase cfg) config = inr td)
            (relationTables cfg) (relationResultsOf cfg)
    | Rejected e =>
        ∃ config, config ∈ relationTables cfg
                  ∧ allSourcesHaveData (basePhase cfg) config = true
                  ∧ EXPORT_TABLES !! rtTable config = None
                  ∧ e = TableNotFound (rtTable config)
    | Unsettled => length sched2 < 2 * length (relationTables cfg)
    end →
    ExportShape cfg concurrency sched1 sched2
      (EvConsole LogQueryingBase :: tr1
         ++ EvConsole (LogBaseResults (baseResultsOf cfg))
         :: EvConsole LogQueryingRelation :: tr2) p.

End ExportTerms.

(** ** Of the trace *)

(** A query without a condition returns every row. *)
Definition holdsWhere (env : Column → JSVal) (where_ : option SQL) : bool :=
  match where_ with
  | Some c => holds env c
  | None => true
  end.

(** The begin, and the end, of a query of [name]. *)
Definition isBeginOf (name : string) (ev : Event) : bool :=
  match ev with
  | EvQueryBegin n _ => String.eqb n name
  | _ => false
  end.

Definition isEndOf (name : string) (ev : Event) : bool :=
  match ev with
  | EvQueryEnd n _ => String.eqb n name
  | _ => false
  end.

(** The line that tells that [name] is skipped. *)
Definition isSkipOf (name : string) (ev : Event) : bool :=
  match ev with
  | EvConsole (LogSkipTable n) => String.eqb n name
  | _ => false
  end.

(** How many events of a trace satisfy [f]. *)
Definition countEvents (f : Event → bool) (tr : list Event) : nat :=
  sum_list_with (λ ev, if f ev then 1 else 0) tr.

(** What an event changes in the number of queries in flight. *)
Definition flightDelta (ev : Event) : Z :=
  match ev with
  | EvQueryBegin _ _ => 1
  | EvQueryEnd _ _ => -1
  | EvConsole _ => 0
  end%Z.

(** The number of queries that have begun and not ended in a trace. *)
Definition inFlight (tr : list Event) : Z :=
  foldr (λ ev n, (flightDelta ev + n)%Z) 0%Z tr.

(** ** Of the clear action *)

Section ClearTerms.

Import AdvancedActions.

Context {Store Err : Type}.
Variable perform : ClearOp → Store → Store * option Err.

#[local] Abbreviation Async := (@Async Store Err).
#[local] Abbreviation call := (call perform).

(** The documented order of the clear operations. *)
Definition clearOrder : list ClearOp :=
  [OpClearSessions; OpRemoveAllPlugins; OpClearTopics; OpRemoveAllFiles;
   OpClearAllMessages; OpClearSessionGroups].

(** The stores after the given operations have run, whatever they
    returned. *)
Definition storesAfter (ops : list ClearOp) (st : Store) : Store :=
  foldl (λ s op, fst (perform op s)) st ops.

(** The error the operation fails with in the state it is run in. *)
Definition failure (op : ClearOp) (st : Store) : option Err := snd (perform op st).

(** The operations one after the other, then [final]. *)
Definition callAll (ops : list ClearOp) (final : Async unit) : Async unit :=
  foldr (λ op rest, andThen (call op) (λ _, rest)) final ops.

End ClearTerms.

(** ** A registry, a database and schedules to run the exporter on *)

Definition tableOf (columns : list string) : TableObj :=
  list_to_map ((λ c, (c, c)) <$> columns).

Definition row (fields : list (string * JSVal)) : Row := list_to_map fields.

(** Every configured table is registered.  The two user tables have no
    [userId] column, the other base tables have one. *)
Definition demoTables : gmap string TableObj :=
  list_to_map
    ([("users", tableOf ["id"; "email"]); ("userSettings", tableOf ["id"; "general"])]
     ++ ((λ c, (btTable c, tableOf ["id"; "userId"]))
           <$> drop 2 (baseTables DATA_EXPORT_CONFIG))
     ++ ((λ c, (rtTable c,
                tableOf ["id"; "agentId"; "sessionId"; "fileId"; "messageId";
                         "chunkId"; "knowledgeBaseId"; "userId"]))
           <$> relationTables DATA_EXPORT_CONFIG)).

(** The owner has one user row, two sessions and three messages; the
    queries of [files] and of [messagePlugins] fail; one file is linked to
    a session; every other table is empty. *)
Definition demoDb (name : string) (where_ : option SQL) : QueryOutcome :=
  if String.eqb name "users" then
    inr [row [("id", VStr "u1"); ("email", VStr "u1@example.com")]]
  else if String.eqb name "sessions" then
    inr [row [("id", VStr "s1"); ("userId", VStr "u1")];
         row [("id", VStr "s2"); ("userId", VStr "u1")]]
  else if String.eqb name "messages" then
    inr [row [("id", VStr "m1"); ("userId", VStr "u1"); ("topicId", VStr "t1")];
         row [("id", VStr "m2"); ("userId", VStr "u1"); ("topicId", VStr "t1")];
         row [("id", VStr "m3"); ("userId", VStr "u1"); ("topicId", VStr "t1")]]
  else if String.eqb name "files" then inl (DbError "connection lost")
  else if String.eqb name "filesToSessions" then
    inr [row [("fileId", VStr "f1"); ("sessionId", VStr "s1"); ("userId", VStr "u1")]]
  else if String.eqb name "messagePlugins" then inl (DbError "timeout")
  else inr [].

(** Sixty decisions that start calls and settle queries in turn. *)
Definition demoSched : list nat := mjoin (replicate 20 [0; 3; 1]).

(** The value of a fulfilled promise. *)
Definition fulfilledWith {A} (d : A) (p : Promise A) : A :=
  match p with
  | Fulfilled a => a
  | _ => d
  end.

(** One run of [export], with the default concurrency. *)
Definition demoRun : list Event * Promise ExportResult :=
  export demoTables demoDb "u1" defaultConcurrency demoSched demoSched.
Definition demoTrace : list Event := fst demoRun.
Definition demoResult : ExportResult := fulfilledWith ∅ (snd demoRun).

(** The first [pMap] call of that run. *)
Definition demoBaseRun : list Event * Promise (list TableData) :=
  pMap demoDb (baseMapper demoTables "u1") (baseTables DATA_EXPORT_CONFIG)
    defaultConcurrency demoSched.
Definition demoBaseResults : list TableData := fulfilledWith [] (snd demoBaseRun).

Definition session1 : Row := row [("id", VStr "s1"); ("userId", VStr "u1")].
Definition session2 : Row := row [("id", VStr "s2"); ("userId", VStr "u1")].
Definition user1 : Row := row [("id", VStr "u1"); ("email", VStr "u1@example.com")].
Definition link1 : Row :=
  row [("fileId", VStr "f1"); ("sessionId", VStr "s1"); ("userId", VStr "u1")].

Definition agentsToSessions : RelationTableConfig :=
  {| relations := [rel (Some "agentId") (Some "id") "agents";
                   rel None (Some "sessionId") "sessions"];
     rtTable := "agentsToSessions" |}.
Definition filesToSessions : RelationTableConfig :=
  {| relations := [rel (Some "sessionId") None "sessions"];
     rtTable := "filesToSessions" |}.

Definition isFulfilled {A} (p : Promise A) : bool :=
  match p with
  | Fulfilled _ => true
  | _ => false
  end.



(** Stores that record the operations run on them; clearing the topics
    fails. *)
Definition demoPerform (op : AdvancedActions.ClearOp) (st : list AdvancedActions.ClearOp)
    : list AdvancedActions.ClearOp * option string :=
  (st ++ [op],
   match op with
   | AdvancedActions.OpClearTopics => Some "store unavailable"
   | _ => None
   end).

(** A second run of [export], one query at a time. *)
Definition demoRunSequential : list Event * Promise ExportResult :=
  export demoTables demoDb "u1" 1 (replicate 40 0) (replicate 40 0).

Definition messagesFiles : RelationTableConfig :=
  {| relations := [rel (Some "messageId") None "messages";
                   rel (Some "fileId") None "files"];
     rtTable := "messagesFiles" |}.

(** A relation table that declares no relation. *)
Definition looseConfig : RelationTableConfig :=
  {| relations := []; rtTable := "messageTTS" |}.

(** A run over a registry that lacks [agents]. *)
Definition demoRejectedRun : list Event * Promise ExportResult :=
  export (delete "agents" demoTables) demoDb "u1" defaultConcurrency
    demoSched demoSched.

(** A run over a registry that lacks the relation table
    [filesToSessions], and its first [pMap] call. *)
Definition demoUnlinkedRun : list Event * Promise ExportResult :=
  export (delete "filesToSessions" demoTables) demoDb "u1" defaultConcurrency
    demoSched demoSched.
Definition demoUnlinkedBaseRun : list Event * Promise (list TableData) :=
  pMap demoDb (baseMapper (delete "filesToSessions" demoTables) "u1")
    (baseTables DATA_EXPORT_CONFIG) defaultConcurrency demoSched.

(** The demonstration database with one agent, and a run on it: the
    relation table [agentsToSessions], which declares two relations, is
    queried. *)
Definition agent1 : Row := row [("id", VStr "a1"); ("userId", VStr "u1")].
Definition demoDbAgents (name : string) (where_ : option SQL) : QueryOutcome :=
  if String.eqb name "agents" then inr [agent1] else demoDb name where_.
Definition demoAgentsRun : list Event * Promise ExportResult :=
  export demoTables demoDbAgents "u1" defaultConcurrency demoSched demoSched.
Definition demoAgentsBaseRun : list Event * Promise (list TableData) :=
  pMap demoDbAgents (baseMapper demoTables "u1") (baseTables DATA_EXPORT_CONFIG)
    defaultConcurrency demoSched.

(** The demonstration database with a working [files] table. *)
Definition demoDbHealthy (name : string) (where_ : option SQL) : QueryOutcome :=
  if String.eqb name "files" then inr [] else demoDb name where_.

Definition demoRunHealthy : list Event * Promise ExportResult :=
  export demoTables demoDbHealthy "u1" defaultConcurrency demoSched demoSched.

(** * Properties *)

(** ** Tasks *)

Section TaskFacts.

Variable db : string → option SQL → QueryOutcome.
Context {B : Type}.

Lemma advance_done (t : Task B) evs b :
  advance t = (evs, SDone b) →
  outcome db t = inr b ∧ events db t = evs ∧ awaits db t = 0.
Proof.
  revert evs. induction t as [a|e|l k IH|name w k IH]; intros evs Hadv; simpl in *.
  - by inversion Hadv.
  - inversion Hadv.
  - destruct (advance k) as [evs' s] eqn:Hk. inversion Hadv; subst.
    destruct (IH evs' eq_refl) as (? & ? & ?). by subst.
  - inversion Hadv.
Qed.

Lemma advance_failed (t : Task B) evs e :
  advance t = (evs, SFailed e) →
  outcome db t = inl e ∧ events db t = evs.
Proof.
  revert evs. induction t as [a|e'|l k IH|name w k IH]; intros evs Hadv; simpl in *.
  - inversion Hadv.
  - by inversion Hadv.
  - destruct (advance k) as [evs' s] eqn:Hk. inversion Hadv; subst.
    destruct (IH evs' eq_refl) as (? & ?). by subst.
  - inversion Hadv.
Qed.

Lemma advance_await (t : Task B) evs name w k :
  advance t = (evs, SAwait name w k) →
  outcome db t = outcome db (k (db name w))
  ∧ events db t = evs ++ EvQueryEnd name (db name w) :: events db (k (db name w))
  ∧ awaits db t = S (awaits db (k (db name w))).
Proof.
  revert evs. induction t as [a|e'|l k' IH|name' w' k' IH]; intros evs Hadv; simpl in *.
  - inversion Hadv.
  - inversion Hadv.
  - destruct (advance k') as [evs' s] eqn:Hk. inversion Hadv; subst.
    destruct (IH evs' eq_refl) as (? & -> & ?). done.
  - by inversion Hadv; subst.
Qed.

Lemma outcome_bind {A} (t : Task A) (f : A → Task B) :
  outcome db (t ≫= f) =
  match outcome db t with inl e => inl e | inr a => outcome db (f a) end.
Proof. induction t; simpl; auto. Qed.

Lemma events_bind {A} (t : Task A) (f : A → Task B) :
  events db (t ≫= f) =
  events db t ++
  match outcome db t with inl _ => [] | inr a => events db (f a) end.
Proof.
  induction t as [a|e|l k IH|name w k IH]; simpl; auto;
    by rewrite <- IH.
Qed.

Lemma awaits_bind {A} (t : Task A) (f : A → Task B) :
  awaits db (t ≫= f) =
  awaits db t + match outcome db t with inl _ => 0 | inr a => awaits db (f a) end.
Proof.
  induction t as [a|e|l k IH|name w k IH]; simpl; auto;
    by rewrite <- IH.
Qed.

Lemma outcome_tryCatch (t : Task B) h :
  outcome db (tryCatch t h) =
  match outcome db t with inl e => outcome db (h e) | inr b => inr b end.
Proof. induction t; simpl; auto. Qed.

Lemma events_tryCatch (t : Task B) h :
  events db (tryCatch t h) =
  events db t ++
  match outcome db t with inl e => events db (h e) | inr _ => [] end.
Proof.
  induction t as [a|e|l k IH|name w k IH]; simpl; auto;
    by rewrite <- IH.
Qed.

Lemma awaits_tryCatch (t : Task B) h :
  awaits db (tryCatch t h) =
  awaits db t + match outcome db t with inl e => awaits db (h e) | inr _ => 0 end.
Proof.
  induction t as [a|e|l k IH|name w k IH]; simpl; auto;
    by rewrite <- IH.
Qed.

End TaskFacts.

(** ** The scheduler *)

Section PMapFacts.

Variable db : string → option SQL → QueryOutcome.
Context {A B : Type}.
Variable mapper : A → Task B.

#[local] Abbreviation restEvents := (restEvents db).
#[local] Abbreviation restOutcome := (restOutcome db).
#[local] Abbreviation restAwaits := (restAwaits db).
#[local] Abbreviation remaining := (remaining db mapper).
#[local] Abbreviation cost := (cost db mapper).
#[local] Abbreviation Transition := (Transition db mapper).

Lemma resolveAt_transition concurrency slot st evs r :
  slot < length (resolving st) →
  resolveAt db slot st = (evs, r) →
  Transition concurrency st evs r.
Proof.
  intros Hlt. unfold resolveAt.
  destruct (resolving st !! slot) as [f|] eqn:Hf.
  - destruct (advance _) as [evs' s] eqn:Hadv. intros [= <- <-].
    by eapply TResolve.
  - apply lookup_ge_None in Hf. lia.
Qed.

(** Every step of an unsettled state is a transition: the decision is
    always decoded to something that can happen. *)
Lemma step_transition concurrency d st evs r :
  1 ≤ concurrency →
  settled st = false →
  step db mapper concurrency d st = (evs, r) →
  Transition concurrency st evs r.
Proof.
  intros Hc Hset. unfold step, settled in *.
  destruct (iterator st) as [|item rest] eqn:Hit.
  - destruct (resolving st) as [|f fl] eqn:Hfl; [done|].
    intros Hres. eapply resolveAt_transition; [|done].
    rewrite Hfl. apply Nat.mod_upper_bound. done.
  - case_bool_decide as Hlen.
    + destruct (d mod S (length (resolving st))) as [|slot] eqn:Hd.
      * destruct (advance (mapper item)) as [evs' s] eqn:Hadv.
        intros [= <- <-]. by eapply TStart.
      * intros Hres. eapply resolveAt_transition; [|done].
        pose proof (Nat.mod_upper_bound d (S (length (resolving st)))). lia.
    + intros Hres. eapply resolveAt_transition; [|done].
      apply Nat.mod_upper_bound. lia.
Qed.

Lemma remaining_delete (fl : list (Flying B)) slot f :
  fl !! slot = Some f →
  fl ≫= restEvents ≡ₚ restEvents f ++ (delete slot fl ≫= restEvents).
Proof.
  intros Hf. rewrite (delete_Permutation fl slot f Hf) at 1.
  by rewrite bind_cons.
Qed.

Lemma transition_events concurrency st evs st' :
  Transition concurrency st evs (inl st') →
  evs ++ remaining st' ≡ₚ remaining st.
Proof.
  inversion 1 as [item rest evs' s Hit Hlen Hadv Hevs Hland
                 |slot f evs' s Hf Hadv Hevs Hland]; subst evs; unfold remaining.
  - rewrite Hit, bind_cons. destruct s as [b|e|name w k]; simplify_eq/=.
    + apply (advance_done db) in Hadv as (_ & -> & _). solve_Permutation.
    + apply (advance_await db) in Hadv as (_ & -> & _).
      rewrite bind_app, bind_singleton. unfold restEvents at 2. simpl.
      solve_Permutation.
  - rewrite (remaining_delete _ _ _ Hf). unfold restEvents at 3.
    destruct s as [b|e|name w k]; simplify_eq/=.
    + apply (advance_done db) in Hadv as (_ & -> & _). solve_Permutation.
    + apply (advance_await db) in Hadv as (_ & -> & _).
      rewrite bind_app, bind_singleton. unfold restEvents at 2. simpl.
      solve_Permutation.
Qed.

Lemma transition_events_rejected concurrency st evs e :
  Transition concurrency st evs (inr e) →
  evs ⊆+ remaining st.
Proof.
  inversion 1 as [item rest evs' s Hit Hlen Hadv Hevs Hland
                 |slot f evs' s Hf Hadv Hevs Hland]; subst evs; unfold remaining.
  - rewrite Hit, bind_cons. destruct s as [b|e'|name w k]; simplify_eq/=.
    apply (advance_failed db) in Hadv as (_ & ->). solve_submseteq.
  - rewrite (remaining_delete _ _ _ Hf). unfold restEvents at 1.
    destruct s as [b|e'|name w k]; simplify_eq/=.
    apply (advance_failed db) in Hadv as (_ & ->). solve_submseteq.
Qed.

Lemma transition_cost concurrency st evs st' :
  Transition concurrency st evs (inl st') →
  S (cost st') = cost st.
Proof.
  inversion 1 as [item rest evs' s Hit Hlen Hadv Hevs Hland
                 |slot f evs' s Hf Hadv Hevs Hland]; subst evs; unfold cost.
  - rewrite Hit. destruct s as [b|e|name w k]; simplify_eq/=.
    + apply (advance_done db) in Hadv as (_ & _ & ->). lia.
    + apply (advance_await db) in Hadv as (_ & _ & ->).
      rewrite sum_list_with_app. simpl. unfold restAwaits at 2. simpl. lia.
  - rewrite (delete_Permutation _ _ _ Hf).
    destruct s as [b|e|name w k]; simplify_eq/=.
    + apply (advance_done db) in Hadv as (_ & _ & Haw).
      unfold restAwaits at 2. rewrite Haw. lia.
    + apply (advance_await db) in Hadv as (_ & _ & Haw).
      rewrite sum_list_with_app. simpl.
      unfold restAwaits at 2 3. simpl. rewrite Haw. lia.
Qed.

(** *** The result array *)

Variable items : list A.

#[local] Abbreviation Inv := (Inv db mapper items).

Lemma Inv_init :
  Inv {| iterator := items; currentIndex := 0; resolving := [];
         result := replicate (length items) None |}.
Proof.
  split; simpl.
  - done.
  - by rewrite length_replicate.
  - intros i b [? _]%lookup_replicate. done.
  - intros f Hf. by apply elem_of_nil in Hf.
  - intros i Hi. lia.
Qed.

Lemma land_Inv iter cur fl res index s item t evs st' :
  iter = drop cur items →
  length res = length items →
  (∀ i b, res !! i = Some (Some b) →
     ∃ item, items !! i = Some item ∧ outcome db (mapper item) = inr b) →
  (∀ f, f ∈ fl →
     ∃ item, items !! fIndex f = Some item ∧ outcome db (mapper item) = restOutcome f) →
  (∀ i, i < cur → i ≠ index → res !! i = Some None →
     ∃ f, f ∈ fl ∧ fIndex f = i) →
  items !! index = Some item →
  outcome db (mapper item) = outcome db t →
  advance t = (evs, s) →
  land iter cur fl res index s = inl st' →
  Inv st'.
Proof.
  intros Hiter Hlen Hres Hfl Hholes Hitem Hout Hadv Hland.
  destruct s as [b|e|name w k]; simplify_eq/=.
  - apply (advance_done db) in Hadv as (Hb & _ & _).
    split; simpl.
    + done.
    + by rewrite length_insert.
    + intros i b' [(-> & [= ->] & _)|[_ Hi]]%list_lookup_insert_Some.
      * exists item. by rewrite Hout.
      * by apply Hres.
    + done.
    + intros i Hi [(_ & [=] & _)|[Hne Hnone]]%list_lookup_insert_Some.
      by apply Hholes.
  - apply (advance_await db) in Hadv as (Hk & _ & _).
    split; simpl.
    + done.
    + done.
    + done.
    + intros f [Hf| ->%list_elem_of_singleton]%elem_of_app.
      * by apply Hfl.
      * exists item. simpl. split; [done|]. by rewrite Hout.
    + intros i Hi Hnone. destruct (decide (i = index)) as [->|Hne].
      * eexists. split; [apply elem_of_app; right; apply list_elem_of_singleton; done|done].
      * destruct (Hholes i Hi Hne Hnone) as (f & Hf & Hfi).
        exists f. split; [apply elem_of_app; by left|done].
Qed.

Lemma elem_of_delete_ne (fl : list (Flying B)) slot f f' :
  fl !! slot = Some f → f' ∈ fl → fIndex f' ≠ fIndex f → f' ∈ delete slot fl.
Proof.
  intros Hf Hin Hne. rewrite (delete_Permutation _ _ _ Hf) in Hin.
  apply elem_of_cons in Hin as [->|Hin]; done.
Qed.

Lemma transition_Inv concurrency st evs st' :
  Inv st →
  Transition concurrency st evs (inl st') →
  Inv st'.
Proof.
  intros [Hiter Hlen Hres Hfl Hholes].
  inversion 1 as [item rest evs' s Hit Hlen' Hadv Hevs Hland
                 |slot f evs' s Hf Hadv Hevs Hland]; subst evs.
  - assert (items !! currentIndex st = Some item) as Hitem.
    { rewrite <- (Nat.add_0_r (currentIndex st)), <- lookup_drop, <- Hiter, Hit. done. }
    eapply (land_Inv rest (S (currentIndex st))); [| | | | | | |done|done]; try done.
    + rewrite (drop_S _ _ _ Hitem), Hit in Hiter. by simplify_eq.
    + intros i Hi Hne. apply Hholes. lia.
  - assert (f ∈ resolving st) as Hfin by by eapply list_elem_of_lookup_2.
    destruct (Hfl f Hfin) as (item & Hitem & Hout).
    eapply (land_Inv (iterator st) (currentIndex st)); [| | | | | | |done|done]; try done.
    + intros f' Hf'. apply Hfl. by eapply list_elem_of_delete_inv.
    + intros i Hi Hne Hnone. destruct (Hholes i Hi Hnone) as (f' & Hf' & <-).
      exists f'. split; [|done]. by eapply elem_of_delete_ne.
Qed.

Lemma transition_rejected concurrency st evs e :
  Inv st →
  Transition concurrency st evs (inr e) →
  ∃ item, item ∈ items ∧ outcome db (mapper item) = inl e.
Proof.
  intros [Hiter Hlen Hres Hfl Hholes].
  inversion 1 as [item rest evs' s Hit Hlen' Hadv Hevs Hland
                 |slot f evs' s Hf Hadv Hevs Hland]; subst evs.
  - destruct s as [b|e'|name w k]; simplify_eq/=.
    apply (advance_failed db) in Hadv as (Hout & _).
    exists item. split; [|done].
    apply (list_elem_of_lookup_2 _ (currentIndex st)).
    rewrite <- (Nat.add_0_r (currentIndex st)), <- lookup_drop, <- Hiter, Hit. done.
  - destruct s as [b|e'|name w k]; simplify_eq/=.
    apply (advance_failed db) in Hadv as (Hout & _).
    destruct (Hfl f) as (item & Hitem & Hout'); [by eapply list_elem_of_lookup_2|].
    exists item. split; [by eapply list_elem_of_lookup_2|].
    by rewrite Hout'.
Qed.

Lemma omap_id_filled (l : list (option B)) :
  (∀ i, l !! i ≠ Some None) → Some <$> omap id l = l.
Proof.
  induction l as [|[b|] l IH]; intros Hl; simpl.
  - done.
  - f_equal. apply IH. intros i. apply (Hl (S i)).
  - by destruct (Hl 0).
Qed.

Lemma Inv_settled st :
  Inv st → settled st = true →
  Forall2 (λ item b, outcome db (mapper item) = inr b) items (omap id (result st)).
Proof.
  intros [Hiter Hlen Hres Hfl Hholes] Hset. unfold settled in Hset.
  destruct (iterator st) eqn:Hit; [|done].
  destruct (resolving st) eqn:Hrs; [|done].
  assert (Some <$> omap id (result st) = result st) as Hfilled.
  { apply omap_id_filled. intros i Hi.
    assert (i < currentIndex st) as Hlt.
    { apply lookup_lt_Some in Hi. rewrite Hlen in Hi.
      apply (f_equal length) in Hiter. rewrite length_drop in Hiter.
      simpl in Hiter. lia. }
    destruct (Hholes i Hlt Hi) as (f & Hf & _). by apply elem_of_nil in Hf. }
  apply Forall2_same_length_lookup. split.
  - rewrite <- Hlen, <- Hfilled at 1. by rewrite length_fmap.
  - intros i item b Hitem Hb.
    destruct (Hres i b) as (item' & Hitem' & Hout).
    { rewrite <- Hfilled, list_lookup_fmap, Hb. done. }
    by simplify_eq.
Qed.

Lemma cost_unsettled st : settled st = false → 0 < cost st.
Proof.
  unfold settled, cost.
  destruct (iterator st), (resolving st); simpl; try done; lia.
Qed.

Lemma remaining_settled st : settled st = true → remaining st = [].
Proof.
  unfold settled, remaining.
  by destruct (iterator st), (resolving st).
Qed.

(** What a run of the loop amounts to, whatever the schedule: its trace
    is part of the events the state owes; a fulfilled run has produced
    all of them and returns, item by item, what the mapper returns; a
    rejected run reports the error of one of the items; a run is left
    unsettled only by a schedule shorter than the cost of the state. *)
Lemma pMapLoop_spec concurrency sched st tr p :
  1 ≤ concurrency →
  Inv st →
  pMapLoop db mapper concurrency sched st = (tr, p) →
  tr ⊆+ remaining st ∧
  match p with
  | Fulfilled rs =>
      tr ≡ₚ remaining st
      ∧ Forall2 (λ item b, outcome db (mapper item) = inr b) items rs
  | Rejected e => ∃ item, item ∈ items ∧ outcome db (mapper item) = inl e
  | Unsettled => length sched < cost st
  end.
Proof.
  intros Hc. revert st tr p.
  induction sched as [|d sched IH]; intros st tr p HInv; simpl.
  - destruct (settled st) eqn:Hset; intros [= <- <-].
    + rewrite (remaining_settled _ Hset). split; [done|].
      split; [done|]. by apply Inv_settled.
    + split; [apply submseteq_nil_l|]. by apply cost_unsettled.
  - destruct (settled st) eqn:Hset.
    { intros [= <- <-]. rewrite (remaining_settled _ Hset). split; [done|].
      split; [done|]. by apply Inv_settled. }
    destruct (step db mapper concurrency d st) as [evs [st'|e]] eqn:Hstep;
      apply (step_transition _ _ _ _ _ Hc Hset) in Hstep.
    + destruct (pMapLoop db mapper concurrency sched st') as [evs' p'] eqn:Hloop.
      intros [= <- <-].
      destruct (IH _ _ _ (transition_Inv _ _ _ _ HInv Hstep) Hloop) as [Hsub Hp].
      pose proof (transition_events _ _ _ _ Hstep) as Hevs.
      pose proof (transition_cost _ _ _ _ Hstep) as Hcost.
      split.
      * rewrite <- Hevs. by apply submseteq_app.
      * destruct p' as [rs|e|].
        -- destruct Hp as [Hperm HF]. split; [|done].
           by rewrite <- Hevs, Hperm.
        -- done.
        -- lia.
    + intros [= <- <-]. split.
      * by eapply transition_events_rejected.
      * by eapply transition_rejected.
Qed.

End PMapFacts.

Section PMapSpec.

Variable db : string → option SQL → QueryOutcome.
Context {A B : Type}.
Variable mapper : A → Task B.

#[local] Abbreviation allEvents := (allEvents db mapper).

Lemma pMap_events items concurrency sched tr p :
  pMap db mapper items concurrency sched = (tr, p) →
  tr ⊆+ allEvents items.
Proof.
  unfold pMap. case_bool_decide as Hc.
  - intros [= <- <-]. apply submseteq_nil_l.
  - intros Hloop.
    apply (pMapLoop_spec db mapper items) in Hloop as [Hsub _];
      [done|lia|apply Inv_init].
Qed.

(** A fulfilled [pMap] has run every mapper call to its end and returns
    their results in the order of the items. *)
Lemma pMap_fulfilled items concurrency sched tr rs :
  pMap db mapper items concurrency sched = (tr, Fulfilled rs) →
  tr ≡ₚ allEvents items
  ∧ Forall2 (λ item b, outcome db (mapper item) = inr b) items rs.
Proof.
  unfold pMap. case_bool_decide as Hc; [done|].
  intros Hloop.
  apply (pMapLoop_spec db mapper items) in Hloop as [_ [Hperm HF]];
    [|lia|apply Inv_init].
  split; [|done]. rewrite Hperm. unfold remaining, allEvents. done.
Qed.

(** A rejected [pMap] was given a concurrency below one, or one of its
    mapper calls throws. *)
Lemma pMap_rejected items concurrency sched tr e :
  pMap db mapper items concurrency sched = (tr, Rejected e) →
  (concurrency < 1 ∧ e = PMapTypeError)
  ∨ ∃ item, item ∈ items ∧ outcome db (mapper item) = inl e.
Proof.
  unfold pMap. case_bool_decide as Hc.
  - intros [= <- <-]. by left.
  - intros Hloop. right.
    apply (pMapLoop_spec db mapper items) in Hloop as [_ Hp];
      [done|lia|apply Inv_init].
Qed.

(** A schedule with one decision for every mapper call and one for
    every query settles the [pMap]. *)
Lemma pMap_settles items concurrency sched tr :
  1 ≤ concurrency →
  sum_list_with (λ item, S (awaits db (mapper item))) items ≤ length sched →
  pMap db mapper items concurrency sched ≠ (tr, Unsettled).
Proof.
  intros Hc Hlen Hrun. unfold pMap in Hrun.
  case_bool_decide; [done|].
  apply (pMapLoop_spec db mapper items) in Hrun as [_ Hp];
    [|lia|apply Inv_init].
  unfold cost in Hp. simpl in Hp. lia.
Qed.

Lemma pMap_unsettled items concurrency sched tr :
  pMap db mapper items concurrency sched = (tr, Unsettled) →
  1 ≤ concurrency
  ∧ length sched < sum_list_with (λ item, S (awaits db (mapper item))) items.
Proof.
  intros Hrun. unfold pMap in Hrun.
  case_bool_decide; [done|]. split; [lia|].
  apply (pMapLoop_spec db mapper items) in Hrun as [_ Hp];
    [|lia|apply Inv_init].
  unfold cost in Hp. simpl in Hp. lia.
Qed.

End PMapSpec.

(** ** What the mappers of [export] do *)

Section MapperSpec.

Variable EXPORT_TABLES : gmap string TableObj.
Variable db : string → option SQL → QueryOutcome.
Variable userId : string.

#[local] Abbreviation baseWhere := (baseWhere userId).
#[local] Abbreviation baseRows := (baseRows db userId).
#[local] Abbreviation queryEvents := (queryEvents db).
#[local] Abbreviation relationRows := (relationRows db).
#[local] Abbreviation relationOutcome := (relationOutcome EXPORT_TABLES db).
#[local] Abbreviation relationEvents := (relationEvents EXPORT_TABLES db).

Lemma queryBaseTables_missing config :
  EXPORT_TABLES !! btTable config = None →
  queryBaseTables EXPORT_TABLES userId config = Throw (TableNotFound (btTable config)).
Proof. intros H. unfold queryBaseTables. by rewrite H. Qed.

Lemma outcome_queryBaseTables config tableObj :
  EXPORT_TABLES !! btTable config = Some tableObj →
  outcome db (queryBaseTables EXPORT_TABLES userId config) = inr (baseRows tableObj config).
Proof.
  intros H. unfold queryBaseTables, baseRows, baseWhere. rewrite H. simpl.
  by destruct (db _ _).
Qed.

Lemma events_queryBaseTables config tableObj :
  EXPORT_TABLES !! btTable config = Some tableObj →
  events db (queryBaseTables EXPORT_TABLES userId config)
  = queryEvents (btTable config) (baseWhere tableObj config).
Proof.
  intros H. unfold queryBaseTables, queryEvents, baseWhere. rewrite H. simpl.
  by destruct (db _ _).
Qed.

Lemma outcome_baseMapper config :
  outcome db (baseMapper EXPORT_TABLES userId config) =
  match EXPORT_TABLES !! btTable config with
  | Some tableObj => inr {| data := baseRows tableObj config; table := btTable config |}
  | None => inl (TableNotFound (btTable config))
  end.
Proof.
  unfold baseMapper. rewrite outcome_bind.
  destruct (EXPORT_TABLES !! btTable config) as [tableObj|] eqn:H.
  - by rewrite (outcome_queryBaseTables _ _ H).
  - by rewrite (queryBaseTables_missing _ H).
Qed.

Lemma events_baseMapper config :
  events db (baseMapper EXPORT_TABLES userId config) =
  match EXPORT_TABLES !! btTable config with
  | Some tableObj => queryEvents (btTable config) (baseWhere tableObj config)
  | None => []
  end.
Proof.
  unfold baseMapper. rewrite events_bind.
  destruct (EXPORT_TABLES !! btTable config) as [tableObj|] eqn:H.
  - rewrite (outcome_queryBaseTables _ _ H), (events_queryBaseTables _ _ H).
    simpl. by rewrite ?app_nil_r.
  - by rewrite (queryBaseTables_missing _ H).
Qed.

Lemma awaits_baseMapper config :
  awaits db (baseMapper EXPORT_TABLES userId config) ≤ 1.
Proof.
  unfold baseMapper, queryBaseTables.
  destruct (EXPORT_TABLES !! btTable config) as [tableObj|]; simpl; [|lia].
  destruct (db _ _); simpl; lia.
Qed.

(** *** The loop of [queryTable] *)

Lemma readResult_own (result : ExportResult) name rows :
  result !! name = Some rows → readResult result name = FoundArray rows.
Proof. unfold readResult. by intros ->. Qed.


Lemma sourceHasData_own (result : ExportResult) relation rows :
  result !! sourceTable relation = Some rows →
  sourceHasData result relation = bool_decide (0 < length rows).
Proof. intros Hown. unfold sourceHasData. by rewrite (readResult_own _ _ _ Hown). Qed.


(** A source that passes the check without being an array is a function
    that [Object.prototype] gives, with a positive [length]. *)
Lemma sourceHasData_not_own (result : ExportResult) relation :
  sourceHasData result relation = true →
  result !! sourceTable relation = None →
  ∃ arity,
    0 < arity
    ∧ orEmpty (readResult result (sourceTable relation)) = FoundFunction arity.
Proof.
  unfold sourceHasData, readResult. intros Hdata Hnone. rewrite Hnone in *.
  destruct (String.eqb (sourceTable relation) "__proto__"); [by simpl in Hdata|].
  destruct (inheritedFunction (sourceTable relation)) as [arity|]; simpl in *.
  - exists arity. split; [by apply bool_decide_eq_true in Hdata|done].
  - done.
Qed.

Lemma relationConditions_all tableObj rels existingData conditions :
  forallb (sourceHasData existingData) rels = true →
  forallb (λ relation, bool_decide (is_Some (existingData !! sourceTable relation)))
    rels = true →
  relationConditions tableObj rels existingData conditions
  = LoopDone (conditions ++ (relationCondition tableObj existingData <$> rels)).
Proof.
  revert conditions. induction rels as [|relation rels IH]; intros conditions; simpl.
  - by rewrite app_nil_r.
  - intros [Hhd Htl]%andb_true_iff [Hown Hrest]%andb_true_iff.
    apply bool_decide_eq_true in Hown as [rows Hown].
    rewrite (sourceHasData_own _ _ _ Hown) in Hhd. apply bool_decide_eq_true in Hhd.
    rewrite (readResult_own _ _ _ Hown). simpl.
    rewrite bool_decide_eq_false_2 by (intros [= Hlen]; lia).
    rewrite (IH _ Htl Hrest), <- (assoc_L (++)).
    unfold relationCondition. by rewrite Hown.
Qed.

Lemma relationConditions_not_array tableObj rels existingData conditions :
  forallb (sourceHasData existingData) rels = true →
  forallb (λ relation, bool_decide (is_Some (existingData !! sourceTable relation)))
    rels = false →
  relationConditions tableObj rels existingData conditions
  = LoopThrew (NotAFunction "sourceData.map").
Proof.
  revert conditions. induction rels as [|relation rels IH]; intros conditions; simpl.
  - done.
  - intros [Hhd Htl]%andb_true_iff Hnot.
    destruct (existingData !! sourceTable relation) as [rows|] eqn:Hown.
    + rewrite (sourceHasData_own _ _ _ Hown) in Hhd. apply bool_decide_eq_true in Hhd.
      rewrite (readResult_own _ _ _ Hown). simpl.
      rewrite bool_decide_eq_false_2 by (intros [= Hlen]; lia).
      apply IH; [done|].
      rewrite bool_decide_eq_true_2 in Hnot by by eexists. done.
    + destruct (sourceHasData_not_own _ _ Hhd Hown) as (arity & Hpos & ->). simpl.
      by rewrite bool_decide_eq_false_2 by (intros [= Hlen]; lia).
Qed.

(** The loop stops at the first source without data when the sources
    before it are arrays with data. *)
Lemma relationConditions_returns tableObj pre relation post existingData conditions :
  Forall (λ r, ∃ rows, existingData !! sourceTable r = Some rows ∧ rows ≠ []) pre →
  lengthOf (orEmpty (readResult existingData (sourceTable relation))) = Some 0 →
  relationConditions tableObj (pre ++ relation :: post) existingData conditions
  = LoopReturned (sourceTable relation).
Proof.
  revert conditions. induction pre as [|r pre IH]; intros conditions Hpre Hlen; simpl.
  - by rewrite bool_decide_eq_true_2.
  - apply Forall_cons in Hpre as [(rows & Hown & Hrows) Hpre].
    rewrite (readResult_own _ _ _ Hown). simpl.
    rewrite bool_decide_eq_false_2 by (intros [= ?]; by destruct rows).
    by apply IH.
Qed.

(** *** [queryTable] and the relation mapper *)

Lemma queryTable_missing config existingData :
  EXPORT_TABLES !! rtTable config = None →
  queryTable EXPORT_TABLES userId config existingData
  = Throw (TableNotFound (rtTable config)).
Proof. intros H. unfold queryTable. by rewrite H. Qed.

Lemma queryTable_all_sources config existingData tableObj :
  EXPORT_TABLES !! rtTable config = Some tableObj →
  allSourcesHaveData existingData config = true →
  sourcesAreArrays existingData config = true →
  outcome db (queryTable EXPORT_TABLES userId config existingData)
    = inr (relationRows tableObj existingData config)
  ∧ events db (queryTable EXPORT_TABLES userId config existingData)
    = queryEvents (rtTable config) (relationWhere tableObj existingData config).
Proof.
  intros H Hall Harrays. unfold queryTable, relationRows, relationWhere, queryEvents.
  rewrite H, (relationConditions_all _ _ _ _ Hall Harrays). simpl.
  rewrite andb_false_r. simpl.
  by destruct (db _ _).
Qed.

(** A source that is not an array makes [queryTable] throw inside its
    [try]: the error is logged and no row is returned, without a query. *)
Lemma queryTable_not_array config existingData tableObj :
  EXPORT_TABLES !! rtTable config = Some tableObj →
  allSourcesHaveData existingData config = true →
  sourcesAreArrays existingData config = false →
  queryTable EXPORT_TABLES userId config existingData
  = Console (LogQueryError (rtTable config) (NotAFunction "sourceData.map")) (Ret []).
Proof.
  intros H Hall Harrays. unfold queryTable.
  by rewrite H, (relationConditions_not_array _ _ _ _ Hall Harrays).
Qed.



Lemma relationMapper_skip result config :
  allSourcesHaveData result config = false →
  relationMapper EXPORT_TABLES userId result config
  = Console (LogSkipTable (rtTable config))
      (Ret {| data := []; table := rtTable config |}).
Proof. unfold relationMapper, allSourcesHaveData. by intros ->. Qed.

Lemma outcome_relationMapper result config :
  outcome db (relationMapper EXPORT_TABLES userId result config)
  = relationOutcome result config.
Proof.
  unfold relationOutcome.
  destruct (allSourcesHaveData result config) eqn:Hall.
  - unfold relationMapper. unfold allSourcesHaveData in Hall. rewrite Hall. simpl.
    rewrite outcome_bind.
    destruct (EXPORT_TABLES !! rtTable config) as [tableObj|] eqn:H.
    + destruct (sourcesAreArrays result config) eqn:Harrays.
      * by destruct (queryTable_all_sources _ _ _ H Hall Harrays) as [-> _].
      * by rewrite (queryTable_not_array _ _ _ H Hall Harrays).
    + by rewrite (queryTable_missing _ _ H).
  - by rewrite (relationMapper_skip _ _ Hall).
Qed.

Lemma events_relationMapper result config :
  events db (relationMapper EXPORT_TABLES userId result config)
  = relationEvents result config.
Proof.
  unfold relationEvents.
  destruct (allSourcesHaveData result config) eqn:Hall.
  - unfold relationMapper. unfold allSourcesHaveData in Hall. rewrite Hall. simpl.
    rewrite events_bind.
    destruct (EXPORT_TABLES !! rtTable config) as [tableObj|] eqn:H.
    + destruct (sourcesAreArrays result config) eqn:Harrays.
      * destruct (queryTable_all_sources _ _ _ H Hall Harrays) as [-> ->].
        simpl. by rewrite ?app_nil_r.
      * by rewrite (queryTable_not_array _ _ _ H Hall Harrays).
    + by rewrite (queryTable_missing _ _ H).
  - by rewrite (relationMapper_skip _ _ Hall).
Qed.

Lemma awaits_relationMapper result config :
  awaits db (relationMapper EXPORT_TABLES userId result config) ≤ 1.
Proof.
  destruct (allSourcesHaveData result config) eqn:Hall.
  - unfold relationMapper. unfold allSourcesHaveData in Hall. rewrite Hall. simpl.
    unfold queryTable.
    destruct (EXPORT_TABLES !! rtTable config) as [tableObj|]; simpl; [|lia].
    destruct (relationConditions _ _ _ _); simpl; [lia..|].
    destruct (db _ _); simpl; lia.
  - rewrite (relationMapper_skip _ _ Hall). simpl. lia.
Qed.

End MapperSpec.

(** ** The result object *)

Section StoreResults.

Lemma storeResults_cons (result : ExportResult) td tds :
  storeResults result (td :: tds) = storeResults (<[table td := data td]> result) tds.
Proof. done. Qed.

Lemma storeResults_lookup_notin (result : ExportResult) tds name :
  name ∉ table <$> tds →
  storeResults result tds !! name = result !! name.
Proof.
  revert result. induction tds as [|td tds IH]; intros result Hnotin; [done|].
  rewrite storeResults_cons. rewrite fmap_cons in Hnotin.
  apply not_elem_of_cons in Hnotin as [Hne Hnotin].
  rewrite (IH _ Hnotin). by rewrite lookup_insert_ne.
Qed.

Lemma storeResults_lookup_in (result : ExportResult) tds td :
  NoDup (table <$> tds) →
  td ∈ tds →
  storeResults result tds !! table td = Some (data td).
Proof.
  revert result. induction tds as [|td' tds IH]; intros result Hnd Hin.
  - by apply elem_of_nil in Hin.
  - rewrite storeResults_cons. rewrite fmap_cons in Hnd.
    apply NoDup_cons in Hnd as [Hnotin Hnd].
    apply elem_of_cons in Hin as [->|Hin].
    + rewrite (storeResults_lookup_notin _ _ _ Hnotin). by rewrite lookup_insert_eq.
    + by apply IH.
Qed.

Lemma storeResults_is_Some (result : ExportResult) tds name :
  name ∈ table <$> tds ∨ is_Some (result !! name) →
  is_Some (storeResults result tds !! name).
Proof.
  revert result. induction tds as [|td tds IH]; intros result Hin.
  - destruct Hin as [Hin|Hin]; [by apply elem_of_nil in Hin|done].
  - rewrite storeResults_cons. apply IH.
    destruct Hin as [Hin|Hin].
    + rewrite fmap_cons in Hin. apply elem_of_cons in Hin as [->|Hin]; [|by left].
      right. by rewrite lookup_insert_eq.
    + destruct (decide (table td = name)) as [<-|Hne].
      * right. by rewrite lookup_insert_eq.
      * right. by rewrite lookup_insert_ne.
Qed.

End StoreResults.

(** ** The two phases of [export] *)

Section ExportSpec.

Variable EXPORT_TABLES : gmap string TableObj.
Variable db : string → option SQL → QueryOutcome.
Variable userId : string.

#[local] Abbreviation baseOutcome := (baseOutcome EXPORT_TABLES db userId).
#[local] Abbreviation baseEvents := (baseEvents EXPORT_TABLES db userId).
#[local] Abbreviation baseResultsOf := (baseResultsOf EXPORT_TABLES db userId).
#[local] Abbreviation basePhase := (basePhase EXPORT_TABLES db userId).
#[local] Abbreviation relationResultsOf := (relationResultsOf EXPORT_TABLES db userId).
#[local] Abbreviation exported := (exported EXPORT_TABLES db userId).
#[local] Abbreviation basePhaseEvents := (basePhaseEvents EXPORT_TABLES db userId).
#[local] Abbreviation ExportShape := (ExportShape EXPORT_TABLES db userId).

Lemma Forall2_outcome_omap {C D} (f : C → Error + D) (items : list C) (rs : list D) :
  Forall2 (λ item b, f item = inr b) items rs →
  rs = omap (λ item, match f item with inr b => Some b | inl _ => None end) items.
Proof.
  induction 1 as [|item b items rs Hb _ IH]; [done|].
  simpl. rewrite Hb. simpl. by f_equal.
Qed.

Lemma allEvents_base cfg :
  allEvents db (baseMapper EXPORT_TABLES userId) (baseTables cfg) = basePhaseEvents cfg.
Proof.
  unfold allEvents, basePhaseEvents. apply list_bind_ext; [|done].
  intros config. apply events_baseMapper.
Qed.

Lemma allEvents_relation cfg result :
  allEvents db (relationMapper EXPORT_TABLES userId result) (relationTables cfg)
  = relationTables cfg ≫= relationEvents EXPORT_TABLES db result.
Proof.
  unfold allEvents. apply list_bind_ext; [|done].
  intros config. apply events_relationMapper.
Qed.

(** The first [pMap] call can only resolve to [baseResultsOf], and only
    when every base table is registered. *)
Lemma base_run_results cfg concurrency sched1 tr1 baseResults :
  pMap db (baseMapper EXPORT_TABLES userId) (baseTables cfg) concurrency sched1
    = (tr1, Fulfilled baseResults) →
  baseResults = baseResultsOf cfg
  ∧ Forall (λ config, is_Some (EXPORT_TABLES !! btTable config)) (baseTables cfg).
Proof.
  intros [_ HF1]%pMap_fulfilled. split.
  - unfold baseResultsOf. apply Forall2_outcome_omap.
    eapply Forall2_impl; [done|]. intros config td. simpl.
    by rewrite outcome_baseMapper.
  - eapply Forall2_Forall_l; [exact HF1|].
    apply Forall_true. intros td config. rewrite outcome_baseMapper.
    destruct (EXPORT_TABLES !! btTable config); [by eexists|done].
Qed.

Lemma relationOutcome_inl result config e :
  relationOutcome EXPORT_TABLES db result config = inl e →
  allSourcesHaveData result config = true
  ∧ EXPORT_TABLES !! rtTable config = None
  ∧ e = TableNotFound (rtTable config).
Proof.
  unfold relationOutcome.
  destruct (allSourcesHaveData result config); [|done].
  destruct (EXPORT_TABLES !! rtTable config); [done|].
  by intros [= <-].
Qed.

Lemma sum_awaits_bound {C D} (f : C → Task D) (l : list C) :
  (∀ c, awaits db (f c) ≤ 1) →
  sum_list_with (λ c, S (awaits db (f c))) l ≤ 2 * length l.
Proof.
  intros Hf. induction l as [|c l IH]; simpl; [lia|].
  specialize (Hf c). lia.
Qed.

Lemma exportWith_shape cfg concurrency sched1 sched2 tr p :
  exportWith EXPORT_TABLES db userId cfg concurrency sched1 sched2 = (tr, p) →
  ExportShape cfg concurrency sched1 sched2 tr p.
Proof.
  unfold exportWith.
  destruct (pMap db (baseMapper EXPORT_TABLES userId) (baseTables cfg) concurrency sched1)
    as [tr1 p1] eqn:Hbase.
  pose proof (pMap_events _ _ _ _ _ _ _ Hbase) as Hsub1.
  rewrite allEvents_base in Hsub1.
  destruct p1 as [baseResults|e|].
  - apply pMap_fulfilled in Hbase as Hful. destruct Hful as [Hperm1 HF1].
    rewrite allEvents_base in Hperm1.
    assert (1 ≤ concurrency) as Hc.
    { unfold pMap in Hbase. case_bool_decide; [done|lia]. }
    destruct (base_run_results _ _ _ _ _ Hbase) as [-> Hreg].
    fold (basePhase cfg).
    destruct (pMap db (relationMapper EXPORT_TABLES userId (basePhase cfg))
                (relationTables cfg) concurrency sched2) as [tr2 p2] eqn:Hrel.
    pose proof (pMap_events _ _ _ _ _ _ _ Hrel) as Hsub2.
    rewrite allEvents_relation in Hsub2.
    intros [= <- <-].
    destruct p2 as [relationResults|e|].
    + apply pMap_fulfilled in Hrel as [Hperm2 HF2].
      rewrite allEvents_relation in Hperm2.
      assert (Forall2 (λ config td,
                relationOutcome EXPORT_TABLES db (basePhase cfg) config = inr td)
                (relationTables cfg) relationResults) as HF2'.
      { eapply Forall2_impl; [done|]. intros config td. simpl.
        by rewrite outcome_relationMapper. }
      assert (relationResults = relationResultsOf cfg) as ->.
      { unfold relationResultsOf. by apply Forall2_outcome_omap. }
      by apply ShapeRelation.
    + apply pMap_rejected in Hrel as [[Hlt _]|(config & Hin & Hout)]; [lia|].
      rewrite outcome_relationMapper in Hout.
      apply relationOutcome_inl in Hout as (Hall & Hnone & ->).
      apply ShapeRelation; try done. by exists config.
    + apply ShapeRelation; try done.
      apply pMap_unsettled in Hrel as [_ Hlt].
      eapply Nat.lt_le_trans; [exact Hlt|].
      apply sum_awaits_bound. intros c. apply awaits_relationMapper.
  - intros [= <- <-]. apply ShapeBaseRejected; [done|].
    apply pMap_rejected in Hbase as Hrej.
    destruct Hrej as [[Hlt ->]|(config & Hin & Hout)].
    + left. split; [done|]. split; [done|].
      unfold pMap in Hbase. rewrite bool_decide_eq_true_2 in Hbase by done.
      by simplify_eq.
    + right. exists config. rewrite outcome_baseMapper in Hout.
      destruct (EXPORT_TABLES !! btTable config); [done|]. by simplify_eq.
  - intros [= <- <-]. apply ShapeBaseUnsettled; [done|].
    apply pMap_unsettled in Hbase as [_ Hlt].
    eapply Nat.lt_le_trans; [exact Hlt|].
    apply sum_awaits_bound. intros c. apply awaits_baseMapper.
Qed.

(** A run of [export] settles when the first schedule has two decisions
    for every base table and the second two for every relation table (a
    concurrency below one settles it at once, with a rejection). *)
Lemma exportWith_settles cfg concurrency sched1 sched2 tr :
  2 * length (baseTables cfg) ≤ length sched1 →
  2 * length (relationTables cfg) ≤ length sched2 →
  exportWith EXPORT_TABLES db userId cfg concurrency sched1 sched2 ≠ (tr, Unsettled).
Proof.
  intros Hs1 Hs2 Hshape%exportWith_shape.
  inversion Hshape; subst; lia.
Qed.

(** *** Reading the result object *)

Lemma omap_names_sublist {C} (f : C → option TableData) (name : C → string) l :
  (∀ c td, f c = Some td → table td = name c) →
  table <$> omap f l `sublist_of` name <$> l.
Proof.
  intros Hf. induction l as [|c l IH]; simpl; [done|].
  destruct (f c) as [td|] eqn:Hc; simpl.
  - rewrite (Hf _ _ Hc). by apply sublist_skip.
  - by apply sublist_cons.
Qed.

Lemma baseResultsOf_names cfg :
  table <$> baseResultsOf cfg `sublist_of` btTable <$> baseTables cfg.
Proof.
  apply omap_names_sublist. intros c td. unfold baseOutcome.
  destruct (EXPORT_TABLES !! btTable c); [|done]. by intros [= <-].
Qed.

Lemma relationOutcome_table result config td :
  relationOutcome EXPORT_TABLES db result config = inr td → table td = rtTable config.
Proof.
  unfold relationOutcome. destruct (allSourcesHaveData result config).
  - destruct (EXPORT_TABLES !! rtTable config); [|done]. by intros [= <-].
  - by intros [= <-].
Qed.

Lemma relationResultsOf_names cfg :
  table <$> relationResultsOf cfg `sublist_of` rtTable <$> relationTables cfg.
Proof.
  apply omap_names_sublist. intros c td.
  destruct (relationOutcome _ _ _ c) as [e|td'] eqn:Hc; [done|].
  intros [= <-]. by eapply relationOutcome_table.
Qed.

Lemma basePhase_lookup cfg config tableObj :
  NoDup (btTable <$> baseTables cfg) →
  config ∈ baseTables cfg →
  EXPORT_TABLES !! btTable config = Some tableObj →
  basePhase cfg !! btTable config = Some (baseRows db userId tableObj config).
Proof.
  intros Hnd Hin Hreg. unfold basePhase.
  set (td := {| data := baseRows db userId tableObj config; table := btTable config |}).
  change (btTable config) with (table td) at 1.
  change (baseRows db userId tableObj config) with (data td).
  apply storeResults_lookup_in.
  - eapply sublist_NoDup; [done|apply baseResultsOf_names].
  - unfold baseResultsOf. apply list_elem_of_omap. exists config. split; [done|].
    unfold baseOutcome. by rewrite Hreg.
Qed.

Lemma basePhase_lookup_None cfg name :
  name ∉ btTable <$> baseTables cfg →
  basePhase cfg !! name = None.
Proof.
  intros Hnotin. unfold basePhase. rewrite storeResults_lookup_notin; [done|].
  intros Hin. apply Hnotin.
  eapply elem_of_sublist; [done|apply baseResultsOf_names].
Qed.

(** Once every base table is registered, every base table has an array
    of its own in the result object the relation phase reads. *)
Lemma basePhase_is_Some cfg name :
  Forall (λ config, is_Some (EXPORT_TABLES !! btTable config)) (baseTables cfg) →
  name ∈ btTable <$> baseTables cfg →
  is_Some (basePhase cfg !! name).
Proof.
  intros Hreg (config & -> & Hin)%list_elem_of_fmap. unfold basePhase.
  apply storeResults_is_Some. left.
  rewrite Forall_forall in Hreg. destruct (Hreg _ Hin) as [tableObj Hsome].
  apply list_elem_of_fmap.
  exists {| data := baseRows db userId tableObj config; table := btTable config |}.
  split; [done|]. unfold baseResultsOf. apply list_elem_of_omap. exists config.
  split; [done|]. unfold baseOutcome. by rewrite Hsome.
Qed.

Lemma sourcesAreArrays_basePhase cfg config :
  Forall (λ config, is_Some (EXPORT_TABLES !! btTable config)) (baseTables cfg) →
  (∀ relation, relation ∈ relations config →
               sourceTable relation ∈ btTable <$> baseTables cfg) →
  sourcesAreArrays (basePhase cfg) config = true.
Proof.
  intros Hreg Hsources. unfold sourcesAreArrays. apply forallb_forall.
  intros relation Hin%list_elem_of_In. apply bool_decide_eq_true_2.
  apply basePhase_is_Some; [done|]. by apply Hsources.
Qed.

Lemma NoDup_configNames cfg :
  NoDup (configNames cfg) →
  NoDup (btTable <$> baseTables cfg)
  ∧ NoDup (rtTable <$> relationTables cfg)
  ∧ (∀ name, name ∈ btTable <$> baseTables cfg →
             name ∉ rtTable <$> relationTables cfg).
Proof.
  unfold configNames. intros (H1 & H2 & H3)%NoDup_app. done.
Qed.

Lemma exported_lookup_base cfg config tableObj :
  NoDup (configNames cfg) →
  config ∈ baseTables cfg →
  EXPORT_TABLES !! btTable config = Some tableObj →
  exported cfg !! btTable config = Some (baseRows db userId tableObj config).
Proof.
  intros (Hb & Hr & Hdisj)%NoDup_configNames Hin Hreg. unfold exported.
  rewrite storeResults_lookup_notin; [by apply basePhase_lookup|].
  intros Hin'. eapply (Hdisj (btTable config)).
  - apply list_elem_of_fmap. by exists config.
  - eapply elem_of_sublist; [done|apply relationResultsOf_names].
Qed.

Lemma exported_lookup_relation cfg config td :
  NoDup (configNames cfg) →
  config ∈ relationTables cfg →
  relationOutcome EXPORT_TABLES db (basePhase cfg) config = inr td →
  exported cfg !! rtTable config = Some (data td).
Proof.
  intros (Hb & Hr & Hdisj)%NoDup_configNames Hin Hout. unfold exported.
  rewrite <- (relationOutcome_table _ _ _ Hout).
  apply storeResults_lookup_in.
  - eapply sublist_NoDup; [done|apply relationResultsOf_names].
  - unfold relationResultsOf. apply list_elem_of_omap. exists config.
    by rewrite Hout.
Qed.

(** *** Reading the trace *)

Lemma elem_of_basePhaseEvents cfg ev :
  ev ∈ basePhaseEvents cfg ↔
  ∃ config tableObj,
    config ∈ baseTables cfg
    ∧ EXPORT_TABLES !! btTable config = Some tableObj
    ∧ ev ∈ queryEvents db (btTable config) (baseWhere userId tableObj config).
Proof.
  unfold basePhaseEvents. rewrite list_elem_of_bind. unfold baseEvents. split.
  - intros (config & Hev & Hin).
    destruct (EXPORT_TABLES !! btTable config) as [tableObj|] eqn:Hreg.
    + by exists config, tableObj.
    + by apply elem_of_nil in Hev.
  - intros (config & tableObj & Hin & Hreg & Hev). exists config. by rewrite Hreg.
Qed.

Lemma elem_of_relationEvents result config ev :
  ev ∈ relationEvents EXPORT_TABLES db result config ↔
  (allSourcesHaveData result config = false
   ∧ ev = EvConsole (LogSkipTable (rtTable config)))
  ∨ (allSourcesHaveData result config = true
     ∧ ∃ tableObj, EXPORT_TABLES !! rtTable config = Some tableObj
       ∧ sourcesAreArrays result config = true
       ∧ ev ∈ queryEvents db (rtTable config) (relationWhere tableObj result config))
  ∨ (allSourcesHaveData result config = true
     ∧ sourcesAreArrays result config = false
     ∧ is_Some (EXPORT_TABLES !! rtTable config)
     ∧ ev = EvConsole (LogQueryError (rtTable config) (NotAFunction "sourceData.map"))).
Proof.
  unfold relationEvents. destruct (allSourcesHaveData result config).
  - destruct (EXPORT_TABLES !! rtTable config) as [tableObj|] eqn:Hreg.
    + destruct (sourcesAreArrays result config).
      * split; [intros Hev; right; left; split; [done|]; by exists tableObj|].
        intros [[? _]|[[_ (tableObj' & [= <-] & _ & Hev)]|(_ & ? & _)]]; done.
      * rewrite list_elem_of_singleton. split; [intros ->; right; right; by eauto|].
        intros [[? _]|[[_ (tableObj' & _ & ? & _)]|(_ & _ & _ & ->)]]; done.
    + split; [by intros ?%elem_of_nil|].
      intros [[? _]|[[_ (tableObj' & ? & _)]|(_ & _ & [? ?] & _)]]; done.
  - rewrite list_elem_of_singleton. split; [by left|].
    intros [[_ ->]|[[? _]|[? _]]]; done.
Qed.

Lemma elem_of_queryEvents name where_ ev :
  ev ∈ queryEvents db name where_ ↔
  ev = EvQueryBegin name where_
  ∨ ev = EvQueryEnd name (db name where_)
  ∨ ev = EvConsole (queryLog name (db name where_)).
Proof.
  unfold queryEvents. rewrite !elem_of_cons, elem_of_nil.
  split; [intros [?|[?|[?|[]]]]|intros [?|[?|?]]]; auto.
Qed.

End ExportSpec.

(** ** Runs of [export] *)

Section ExportRuns.

Variable EXPORT_TABLES : gmap string TableObj.
Variable db : string → option SQL → QueryOutcome.
Variable userId : string.

#[local] Abbreviation exportWith := (exportWith EXPORT_TABLES db userId).
#[local] Abbreviation basePhase := (basePhase EXPORT_TABLES db userId).
#[local] Abbreviation exported := (exported EXPORT_TABLES db userId).
#[local] Abbreviation basePhaseEvents := (basePhaseEvents EXPORT_TABLES db userId).
#[local] Abbreviation relationPhaseEvents := (relationPhaseEvents EXPORT_TABLES db userId).
#[local] Abbreviation relationOutcome := (relationOutcome EXPORT_TABLES db).

(** A fulfilled run went through both phases. *)
Lemma exportWith_fulfilled cfg concurrency sched1 sched2 tr r :
  exportWith cfg concurrency sched1 sched2 = (tr, Fulfilled r) →
  ∃ tr1 tr2,
    tr = EvConsole LogQueryingBase :: tr1
           ++ EvConsole (LogBaseResults (baseResultsOf EXPORT_TABLES db userId cfg))
           :: EvConsole LogQueryingRelation :: tr2
    ∧ tr1 ≡ₚ basePhaseEvents cfg
    ∧ tr2 ≡ₚ relationPhaseEvents cfg
    ∧ r = exported cfg
    ∧ Forall (λ config, is_Some (EXPORT_TABLES !! btTable config)) (baseTables cfg)
    ∧ Forall (λ config, ∃ td, relationOutcome (basePhase cfg) config = inr td)
        (relationTables cfg).
Proof.
  intros Hrun%exportWith_shape.
  inversion Hrun as [| |tr1 tr2 p _ Hc Hperm1 Hreg Hsub2 Hp]; subst.
  destruct Hp as (Hperm2 & -> & HF).
  exists tr1, tr2. repeat split; try done.
  eapply Forall2_Forall_l; [exact HF|].
  apply Forall_true. intros td config Hout. by exists td.
Qed.

(** The events of a fulfilled run. *)
Lemma exportWith_fulfilled_events cfg concurrency sched1 sched2 tr r ev :
  exportWith cfg concurrency sched1 sched2 = (tr, Fulfilled r) →
  ev ∈ tr ↔
  ev = EvConsole LogQueryingBase
  ∨ ev ∈ basePhaseEvents cfg
  ∨ ev = EvConsole (LogBaseResults (baseResultsOf EXPORT_TABLES db userId cfg))
  ∨ ev = EvConsole LogQueryingRelation
  ∨ ev ∈ relationPhaseEvents cfg.
Proof.
  intros (tr1 & tr2 & -> & Hperm1 & Hperm2 & _)%exportWith_fulfilled.
  rewrite elem_of_cons, elem_of_app, !elem_of_cons, Hperm1, Hperm2. tauto.
Qed.

(** What a settled query leaves in a fulfilled run: its console line, and
    the entry of its table.  The rows of a base table lose their [userId];
    the rows of a relation table are stored as they are. *)
Lemma exportWith_query_end cfg concurrency sched1 sched2 tr r name o :
  NoDup (configNames cfg) →
  exportWith cfg concurrency sched1 sched2 = (tr, Fulfilled r) →
  EvQueryEnd name o ∈ tr →
  EvConsole (queryLog name o) ∈ tr
  ∧ (name ∈ btTable <$> baseTables cfg
     ∧ r !! name = Some (match o with inr rows => removeUserId rows | inl _ => [] end)
     ∨ name ∈ rtTable <$> relationTables cfg
       ∧ r !! name = Some (match o with inr rows => rows | inl _ => [] end)).
Proof.
  intros Hnd Hrun Hev.
  pose proof (exportWith_fulfilled_events _ _ _ _ _ _ (EvConsole (queryLog name o)) Hrun)
    as Hlog.
  apply (exportWith_fulfilled_events _ _ _ _ _ _ _ Hrun) in Hev.
  apply exportWith_fulfilled in Hrun as (tr1 & tr2 & _ & _ & _ & -> & _ & _).
  destruct Hev as [?|[Hev|[?|[?|Hev]]]]; try done.
  - apply elem_of_basePhaseEvents in Hev as (config & tableObj & Hin & Hreg & Hev).
    apply elem_of_queryEvents in Hev as [?|[[= -> ->]|?]]; try done.
    split.
    + apply Hlog. right. left. apply elem_of_basePhaseEvents.
      exists config, tableObj. split; [done|]. split; [done|].
      apply elem_of_queryEvents. by right; right.
    + left. split; [apply list_elem_of_fmap; by exists config|].
      by rewrite (exported_lookup_base _ _ _ _ _ _ Hnd Hin Hreg).
  - apply list_elem_of_bind in Hev as (config & Hev & Hin).
    apply elem_of_relationEvents in Hev
      as [[_ ?]|[[Hall (tableObj & Hreg & Harr & Hev)]|(_ & _ & _ & ?)]];
      [done| |done].
    apply elem_of_queryEvents in Hev as [?|[[= -> ->]|?]]; try done.
    split.
    + apply Hlog. do 4 right. apply list_elem_of_bind. exists config.
      split; [|done]. apply elem_of_relationEvents. right. left. split; [done|].
      exists tableObj. split; [done|]. split; [done|].
      apply elem_of_queryEvents. by right; right.
    + right. split; [apply list_elem_of_fmap; by exists config|].
      erewrite exported_lookup_relation; [|done|done|].
      2:{ unfold relationOutcome. by rewrite Hall, Hreg, Harr. }
      done.
Qed.

(** Every configured table has an entry in the object a fulfilled run
    returns. *)
Lemma exportWith_keys cfg concurrency sched1 sched2 tr r name :
  NoDup (configNames cfg) →
  exportWith cfg concurrency sched1 sched2 = (tr, Fulfilled r) →
  name ∈ configNames cfg →
  is_Some (r !! name).
Proof.
  intros Hnd (tr1 & tr2 & _ & _ & _ & -> & Hbase & Hrel)%exportWith_fulfilled Hname.
  unfold configNames in Hname.
  apply elem_of_app in Hname as [Hname|Hname];
    apply list_elem_of_fmap in Hname as (config & -> & Hin).
  - rewrite Forall_forall in Hbase. destruct (Hbase _ Hin) as [tableObj Hreg].
    rewrite (exported_lookup_base _ _ _ _ _ _ Hnd Hin Hreg). by eexists.
  - rewrite Forall_forall in Hrel. destruct (Hrel _ Hin) as [td Hout].
    rewrite (exported_lookup_relation _ _ _ _ _ _ Hnd Hin Hout). by eexists.
Qed.

(** With every configured table registered, a concurrency of at least one
    and schedules that are long enough, [export] is fulfilled. *)
Lemma exportWith_fulfils cfg concurrency sched1 sched2 :
  (∀ name, name ∈ configNames cfg → is_Some (EXPORT_TABLES !! name)) →
  1 ≤ concurrency →
  2 * length (baseTables cfg) ≤ length sched1 →
  2 * length (relationTables cfg) ≤ length sched2 →
  ∃ tr r, exportWith cfg concurrency sched1 sched2 = (tr, Fulfilled r).
Proof.
  intros Hreg Hc Hs1 Hs2.
  destruct (exportWith cfg concurrency sched1 sched2) as [tr p] eqn:Hrun.
  pose proof (exportWith_settles EXPORT_TABLES db userId cfg concurrency sched1 sched2
                tr Hs1 Hs2) as Hset.
  apply exportWith_shape in Hrun as Hshape.
  assert (∀ config, config ∈ baseTables cfg → EXPORT_TABLES !! btTable config ≠ None)
    as Hb.
  { intros config Hin. apply not_eq_None_Some, Hreg. unfold configNames.
    apply elem_of_app. left. apply list_elem_of_fmap. by exists config. }
  assert (∀ config, config ∈ relationTables cfg → EXPORT_TABLES !! rtTable config ≠ None)
    as Hr.
  { intros config Hin. apply not_eq_None_Some, Hreg. unfold configNames.
    apply elem_of_app. right. apply list_elem_of_fmap. by exists config. }
  inversion Hshape as [tr1 e Hsub Hwhy|tr1 Hsub Hlt|tr1 tr2 p' _ _ _ _ _ Hp]; subst.
  - destruct Hwhy as [(? & _)|(config & Hin & Hnone & _)]; [lia|].
    by destruct (Hb _ Hin).
  - by destruct Hset.
  - destruct p as [r|e|].
    + by eexists _, _.
    + destruct Hp as (config & Hin & _ & Hnone & _). by destruct (Hr _ Hin).
    + by destruct Hset.
Qed.

(** An [export] that is rejected was given a concurrency below one, or
    met a configured table that is not registered. *)
Lemma exportWith_rejected cfg concurrency sched1 sched2 tr e :
  exportWith cfg concurrency sched1 sched2 = (tr, Rejected e) →
  concurrency < 1 ∧ e = PMapTypeError
  ∨ ∃ name, name ∈ configNames cfg
            ∧ EXPORT_TABLES !! name = None
            ∧ e = TableNotFound name.
Proof.
  intros Hshape%exportWith_shape.
  inversion Hshape as [tr1 e' Hsub Hwhy| |tr1 tr2 p' _ _ _ _ _ Hp]; subst.
  - destruct Hwhy as [(? & ? & _)|(config & Hin & Hnone & ->)]; [by left|].
    right. exists (btTable config). split; [|done]. unfold configNames.
    apply elem_of_app. left. apply list_elem_of_fmap. by exists config.
  - destruct Hp as (config & Hin & _ & Hnone & ->).
    right. exists (rtTable config). split; [|done]. unfold configNames.
    apply elem_of_app. right. apply list_elem_of_fmap. by exists config.
Qed.

End ExportRuns.

(** ** Queries in the trace *)

Section QueryEvents.

Variable EXPORT_TABLES : gmap string TableObj.
Variable db : string → option SQL → QueryOutcome.
Variable userId : string.

#[local] Abbreviation exportWith := (exportWith EXPORT_TABLES db userId).
#[local] Abbreviation basePhase := (basePhase EXPORT_TABLES db userId).

Lemma NoDup_fmap_eq {C} (f : C → string) (l : list C) x y :
  NoDup (f <$> l) → x ∈ l → y ∈ l → f x = f y → x = y.
Proof.
  induction l as [|z l IH]; intros Hnd Hx Hy Hxy; [by apply elem_of_nil in Hx|].
  rewrite fmap_cons in Hnd. apply NoDup_cons in Hnd as [Hz Hnd].
  apply elem_of_cons in Hx as [->|Hx]; apply elem_of_cons in Hy as [->|Hy].
  - done.
  - destruct Hz. rewrite Hxy. apply list_elem_of_fmap. by exists y.
  - destruct Hz. rewrite <- Hxy. apply list_elem_of_fmap. by exists x.
  - by apply IH.
Qed.

(** The events of a run, whatever its outcome, are events of the two
    phases. *)
Lemma exportWith_events cfg concurrency sched1 sched2 tr p ev :
  exportWith cfg concurrency sched1 sched2 = (tr, p) →
  ev ∈ tr →
  ev = EvConsole LogQueryingBase
  ∨ ev ∈ basePhaseEvents EXPORT_TABLES db userId cfg
  ∨ Forall (λ config, is_Some (EXPORT_TABLES !! btTable config)) (baseTables cfg)
    ∧ (ev = EvConsole (LogBaseResults (baseResultsOf EXPORT_TABLES db userId cfg))
       ∨ ev = EvConsole LogQueryingRelation
       ∨ ev ∈ relationPhaseEvents EXPORT_TABLES db userId cfg).
Proof.
  intros Hshape%exportWith_shape.
  inversion Hshape as [tr1 e Hsub _|tr1 Hsub _|tr1 tr2 p' _ _ Hperm Hreg Hsub _]; subst.
  - intros [->|Hev]%elem_of_cons; [by left|].
    right. left. by eapply elem_of_submseteq.
  - intros [->|Hev]%elem_of_cons; [by left|].
    right. left. by eapply elem_of_submseteq.
  - rewrite elem_of_cons, elem_of_app, !elem_of_cons, Hperm.
    intros [?|[?|[?|[?|Hev]]]].
    + by left.
    + by right; left.
    + right. right. split; [done|]. by left.
    + right. right. split; [done|]. by right; left.
    + right. right. split; [done|]. right. right. by eapply elem_of_submseteq.
Qed.

(** Every query a run begins is the query of a registered base table
    with the owner condition, or the query of a registered relation table
    all of whose sources have data, with the condition built from the
    base phase. *)
Lemma exportWith_query_begin cfg concurrency sched1 sched2 tr p name w :
  exportWith cfg concurrency sched1 sched2 = (tr, p) →
  EvQueryBegin name w ∈ tr →
  (∃ config tableObj,
     config ∈ baseTables cfg ∧ name = btTable config
     ∧ EXPORT_TABLES !! name = Some tableObj
     ∧ w = baseWhere userId tableObj config)
  ∨ (∃ config tableObj,
       config ∈ relationTables cfg ∧ name = rtTable config
       ∧ EXPORT_TABLES !! name = Some tableObj
       ∧ allSourcesHaveData (basePhase cfg) config = true
       ∧ w = relationWhere tableObj (basePhase cfg) config).
Proof.
  intros Hrun Hev.
  apply (exportWith_events _ _ _ _ _ _ _ Hrun) in Hev
    as [?|[Hev|[_ [?|[?|Hev]]]]]; try done.
  - left. apply elem_of_basePhaseEvents in Hev as (config & tableObj & Hin & Hreg & Hev).
    apply elem_of_queryEvents in Hev as [[= -> ->]|[?|?]]; try done.
    by exists config, tableObj.
  - right. apply list_elem_of_bind in Hev as (config & Hev & Hin).
    apply elem_of_relationEvents in Hev
      as [[_ ?]|[[Hall (tableObj & Hreg & _ & Hev)]|(_ & _ & _ & ?)]];
      [done| |done].
    apply elem_of_queryEvents in Hev as [[= -> ->]|[?|?]]; try done.
    by exists config, tableObj.
Qed.

(** In a fulfilled run, the sources of a relation table that are base
    tables are arrays of the result object. *)
Lemma exportWith_sources_are_arrays cfg concurrency sched1 sched2 tr r config :
  exportWith cfg concurrency sched1 sched2 = (tr, Fulfilled r) →
  (∀ relation, relation ∈ relations config →
               sourceTable relation ∈ btTable <$> baseTables cfg) →
  sourcesAreArrays (basePhase cfg) config = true.
Proof.
  intros Hrun Hsources.
  apply exportWith_fulfilled in Hrun as (tr1 & tr2 & _ & _ & _ & _ & Hreg & _).
  by apply sourcesAreArrays_basePhase.
Qed.

(** In a fulfilled run, a registered relation table all of whose sources
    are base tables and have data is queried. *)
Lemma exportWith_relation_queried cfg concurrency sched1 sched2 tr r config tableObj :
  exportWith cfg concurrency sched1 sched2 = (tr, Fulfilled r) →
  config ∈ relationTables cfg →
  (∀ relation, relation ∈ relations config →
               sourceTable relation ∈ btTable <$> baseTables cfg) →
  EXPORT_TABLES !! rtTable config = Some tableObj →
  allSourcesHaveData (basePhase cfg) config = true →
  EvQueryBegin (rtTable config) (relationWhere tableObj (basePhase cfg) config) ∈ tr.
Proof.
  intros Hrun Hin Hsources Hreg Hall.
  pose proof (exportWith_sources_are_arrays _ _ _ _ _ _ _ Hrun Hsources) as Harr.
  apply (exportWith_fulfilled_events _ _ _ _ _ _ _ _ _ _ Hrun). do 4 right.
  apply list_elem_of_bind. exists config. split; [|done].
  apply elem_of_relationEvents. right. left. split; [done|]. exists tableObj.
  split; [done|]. split; [done|]. apply elem_of_queryEvents. by left.
Qed.

(** *** What a condition means *)

Lemma holdsWhere_combine env conditions :
  holdsWhere env (combine conditions) = forallb (holds env) conditions.
Proof.
  destruct conditions as [|c [|c' conditions]]; simpl; [done| |done].
  by rewrite andb_true_r.
Qed.

Lemma holdsWhere_relationWhere env tableObj existingData config :
  holdsWhere env (relationWhere tableObj existingData config) = true ↔
  ∀ relation, relation ∈ relations config →
    ∃ col, tableObj !! propKey (field relation) = Some col
      ∧ ∃ v, v ∈ sourceIds (default [] (existingData !! sourceTable relation)) relation
             ∧ sqlEqb (env col) v = true.
Proof.
  unfold relationWhere. rewrite holdsWhere_combine, forallb_forall.
  setoid_rewrite <- list_elem_of_In. split.
  - intros Hall relation Hin.
    assert (relationCondition tableObj existingData relation
            ∈ relationCondition tableObj existingData <$> relations config) as Hc.
    { apply list_elem_of_fmap. by exists relation. }
    apply Hall in Hc. unfold relationCondition, inArray in Hc. simpl in Hc.
    destruct (tableObj !! propKey (field relation)) as [col|]; [|done].
    exists col. split; [done|].
    apply existsb_exists in Hc as (v & Hv & Heq).
    exists v. split; [by apply list_elem_of_In|done].
  - intros Hall c (relation & -> & Hin)%list_elem_of_fmap.
    destruct (Hall _ Hin) as (col & Hcol & v & Hv & Heq).
    unfold relationCondition, inArray. simpl. rewrite Hcol.
    apply existsb_exists. exists v. split; [by apply list_elem_of_In|done].
Qed.

(** [item[key]] for a key that no object inherits. *)
Lemma getProp_plain (item : Row) key :
  inherited key = false → getProp item key = default VUndefined (item !! key).
Proof. unfold getProp. intros ->. by destruct (item !! key). Qed.

(** The conditions of [queryTable], written out: one [inArray] for every
    relation, in the order of the relations, over the column named by
    [field] and the values of [sourceField || 'id'] in the rows of the
    source; one condition is the filter as it is, several are joined by
    [and]. *)
Lemma relation_conditions_written_out
    (tableObj : TableObj) (existingData : ExportResult) rels :
  (∀ relation, relation ∈ rels → is_Some (existingData !! sourceTable relation)) →
  (∀ relation, relation ∈ rels →
     default [] (existingData !! sourceTable relation) ≠ []) →
  (∀ relation, relation ∈ rels →
     inherited (orDefault (sourceField relation) "id") = false) →
  ∃ conditions,
    Forall2
      (λ relation condition,
         ∃ rows,
           existingData !! sourceTable relation = Some rows
           ∧ rows ≠ []
           ∧ condition
             = SqlInArray
                 (tableObj !! match field relation with
                              | Some name => name
                              | None => "undefined"
                              end)
                 (map (λ item : Row,
                         default VUndefined
                           (item !! match sourceField relation with
                                    | Some name =>
                                        if String.eqb name "" then "id" else name
                                    | None => "id"
                                    end))
                    rows))
      rels conditions
    ∧ combine
        ((λ relation,
            inArray (tableObj !! propKey (field relation))
              (map (λ item, getProp item (orDefault (sourceField relation) "id"))
                 (default [] (existingData !! sourceTable relation))))
           <$> rels)
      = match conditions with
        | [] => None
        | [condition] => Some condition
        | _ => Some (SqlAnd conditions)
        end.
Proof.
  intros Hown Hdata Hplain.
  exists ((λ relation,
             inArray (tableObj !! propKey (field relation))
               (map (λ item, getProp item (orDefault (sourceField relation) "id"))
                  (default [] (existingData !! sourceTable relation))))
            <$> rels).
  split.
  - apply Forall2_fmap_r, Forall_Forall2_diag, Forall_forall.
    intros relation Hrel.
    destruct (Hown _ Hrel) as [rows Hrows].
    pose proof (Hdata _ Hrel) as Hne. rewrite Hrows in Hne. simpl in Hne.
    exists rows. split; [done|]. split; [done|].
    rewrite Hrows. simpl. unfold inArray, propKey.
    erewrite map_ext; [by destruct (field relation)|].
    intros item. rewrite (getProp_plain _ _ (Hplain _ Hrel)). unfold orDefault.
    by destruct (sourceField relation).
  - unfold combine.
    by destruct (_ <$> rels) as [|c1 [|c2 l]].
Qed.

End QueryEvents.

(** ** The configuration *)

Lemma DATA_EXPORT_CONFIG_names : NoDup (configNames DATA_EXPORT_CONFIG).
Proof. apply (bool_decide_unpack _). by vm_compute. Qed.

Lemma DATA_EXPORT_CONFIG_base_length : length (baseTables DATA_EXPORT_CONFIG) = 17.
Proof. reflexivity. Qed.

Lemma DATA_EXPORT_CONFIG_relation_length :
  length (relationTables DATA_EXPORT_CONFIG) = 11.
Proof. reflexivity. Qed.

(** Every source a relation table of the configuration declares is a base
    table, and no relation reads the owner field of its source. *)
Lemma DATA_EXPORT_CONFIG_sources config relation :
  config ∈ relationTables DATA_EXPORT_CONFIG →
  relation ∈ relations config →
  sourceTable relation ∈ btTable <$> baseTables DATA_EXPORT_CONFIG
  ∧ orDefault (sourceField relation) "id" ≠ "userId".
Proof.
  intros Hin Hrel.
  assert (Forall (λ config,
            Forall (λ relation,
                      sourceTable relation ∈ btTable <$> baseTables DATA_EXPORT_CONFIG
                      ∧ orDefault (sourceField relation) "id" ≠ "userId")
              (relations config))
            (relationTables DATA_EXPORT_CONFIG)) as Hall.
  { apply (bool_decide_unpack _). by vm_compute. }
  rewrite Forall_forall in Hall. specialize (Hall config Hin).
  rewrite Forall_forall in Hall. by apply Hall.
Qed.

(** No relation of the configuration reads a field that a row could
    inherit. *)
Lemma DATA_EXPORT_CONFIG_source_fields config relation :
  config ∈ relationTables DATA_EXPORT_CONFIG →
  relation ∈ relations config →
  inherited (orDefault (sourceField relation) "id") = false.
Proof.
  intros Hin Hrel.
  assert (Forall (λ config,
            Forall (λ relation,
                      inherited (orDefault (sourceField relation) "id") = false)
              (relations config))
            (relationTables DATA_EXPORT_CONFIG)) as Hall.
  { apply (bool_decide_unpack _). by vm_compute. }
  rewrite Forall_forall in Hall. specialize (Hall config Hin).
  rewrite Forall_forall in Hall. by apply Hall.
Qed.

Lemma DATA_EXPORT_CONFIG_base_sources : sourcesAreBaseTables DATA_EXPORT_CONFIG.
Proof.
  intros config relation Hin Hrel.
  by destruct (DATA_EXPORT_CONFIG_sources config relation Hin Hrel).
Qed.

Lemma demoTables_complete name :
  name ∈ configNames DATA_EXPORT_CONFIG → is_Some (demoTables !! name).
Proof.
  revert name. apply Forall_forall. apply (bool_decide_unpack _). by vm_compute.
Qed.

(** ** Runs over a configuration with distinct table names *)

Section DistinctNames.

Variable EXPORT_TABLES : gmap string TableObj.
Variable db : string → option SQL → QueryOutcome.
Variable userId : string.

#[local] Abbreviation exportWith := (exportWith EXPORT_TABLES db userId).

Lemma base_not_relation cfg name :
  NoDup (configNames cfg) →
  name ∈ btTable <$> baseTables cfg →
  name ∈ rtTable <$> relationTables cfg →
  False.
Proof.
  intros (_ & _ & Hdisj)%NoDup_configNames Hb Hr. by apply (Hdisj name).
Qed.

(** Over a configuration with distinct table names: in the object a fulfilled export returns, the rows a
    base-table query returned are stored without the field named
    [userId], whatever owner field the table is configured with, and the
    rows a relation-table query returned are stored as they are. *)
Lemma exportWith_stores_rows cfg concurrency sched1 sched2 tr r :
  NoDup (configNames cfg) →
  exportWith cfg concurrency sched1 sched2 = (tr, Fulfilled r) →
  (∀ name rows,
     name ∈ btTable <$> baseTables cfg →
     EvQueryEnd name (inr rows) ∈ tr →
     r !! name = Some (removeUserId rows)
     ∧ ∀ item, item ∈ removeUserId rows → item !! "userId" = None)
  ∧ (∀ name rows,
       name ∈ rtTable <$> relationTables cfg →
       EvQueryEnd name (inr rows) ∈ tr →
       r !! name = Some rows).
Proof.
  intros Hnames Hrun. split.
  - intros name rows Hname Hev.
    destruct (exportWith_query_end _ _ _ _ _ _ _ _ _ _ _
                Hnames Hrun Hev) as [_ [[_ Hr]|[Hrel _]]].
    + split; [done|]. intros item (item' & -> & _)%list_elem_of_fmap.
      apply lookup_delete_eq.
    + destruct (base_not_relation _ _ Hnames Hname Hrel).
  - intros name rows Hname Hev.
    destruct (exportWith_query_end _ _ _ _ _ _ _ _ _ _ _
                Hnames Hrun Hev) as [_ [[Hbase _]|[_ Hr]]].
    + destruct (base_not_relation _ _ Hnames Hbase Hname).
    + done.
Qed.

(** A relation table with a source without data has the empty entry. *)
Lemma exported_lookup_skipped cfg config :
  NoDup (configNames cfg) →
  config ∈ relationTables cfg →
  allSourcesHaveData (basePhase EXPORT_TABLES db userId cfg) config = false →
  exported EXPORT_TABLES db userId cfg !! rtTable config = Some [].
Proof.
  intros Hnd Hin Hall.
  apply (exported_lookup_relation _ _ _ _ _
           {| data := []; table := rtTable config |} Hnd Hin).
  unfold relationOutcome. by rewrite Hall.
Qed.

(** A rejected base phase leaves no trace of the relation phase. *)
Lemma base_events_not_relation_log cfg tr1 :
  tr1 ⊆+ basePhaseEvents EXPORT_TABLES db userId cfg →
  EvConsole LogQueryingRelation ∉ tr1.
Proof.
  intros Hsub Hev. apply (elem_of_submseteq _ _ _ Hev) in Hsub.
  apply elem_of_basePhaseEvents in Hsub as (c & tableObj & _ & _ & Hq).
  apply elem_of_queryEvents in Hq as [?|[?|Hq]]; try done.
  unfold queryLog in Hq. by destruct (db _ _).
Qed.

(** Over a configuration with distinct table names: the error [Table .. not found] is thrown before the
    [try] of [queryBaseTables] and of [queryTable], so nothing catches it.
    When a configured table is absent from the schema registry, the export
    as a whole is rejected with such an error for a configured table that
    is not registered, and returns no result; for a base table this
    happens in the base phase, and the relation phase never starts.  The
    one exception is a relation table with a source without data: it is
    skipped before the registry is looked at, and gets an empty entry. *)
Lemma exportWith_missing_table cfg concurrency sched1 sched2 name :
  NoDup (configNames cfg) →
  name ∈ configNames cfg →
  EXPORT_TABLES !! name = None →
  1 ≤ concurrency →
  2 * length (baseTables cfg) ≤ length sched1 →
  2 * length (relationTables cfg) ≤ length sched2 →
  ∃ tr p,
    exportWith cfg concurrency sched1 sched2 = (tr, p)
    ∧ ((∃ missing,
          p = Rejected (TableNotFound missing)
          ∧ missing ∈ configNames cfg
          ∧ EXPORT_TABLES !! missing = None)
       ∨ (∃ r,
            p = Fulfilled r
            ∧ name ∈ rtTable <$> relationTables cfg
            ∧ EvConsole (LogSkipTable name) ∈ tr
            ∧ r !! name = Some []))
    ∧ (name ∈ btTable <$> baseTables cfg →
       (∀ r, p ≠ Fulfilled r) ∧ EvConsole LogQueryingRelation ∉ tr).
Proof.
  intros Hnames Hname Hnone Hc Hs1 Hs2.
  destruct (exportWith cfg concurrency sched1 sched2) as [tr p] eqn:Hrun.
 
  exists tr, p. split; [done|].
  pose proof (exportWith_settles EXPORT_TABLES db userId cfg
                concurrency sched1 sched2 tr Hs1 Hs2) as Hset.
  apply exportWith_shape in Hrun as Hshape.
  inversion Hshape as [tr1 e Hsub Hwhy|tr1 Hsub Hlt|tr1 tr2 p' _ _ _ Hreg _ Hp]; subst.
  - split.
    + left. apply exportWith_rejected in Hrun as [[? _]|(missing & ? & ? & ->)]; [lia|].
      by exists missing.
    + intros _. split; [done|].
      intros [?|Hev]%elem_of_cons; [done|].
      by eapply base_events_not_relation_log.
  - by destruct Hset.
  - assert (name ∈ btTable <$> baseTables cfg → False) as Hnotbase.
    { intros (config & -> & Hin)%list_elem_of_fmap.
      rewrite Forall_forall in Hreg. destruct (Hreg _ Hin) as [tableObj Hsome].
      congruence. }
    split; [|by intros ?%Hnotbase].
    destruct p as [r|e|].
    + right. exists r. split; [done|].
      unfold configNames in Hname.
      apply elem_of_app in Hname as [?%Hnotbase|Hrel]; [done|].
      split; [done|].
      apply list_elem_of_fmap in Hrel as (config & -> & Hin).
      pose proof Hrun as Hful.
      apply exportWith_fulfilled in Hful as (tr1' & tr2' & _ & _ & _ & -> & _ & HF).
      rewrite Forall_forall in HF. destruct (HF _ Hin) as [td Hout].
      assert (allSourcesHaveData
                (basePhase EXPORT_TABLES db userId cfg) config = false)
        as Hall.
      { unfold relationOutcome in Hout.
        destruct (allSourcesHaveData _ config); [|done]. by rewrite Hnone in Hout. }
      split.
      * apply (exportWith_fulfilled_events _ _ _ _ _ _ _ _ _ _ Hrun). do 4 right.
        apply list_elem_of_bind. exists config. split; [|done].
        apply elem_of_relationEvents. by left.
      * rewrite (exported_lookup_relation _ _ _ _ _ _
                   Hnames Hin Hout).
        unfold relationOutcome in Hout. rewrite Hall in Hout. by simplify_eq.
    + left. apply exportWith_rejected in Hrun as [[? _]|(missing & ? & ? & ->)]; [lia|].
      by exists missing.
    + by destruct Hset.
Qed.

(** The result object at the start of the relation phase is the one the
    resolved base phase fills. *)
Lemma base_run_basePhase cfg concurrency sched1 tr1 baseResults :
  pMap db (baseMapper EXPORT_TABLES userId) (baseTables cfg) concurrency sched1
    = (tr1, Fulfilled baseResults) →
  storeResults ∅ baseResults = basePhase EXPORT_TABLES db userId cfg.
Proof. by intros [-> _]%base_run_results. Qed.

Lemma allSourcesHaveData_false result config relation :
  relation ∈ relations config →
  result !! sourceTable relation = Some [] →
  allSourcesHaveData result config = false.
Proof.
  intros Hin Hempty. unfold allSourcesHaveData.
  destruct (forallb _ _) eqn:Hall; [|done].
  rewrite forallb_forall in Hall. setoid_rewrite <- list_elem_of_In in Hall.
  specialize (Hall _ Hin). by rewrite (sourceHasData_own _ _ _ Hempty) in Hall.
Qed.

Lemma allSourcesHaveData_true result config :
  (∀ relation, relation ∈ relations config →
               ∃ rows, result !! sourceTable relation = Some rows ∧ rows ≠ []) →
  allSourcesHaveData result config = true.
Proof.
  intros Hall. unfold allSourcesHaveData. apply forallb_forall.
  intros relation Hin%list_elem_of_In.
  destruct (Hall _ Hin) as (rows & Hown & Hrows).
  rewrite (sourceHasData_own _ _ _ Hown). apply bool_decide_eq_true_2.
  destruct rows; [done|simpl; lia].
Qed.

(** What [|| []] gives for a source that is an array of the result. *)
Lemma default_own (result : ExportResult) name :
  is_Some (result !! name) →
  result !! name = Some (default [] (result !! name)).
Proof. by intros [rows ->]. Qed.

(** Over a configuration with distinct table names: a relation table one of whose declared sources has an empty
    exported set when the relation phase starts gets the empty set as its
    entry, and no query is issued for it: the run only logs that the table
    is skipped. *)
Lemma exportWith_skips_relation
    cfg concurrency sched1 sched2 tr r tr1 baseResults config relation :
  NoDup (configNames cfg) →
  exportWith cfg concurrency sched1 sched2 = (tr, Fulfilled r) →
  pMap db (baseMapper EXPORT_TABLES userId) (baseTables cfg)
    concurrency sched1 = (tr1, Fulfilled baseResults) →
  config ∈ relationTables cfg →
  relation ∈ relations config →
  sourceTable relation ∈ btTable <$> baseTables cfg →
  default [] (storeResults ∅ baseResults !! sourceTable relation) = [] →
  r !! rtTable config = Some []
  ∧ (∀ w, EvQueryBegin (rtTable config) w ∉ tr)
  ∧ EvConsole (LogSkipTable (rtTable config)) ∈ tr.
Proof.
  intros Hnames Hrun Hbase Hin Hrel Hsource Hempty.
  rewrite (base_run_basePhase _ _ _ _ _ Hbase) in Hempty.
  assert (allSourcesHaveData (basePhase EXPORT_TABLES db userId cfg) config = false)
    as Hall.
  { apply (allSourcesHaveData_false _ _ _ Hrel). rewrite <- Hempty.
    apply default_own.
    destruct (exportWith_fulfilled _ _ _ _ _ _ _ _ _ Hrun)
      as (? & ? & _ & _ & _ & _ & Hreg & _).
    by apply basePhase_is_Some. }
  destruct (NoDup_configNames _ Hnames) as (_ & Hnd & _).
  split; [|split].
  - pose proof Hrun as Hful.
    apply exportWith_fulfilled in Hful as (tr1' & tr2' & _ & _ & _ & -> & _ & _).
    by apply exported_lookup_skipped; [apply Hnames| |].
  - intros w Hev.
    apply (exportWith_query_begin _ _ _ _ _ _ _ _ _ _ _ Hrun) in Hev
      as [(config' & tableObj & Hin' & Hname & _)
         |(config' & tableObj & Hin' & Hname & _ & Hall' & _)].
    + eapply (base_not_relation _ _ Hnames); apply list_elem_of_fmap.
      * exists config'. by rewrite <- Hname.
      * by exists config.
    + assert (config = config') as <- by by eapply NoDup_fmap_eq.
      congruence.
  - apply (exportWith_fulfilled_events _ _ _ _ _ _ _ _ _ _ Hrun). do 4 right.
    apply list_elem_of_bind. exists config. split; [|done].
    apply elem_of_relationEvents. by left.
Qed.

(** Over a configuration with distinct table names: a relation table all of whose declared sources have data is
    queried once, and with this filter: for every declared relation, the
    values of its [sourceField] (of [id] when it has none) in the rows the
    base phase exported for its [sourceTable], and the requirement that
    the column of its [field] is one of them.  One condition is passed as
    it is, several are joined by [and]: a row passes the filter exactly
    when it passes the membership test of every relation. *)
Lemma exportWith_relation_filter
    cfg concurrency sched1 sched2 tr r tr1 baseResults config :
  NoDup (configNames cfg) →
  exportWith cfg concurrency sched1 sched2 = (tr, Fulfilled r) →
  pMap db (baseMapper EXPORT_TABLES userId) (baseTables cfg)
    concurrency sched1 = (tr1, Fulfilled baseResults) →
  config ∈ relationTables cfg →
  (∀ relation, relation ∈ relations config →
     sourceTable relation ∈ btTable <$> baseTables cfg) →
  (∀ relation, relation ∈ relations config →
     default [] (storeResults ∅ baseResults !! sourceTable relation) ≠ []) →
  ∃ tableObj where_,
    EXPORT_TABLES !! rtTable config = Some tableObj
    ∧ where_ =
        combine
          ((λ relation,
              inArray (tableObj !! propKey (field relation))
                (map (λ item, getProp item (orDefault (sourceField relation) "id"))
                   (default [] (storeResults ∅ baseResults !! sourceTable relation))))
             <$> relations config)
    ∧ EvQueryBegin (rtTable config) where_ ∈ tr
    ∧ (∀ w, EvQueryBegin (rtTable config) w ∈ tr → w = where_)
    ∧ (2 ≤ length (relations config) → ∃ conditions, where_ = Some (SqlAnd conditions))
    ∧ ∀ env,
        holdsWhere env where_ = true ↔
        ∀ relation, relation ∈ relations config →
          ∃ col, tableObj !! propKey (field relation) = Some col
            ∧ ∃ v, v ∈ map (λ item, getProp item (orDefault (sourceField relation) "id"))
                         (default [] (storeResults ∅ baseResults !! sourceTable relation))
                   ∧ sqlEqb (env col) v = true.
Proof.
  intros Hnames Hrun Hbase Hin Hsources Hdata.
  rewrite (base_run_basePhase _ _ _ _ _ Hbase) in *.
  pose proof (exportWith_sources_are_arrays _ _ _ _ _ _ _ _ _ _ Hrun Hsources) as Harr.
  assert (allSourcesHaveData (basePhase EXPORT_TABLES db userId cfg) config = true)
    as Hall.
  { apply allSourcesHaveData_true. intros relation Hrel.
    unfold sourcesAreArrays in Harr. rewrite forallb_forall in Harr.
    specialize (Harr relation (proj1 (list_elem_of_In _ _) Hrel)).
    apply bool_decide_eq_true in Harr. apply default_own in Harr.
    eexists. split; [exact Harr|]. by apply Hdata. }
  destruct (NoDup_configNames _ Hnames) as (_ & Hnd & _).
  pose proof Hrun as Hful.
  apply exportWith_fulfilled in Hful as (tr1' & tr2' & _ & _ & _ & _ & _ & HF).
  rewrite Forall_forall in HF. destruct (HF _ Hin) as [td Hout].
  unfold relationOutcome in Hout. rewrite Hall in Hout.
  destruct (EXPORT_TABLES !! rtTable config) as [tableObj|] eqn:Hreg; [|done].
  exists tableObj, (relationWhere tableObj
                      (basePhase EXPORT_TABLES db userId cfg) config).
  split; [done|]. split; [done|]. split; [|split; [|split]].
  - by eapply exportWith_relation_queried.
  - intros w Hev.
    apply (exportWith_query_begin _ _ _ _ _ _ _ _ _ _ _ Hrun) in Hev
      as [(config' & tableObj' & Hin' & Hname & _)
         |(config' & tableObj' & Hin' & Hname & Hreg' & _ & ->)].
    + exfalso. eapply (base_not_relation _ _ Hnames); apply list_elem_of_fmap.
      * exists config'. by rewrite <- Hname.
      * by exists config.
    + assert (config = config') as <- by by eapply NoDup_fmap_eq.
      congruence.
  - intros Hlen. unfold relationWhere.
    destruct (relations config) as [|r1 [|r2 rels]]; simpl in Hlen; try lia.
    by eexists.
  - intros env. apply holdsWhere_relationWhere.
Qed.

(** A relation table that fails the check has a source that does. *)
Lemma allSourcesHaveData_false_inv result config :
  allSourcesHaveData result config = false →
  ∃ relation, relation ∈ relations config ∧ sourceHasData result relation = false.
Proof.
  unfold allSourcesHaveData.
  induction (relations config) as [|relation rels IH]; simpl; [done|].
  destruct (sourceHasData result relation) eqn:Hdata; simpl.
  - intros (relation' & Hin & Hfalse)%IH. exists relation'.
    split; [by apply list_elem_of_further|done].
  - intros _. exists relation. split; [apply list_elem_of_here|done].
Qed.

(** A table that is not registered is never queried. *)
Lemma exportWith_unregistered_not_queried cfg concurrency sched1 sched2 tr p name w :
  exportWith cfg concurrency sched1 sched2 = (tr, p) →
  EXPORT_TABLES !! name = None →
  EvQueryBegin name w ∉ tr.
Proof.
  intros Hrun Hnone Hev.
  apply (exportWith_query_begin _ _ _ _ _ _ _ _ _ _ _ Hrun) in Hev
    as [(config & tableObj & _ & _ & Hsome & _)
       |(config & tableObj & _ & _ & Hsome & _)]; congruence.
Qed.

(** A relation table that is not registered and yet has an entry in a
    fulfilled export has a source whose entry is empty. *)
Lemma exportWith_unregistered_skipped cfg concurrency sched1 sched2 tr r config :
  NoDup (configNames cfg) →
  sourcesAreBaseTables cfg →
  exportWith cfg concurrency sched1 sched2 = (tr, Fulfilled r) →
  config ∈ relationTables cfg →
  EXPORT_TABLES !! rtTable config = None →
  ∃ relation, relation ∈ relations config ∧ r !! sourceTable relation = Some [].
Proof.
  intros Hnames Hsources Hrun Hin Hnone.
  destruct (NoDup_configNames _ Hnames) as (_ & _ & Hdisj).
  apply exportWith_fulfilled in Hrun as (tr1 & tr2 & _ & _ & _ & -> & Hreg & HF).
  rewrite Forall_forall in HF. destruct (HF _ Hin) as [td Hout].
  unfold relationOutcome in Hout.
  destruct (allSourcesHaveData _ config) eqn:Hall; [by rewrite Hnone in Hout|].
  apply allSourcesHaveData_false_inv in Hall as (relation & Hrel & Hdata).
  exists relation. split; [done|].
  pose proof (Hsources config relation Hin Hrel) as Hsource.
  destruct (basePhase_is_Some EXPORT_TABLES db userId cfg _ Hreg Hsource)
    as [rows Hown].
  rewrite (sourceHasData_own _ _ _ Hown) in Hdata.
  apply bool_decide_eq_false in Hdata.
  assert (rows = []) as -> by (destruct rows; [done|simpl in Hdata; lia]).
  unfold exported. rewrite storeResults_lookup_notin; [done|].
  intros Hrt. apply (Hdisj _ Hsource).
  eapply elem_of_sublist; [done|apply relationResultsOf_names].
Qed.

(** A relation table that is not registered and all of whose sources have
    data makes the export reject: nothing catches the error that
    [queryTable] throws before its [try]. *)
Lemma exportWith_missing_relation_table
    cfg concurrency sched1 sched2 tr p tr1 baseResults config :
  sourcesAreBaseTables cfg →
  exportWith cfg concurrency sched1 sched2 = (tr, p) →
  1 ≤ concurrency →
  2 * length (baseTables cfg) ≤ length sched1 →
  2 * length (relationTables cfg) ≤ length sched2 →
  config ∈ relationTables cfg →
  EXPORT_TABLES !! rtTable config = None →
  pMap db (baseMapper EXPORT_TABLES userId) (baseTables cfg)
    concurrency sched1 = (tr1, Fulfilled baseResults) →
  (∀ relation, relation ∈ relations config →
     default [] (storeResults ∅ baseResults !! sourceTable relation) ≠ []) →
  ∃ missing,
    p = Rejected (TableNotFound missing)
    ∧ missing ∈ rtTable <$> relationTables cfg
    ∧ EXPORT_TABLES !! missing = None.
Proof.
  intros Hsources Hrun Hc Hs1 Hs2 Hin Hnone Hbase Hdata.
  rewrite (base_run_basePhase _ _ _ _ _ Hbase) in Hdata.
  destruct (base_run_results _ _ _ _ _ _ _ _ Hbase) as [_ Hreg].
  assert (allSourcesHaveData (basePhase EXPORT_TABLES db userId cfg) config = true)
    as Hall.
  { apply allSourcesHaveData_true. intros relation Hrel.
    pose proof (basePhase_is_Some EXPORT_TABLES db userId cfg _ Hreg
                  (Hsources config relation Hin Hrel)) as Hown.
    apply default_own in Hown. eexists. split; [exact Hown|]. by apply Hdata. }
  assert (relationOutcome EXPORT_TABLES db (basePhase EXPORT_TABLES db userId cfg) config
          = inl (TableNotFound (rtTable config))) as Hout.
  { unfold relationOutcome. by rewrite Hall, Hnone. }
  pose proof (exportWith_settles EXPORT_TABLES db userId cfg
                concurrency sched1 sched2 tr Hs1 Hs2) as Hset.
  apply exportWith_shape in Hrun as Hshape.
  inversion Hshape as [tr1' e Hsub Hwhy|tr1' Hsub Hlt|tr1' tr2 p' Hrun1 _ _ _ _ Hp]; subst.
  - exfalso. destruct Hwhy as [(? & _)|(config' & Hin' & Hnone' & _)]; [lia|].
    rewrite Forall_forall in Hreg. destruct (Hreg _ Hin') as [? ?]. congruence.
  - by destruct Hset.
  - destruct p as [r|e|].
    + exfalso.
      destruct (exportWith_fulfilled _ _ _ _ _ _ _ _ _ Hrun)
        as (? & ? & _ & _ & _ & _ & _ & HF).
      rewrite Forall_forall in HF. destruct (HF _ Hin) as [td Htd]. congruence.
    + destruct Hp as (config' & Hin' & _ & Hnone' & ->).
      exists (rtTable config'). split; [done|]. split; [|done].
      apply list_elem_of_fmap. by exists config'.
    + by destruct Hset.
Qed.

(** Over a configuration with distinct table names: the object a fulfilled export returns has an entry for every
    configured table, base or relation.  The entry is the empty sequence
    when the query of the table returned no row, when it failed, and when
    the table was skipped. *)
Lemma exportWith_entries cfg concurrency sched1 sched2 tr r :
  NoDup (configNames cfg) →
  exportWith cfg concurrency sched1 sched2 = (tr, Fulfilled r) →
  (∀ name, name ∈ configNames cfg → ∃ rows, r !! name = Some rows)
  ∧ (∀ name, EvQueryEnd name (inr []) ∈ tr → r !! name = Some [])
  ∧ (∀ name e, EvQueryEnd name (inl e) ∈ tr → r !! name = Some [])
  ∧ (∀ name, EvConsole (LogSkipTable name) ∈ tr → r !! name = Some []).
Proof.
  intros Hnames Hrun.
  split; [|split; [|split]].
  - intros name Hname.
    by destruct (exportWith_keys _ _ _ _ _ _ _ _ _ _
                   Hnames Hrun Hname) as [rows ?]; exists rows.
  - intros name Hev.
    by destruct (exportWith_query_end _ _ _ _ _ _ _ _ _ _ _
                   Hnames Hrun Hev) as [_ [[_ ?]|[_ ?]]].
  - intros name e Hev.
    by destruct (exportWith_query_end _ _ _ _ _ _ _ _ _ _ _
                   Hnames Hrun Hev) as [_ [[_ ?]|[_ ?]]].
  - intros name Hev.
    apply (exportWith_fulfilled_events _ _ _ _ _ _ _ _ _ _ Hrun) in Hev
      as [?|[Hev|[?|[?|Hev]]]]; try done.
    + apply elem_of_basePhaseEvents in Hev as (c & tableObj & _ & _ & Hq).
      apply elem_of_queryEvents in Hq as [?|[?|Hq]]; try done.
      unfold queryLog in Hq. by destruct (db _ _).
    + apply list_elem_of_bind in Hev as (config & Hev & Hin).
      apply elem_of_relationEvents in Hev
        as [[Hall [= ->]]|[[_ (tableObj & _ & _ & Hq)]|(_ & _ & _ & ?)]]; [| |done].
      * apply exportWith_fulfilled in Hrun as (tr1' & tr2' & _ & _ & _ & -> & _ & _).
        by apply exported_lookup_skipped; [apply Hnames| |].
      * apply elem_of_queryEvents in Hq as [?|[?|Hq]]; try done.
        unfold queryLog in Hq. by destruct (db _ _).
Qed.

(** Over a configuration with distinct table names: a query that raises does not make the export fail.  With every
    configured table registered, the export is fulfilled whichever queries
    raise; every base table is queried; and for every query that raised,
    the error is logged and the entry of the table is the empty set. *)
Lemma exportWith_query_failure cfg concurrency sched1 sched2 :
  NoDup (configNames cfg) →
  (∀ name, name ∈ configNames cfg → is_Some (EXPORT_TABLES !! name)) →
  1 ≤ concurrency →
  2 * length (baseTables cfg) ≤ length sched1 →
  2 * length (relationTables cfg) ≤ length sched2 →
  ∃ tr r,
    exportWith cfg concurrency sched1 sched2 = (tr, Fulfilled r)
    ∧ (∀ config, config ∈ baseTables cfg →
         ∃ where_ o, EvQueryBegin (btTable config) where_ ∈ tr
                     ∧ o = db (btTable config) where_
                     ∧ EvQueryEnd (btTable config) o ∈ tr)
    ∧ (∀ name e,
         EvQueryEnd name (inl e) ∈ tr →
         EvConsole (LogQueryError name e) ∈ tr ∧ r !! name = Some []).
Proof.
  intros Hnames Hreg Hc Hs1 Hs2.
  destruct (exportWith_fulfils EXPORT_TABLES db userId _ _ _ _ Hreg Hc Hs1 Hs2)
    as (tr & r & Hrun).
  exists tr, r. split; [done|]. split.
  - intros config Hin.
    destruct (Hreg (btTable config)) as [tableObj Hsome].
    { unfold configNames. apply elem_of_app. left.
      apply list_elem_of_fmap. by exists config. }
    exists (baseWhere userId tableObj config), (db (btTable config)
                                                  (baseWhere userId tableObj config)).
    split; [|split; [done|]];
      apply (exportWith_fulfilled_events _ _ _ _ _ _ _ _ _ _ Hrun); right; left;
      apply elem_of_basePhaseEvents; exists config, tableObj;
      (split; [done|]); (split; [done|]); apply elem_of_queryEvents.
    + by left.
    + by right; left.
  - intros name e Hev.
    destruct (exportWith_query_end _ _ _ _ _ _ _ _ _ _ _
                Hnames Hrun Hev) as [Hlog [[_ ?]|[_ ?]]]; done.
Qed.

(** Every field but [userId] of a row a base-table query returned is in
    the object a fulfilled export returns, with its value. *)
Lemma exportWith_keeps_other_fields cfg concurrency sched1 sched2 tr r name rows :
  NoDup (configNames cfg) →
  exportWith cfg concurrency sched1 sched2 = (tr, Fulfilled r) →
  name ∈ btTable <$> baseTables cfg →
  EvQueryEnd name (inr rows) ∈ tr →
  ∃ rows',
    r !! name = Some rows'
    ∧ Forall2 (λ item item' : Row,
                 ∀ key, key ≠ "userId" → item' !! key = item !! key)
        rows rows'.
Proof.
  intros Hnames Hrun Hname Hev.
  destruct (exportWith_query_end _ _ _ _ _ _ _ _ _ _ _
              Hnames Hrun Hev) as [_ [[_ Hr]|[Hrel _]]].
  - exists (removeUserId rows). split; [done|].
    unfold removeUserId. change (map ?f ?l) with (f <$> l).
    apply Forall2_fmap_r, Forall_Forall2_diag, Forall_forall.
    intros item _ key Hkey. by apply lookup_delete_ne.
  - destruct (base_not_relation _ _ Hnames Hname Hrel).
Qed.

End DistinctNames.

(** ** Counting query events *)

Section Counting.

Variable EXPORT_TABLES : gmap string TableObj.
Variable db : string → option SQL → QueryOutcome.
Variable userId : string.

Lemma countEvents_app f tr1 tr2 :
  countEvents f (tr1 ++ tr2) = countEvents f tr1 + countEvents f tr2.
Proof. apply sum_list_with_app. Qed.

Lemma countEvents_Permutation f tr1 tr2 :
  tr1 ≡ₚ tr2 → countEvents f tr1 = countEvents f tr2.
Proof. intros Hperm. unfold countEvents. by rewrite Hperm. Qed.

Lemma countEvents_bind {C} f (g : C → list Event) (l : list C) :
  countEvents f (l ≫= g) = sum_list_with (λ c, countEvents f (g c)) l.
Proof.
  induction l as [|c l IH]; [done|].
  rewrite bind_cons, countEvents_app, IH. done.
Qed.

Lemma countEvents_none f tr :
  (∀ ev, ev ∈ tr → f ev = false) → countEvents f tr = 0.
Proof.
  induction tr as [|ev tr IH]; intros Hf; [done|].
  unfold countEvents in *. simpl. rewrite (Hf ev) by (apply elem_of_cons; by left).
  rewrite IH; [done|]. intros ev' Hev'. apply Hf. apply elem_of_cons. by right.
Qed.

Lemma sum_indicator {C} (g : C → string) (l : list C) (x : C) :
  NoDup (g <$> l) → x ∈ l →
  sum_list_with (λ y, if String.eqb (g y) (g x) then 1 else 0) l = 1.
Proof.
  induction l as [|y l IH]; intros Hnd Hx; [by apply elem_of_nil in Hx|].
  rewrite fmap_cons in Hnd. apply NoDup_cons in Hnd as [Hy Hnd]. simpl.
  apply elem_of_cons in Hx as [->|Hx].
  - rewrite String.eqb_refl.
    assert (sum_list_with (λ z, if String.eqb (g z) (g y) then 1 else 0) l = 0) as ->;
      [|done].
    clear IH Hnd. induction l as [|z l IH]; [done|]. simpl.
    rewrite fmap_cons in Hy. apply not_elem_of_cons in Hy as [Hne Hy].
    destruct (String.eqb_spec (g z) (g y)) as [Heq|_]; [by destruct Hne|].
    by rewrite IH.
  - destruct (String.eqb_spec (g y) (g x)) as [Heq|_].
    + destruct Hy. rewrite Heq. apply list_elem_of_fmap. by exists x.
    + by rewrite IH.
Qed.

Lemma sum_list_with_ext_in {C} (f g : C → nat) (l : list C) :
  (∀ x, x ∈ l → f x = g x) → sum_list_with f l = sum_list_with g l.
Proof.
  induction l as [|x l IH]; intros Hfg; [done|]. simpl.
  rewrite (Hfg x) by (apply elem_of_cons; by left).
  rewrite IH; [done|]. intros y Hy. apply Hfg. apply elem_of_cons. by right.
Qed.

Lemma countEvents_queryEvents name name' where_ :
  countEvents (isBeginOf name) (queryEvents db name' where_)
    = (if String.eqb name' name then 1 else 0)
  ∧ countEvents (isEndOf name) (queryEvents db name' where_)
    = (if String.eqb name' name then 1 else 0).
Proof.
  unfold countEvents, queryEvents. simpl.
  destruct (String.eqb name' name); simpl; done.
Qed.

(** With every base table registered, the events of the base phase hold
    one begin and one end of the query of every base table. *)
Lemma countEvents_basePhase cfg config :
  NoDup (btTable <$> baseTables cfg) →
  Forall (λ c, is_Some (EXPORT_TABLES !! btTable c)) (baseTables cfg) →
  config ∈ baseTables cfg →
  countEvents (isBeginOf (btTable config)) (basePhaseEvents EXPORT_TABLES db userId cfg) = 1
  ∧ countEvents (isEndOf (btTable config)) (basePhaseEvents EXPORT_TABLES db userId cfg) = 1.
Proof.
  intros Hnd Hreg Hin. unfold basePhaseEvents. rewrite !countEvents_bind.
  rewrite Forall_forall in Hreg.
  split; rewrite <- (sum_indicator btTable _ _ Hnd Hin);
    apply sum_list_with_ext_in; intros c Hc; unfold baseEvents;
    destruct (Hreg _ Hc) as [tableObj Hsome]; rewrite Hsome;
    apply countEvents_queryEvents.
Qed.

(** No event of the relation phase is a query event of a table that is
    not a relation table. *)
Lemma relationPhaseEvents_names cfg name ev :
  name ∉ rtTable <$> relationTables cfg →
  ev ∈ relationPhaseEvents EXPORT_TABLES db userId cfg →
  isBeginOf name ev = false ∧ isEndOf name ev = false.
Proof.
  intros Hname (config & Hev & Hin)%list_elem_of_bind.
  assert (rtTable config ≠ name) as Hne.
  { intros <-. apply Hname. apply list_elem_of_fmap. by exists config. }
  apply String.eqb_neq in Hne.
  apply elem_of_relationEvents in Hev
    as [[_ ->]|[[_ (tableObj & _ & _ & Hq)]|(_ & _ & _ & ->)]]; [done| |done].
  apply elem_of_queryEvents in Hq as [-> | [-> | ->]]; simpl; by rewrite ?Hne.
Qed.

(** No event of the base phase is a query event of a table that is not a
    base table. *)
Lemma basePhaseEvents_names cfg name ev :
  name ∉ btTable <$> baseTables cfg →
  ev ∈ basePhaseEvents EXPORT_TABLES db userId cfg →
  isBeginOf name ev = false ∧ isEndOf name ev = false.
Proof.
  intros Hname (config & tableObj & Hin & _ & Hq)%elem_of_basePhaseEvents.
  assert (btTable config ≠ name) as Hne.
  { intros <-. apply Hname. apply list_elem_of_fmap. by exists config. }
  apply String.eqb_neq in Hne.
  apply elem_of_queryEvents in Hq as [-> | [-> | ->]]; simpl; by rewrite ?Hne.
Qed.

End Counting.

(** ** The order of the two phases *)

Section PhaseOrder.

Variable EXPORT_TABLES : gmap string TableObj.
Variable db : string → option SQL → QueryOutcome.
Variable userId : string.

#[local] Abbreviation exportWith := (exportWith EXPORT_TABLES db userId).

Lemma relation_not_base cfg config :
  NoDup (configNames cfg) →
  config ∈ relationTables cfg →
  rtTable config ∉ btTable <$> baseTables cfg.
Proof.
  intros Hnames Hin Hbase. eapply (base_not_relation _ _ Hnames); [done|].
  apply list_elem_of_fmap. by exists config.
Qed.

Lemma base_not_relation_config cfg b :
  NoDup (configNames cfg) →
  b ∈ baseTables cfg →
  btTable b ∉ rtTable <$> relationTables cfg.
Proof.
  intros Hnames Hin Hrel. eapply (base_not_relation _ _ Hnames); [|done].
  apply list_elem_of_fmap. by exists b.
Qed.

(** Over a configuration with distinct table names: wherever a relation-table query begins in the trace of a run, the
    first [pMap] call has resolved and its whole trace lies before that
    point; before it, the query of every base table has begun once and
    has ended once, and after it no base-table query begins or ends.  The
    filter of the query is built from the result of the base phase
    alone. *)
Lemma exportWith_phase_order
    cfg concurrency sched1 sched2 tr p i config w :
  NoDup (configNames cfg) →
  exportWith cfg concurrency sched1 sched2 = (tr, p) →
  config ∈ relationTables cfg →
  tr !! i = Some (EvQueryBegin (rtTable config) w) →
  (∃ tr1 baseResults tableObj,
     pMap db (baseMapper EXPORT_TABLES userId) (baseTables cfg)
       concurrency sched1 = (tr1, Fulfilled baseResults)
     ∧ take (S (length tr1)) tr = EvConsole LogQueryingBase :: tr1
     ∧ S (length tr1) < i
     ∧ EXPORT_TABLES !! rtTable config = Some tableObj
     ∧ w = relationWhere tableObj (storeResults ∅ baseResults) config)
  ∧ ∀ b, b ∈ baseTables cfg →
      countEvents (isBeginOf (btTable b)) (take i tr) = 1
      ∧ countEvents (isEndOf (btTable b)) (take i tr) = 1
      ∧ countEvents (isBeginOf (btTable b)) (drop i tr) = 0
      ∧ countEvents (isEndOf (btTable b)) (drop i tr) = 0.
Proof.
  intros Hnames Hrun Hin Hi.
  apply exportWith_shape in Hrun as Hshape.
  destruct (NoDup_configNames _ Hnames) as (Hndb & Hndr & _).
  assert (∀ tr1, tr1 ⊆+ basePhaseEvents EXPORT_TABLES db userId cfg →
                 EvQueryBegin (rtTable config) w ∉ tr1) as Hnotbase.
  { intros tr1 Hsub Hev. apply (elem_of_submseteq _ _ _ Hev) in Hsub.
    apply (basePhaseEvents_names _ _ _ _ (rtTable config)) in Hsub as [Hb _];
      [|by apply relation_not_base].
    simpl in Hb. by rewrite String.eqb_refl in Hb. }
  inversion Hshape as [tr1 e Hsub _|tr1 Hsub _
                      |tr1 tr2 p' Hbase _ Hperm Hreg Hsub _]; subst.
  - apply list_elem_of_lookup_2 in Hi. apply elem_of_cons in Hi as [?|Hi]; [done|].
    by destruct (Hnotbase _ Hsub).
  - apply list_elem_of_lookup_2 in Hi. apply elem_of_cons in Hi as [?|Hi]; [done|].
    by destruct (Hnotbase _ Hsub).
  - set (logged := EvConsole
                     (LogBaseResults (baseResultsOf EXPORT_TABLES db userId
                                        cfg))) in *.
    set (pre := EvConsole LogQueryingBase :: tr1
                  ++ [logged; EvConsole LogQueryingRelation]).
    assert (EvConsole LogQueryingBase :: tr1
              ++ logged :: EvConsole LogQueryingRelation :: tr2 = pre ++ tr2) as Htr.
    { unfold pre. simpl. by rewrite <- (assoc_L (++)). }
    rewrite Htr in *.
    assert (length pre = S (length tr1) + 2) as Hlen.
    { unfold pre. simpl. rewrite length_app. simpl. lia. }
    apply lookup_app_Some in Hi as [Hi|[Hge Hi]].
    { apply list_elem_of_lookup_2 in Hi. unfold pre in Hi.
      apply elem_of_cons in Hi as [?|Hi]; [done|].
      apply elem_of_app in Hi as [Hi|Hi].
      - destruct (Hnotbase tr1); [by rewrite Hperm|done].
      - apply elem_of_cons in Hi as [?|Hi]; [done|].
        apply elem_of_cons in Hi as [?|Hi]; [done|]. by apply elem_of_nil in Hi. }
    split.
    + apply list_elem_of_lookup_2 in Hi.
      apply (elem_of_submseteq _ _ _ Hi) in Hsub.
      apply list_elem_of_bind in Hsub as (config' & Hev & Hin').
      apply elem_of_relationEvents in Hev
        as [[_ ?]|[[_ (tableObj & Hsome & _ & Hq)]|(_ & _ & _ & ?)]]; [done| |done].
      apply elem_of_queryEvents in Hq as [[= Hname ->]|[?|?]]; try done.
      assert (config = config') as <- by by eapply NoDup_fmap_eq.
      exists tr1, (baseResultsOf EXPORT_TABLES db userId cfg), tableObj.
      split; [done|]. split; [|split; [lia|done]].
      unfold pre. simpl. f_equal. rewrite <- (assoc_L (++)). apply take_app_length.
    + intros b Hb.
      destruct (countEvents_basePhase EXPORT_TABLES db userId _ _ Hndb Hreg Hb)
        as [Hbegin Hend].
      assert (∀ ev, ev ∈ tr2 →
                isBeginOf (btTable b) ev = false ∧ isEndOf (btTable b) ev = false)
        as Hrel.
      { intros ev Hev. apply (elem_of_submseteq _ _ _ Hev) in Hsub.
        eapply relationPhaseEvents_names; [|done]. by apply base_not_relation_config. }
      rewrite take_app_ge, drop_app_ge by done.
      rewrite !countEvents_app.
      assert (∀ name, countEvents (isBeginOf name) pre = countEvents (isBeginOf name) tr1
                      ∧ countEvents (isEndOf name) pre = countEvents (isEndOf name) tr1)
        as Hpre.
      { intros name. unfold pre, countEvents. simpl.
        rewrite !sum_list_with_app. simpl. lia. }
      destruct (Hpre (btTable b)) as [-> ->].
      rewrite !(countEvents_Permutation _ _ _ Hperm), Hbegin, Hend.
      repeat split.
      * rewrite (countEvents_none _ (take _ tr2)); [done|].
        intros ev Hev. apply Hrel. eapply elem_of_sublist; [done|apply sublist_take].
      * rewrite (countEvents_none _ (take _ tr2)); [done|].
        intros ev Hev. apply Hrel. eapply elem_of_sublist; [done|apply sublist_take].
      * apply countEvents_none.
        intros ev Hev. apply Hrel. eapply elem_of_sublist; [done|apply sublist_drop].
      * apply countEvents_none.
        intros ev Hev. apply Hrel. eapply elem_of_sublist; [done|apply sublist_drop].
Qed.

End PhaseOrder.

(** ** Sources without an entry *)

Section MissingSource.

Variable EXPORT_TABLES : gmap string TableObj.
Variable db : string → option SQL → QueryOutcome.
Variable userId : string.











End MissingSource.

(** ** The claims about [export] *)

Section ExporterClaims.

Variable EXPORT_TABLES : gmap string TableObj.
Variable db : string → option SQL → QueryOutcome.
Variable userId : string.

#[local] Abbreviation export := (export EXPORT_TABLES db userId).

(** C1 (as amended): in the object a fulfilled export returns, the rows a
    base-table query returned are stored without the field named
    [userId], whatever owner field the table is configured with, and the
    rows a relation-table query returned are stored as they are. *)
Theorem base_rows_lose_userId_relation_rows_kept concurrency sched1 sched2 tr r :
  export concurrency sched1 sched2 = (tr, Fulfilled r) →
  (∀ name rows,
     name ∈ btTable <$> baseTables DATA_EXPORT_CONFIG →
     EvQueryEnd name (inr rows) ∈ tr →
     r !! name = Some (removeUserId rows)
     ∧ ∀ item, item ∈ removeUserId rows → item !! "userId" = None)
  ∧ (∀ name rows,
       name ∈ rtTable <$> relationTables DATA_EXPORT_CONFIG →
       EvQueryEnd name (inr rows) ∈ tr →
       r !! name = Some rows).
Proof.
  intros Hrun.
  exact (exportWith_stores_rows EXPORT_TABLES db userId DATA_EXPORT_CONFIG
           concurrency sched1 sched2 tr r DATA_EXPORT_CONFIG_names Hrun).
Qed.

(** C2 (as amended): the error [Table .. not found] is thrown before the
    [try] of [queryBaseTables] and of [queryTable], so nothing catches it.
    When a configured table is absent from the schema registry, the export
    as a whole is rejected with such an error for a configured table that
    is not registered, and returns no result; for a base table this
    happens in the base phase, and the relation phase never starts.  A
    relation table that is not registered rejects the export as well when
    the base phase exported rows for every source it declares.  The one
    exception is a relation table with a source whose exported set is
    empty: it is skipped before the registry is looked at, and gets an
    empty entry.  In no case is the table queried. *)
Theorem missing_table_rejects_export concurrency sched1 sched2 name :
  name ∈ configNames DATA_EXPORT_CONFIG →
  EXPORT_TABLES !! name = None →
  1 ≤ concurrency →
  34 ≤ length sched1 →
  22 ≤ length sched2 →
  ∃ tr p,
    export concurrency sched1 sched2 = (tr, p)
    ∧ ((∃ missing,
          p = Rejected (TableNotFound missing)
          ∧ missing ∈ configNames DATA_EXPORT_CONFIG
          ∧ EXPORT_TABLES !! missing = None)
       ∨ (∃ r,
            p = Fulfilled r
            ∧ name ∈ rtTable <$> relationTables DATA_EXPORT_CONFIG
            ∧ EvConsole (LogSkipTable name) ∈ tr
            ∧ r !! name = Some []
            ∧ ∃ config relation,
                config ∈ relationTables DATA_EXPORT_CONFIG
                ∧ rtTable config = name
                ∧ relation ∈ relations config
                ∧ r !! sourceTable relation = Some []))
    ∧ (name ∈ btTable <$> baseTables DATA_EXPORT_CONFIG →
       (∀ r, p ≠ Fulfilled r) ∧ EvConsole LogQueryingRelation ∉ tr)
    ∧ (∀ w, EvQueryBegin name w ∉ tr)
    ∧ (∀ config tr1 baseResults,
         config ∈ relationTables DATA_EXPORT_CONFIG →
         rtTable config = name →
         pMap db (baseMapper EXPORT_TABLES userId) (baseTables DATA_EXPORT_CONFIG)
           concurrency sched1 = (tr1, Fulfilled baseResults) →
         (∀ relation, relation ∈ relations config →
            default [] (storeResults ∅ baseResults !! sourceTable relation) ≠ []) →
         ∃ missing,
           p = Rejected (TableNotFound missing)
           ∧ missing ∈ rtTable <$> relationTables DATA_EXPORT_CONFIG
           ∧ EXPORT_TABLES !! missing = None).
Proof.
  intros Hname Hnone Hc Hs1 Hs2.
  destruct (exportWith_missing_table EXPORT_TABLES db userId DATA_EXPORT_CONFIG
              concurrency sched1 sched2 name DATA_EXPORT_CONFIG_names
              Hname Hnone Hc Hs1 Hs2)
    as (tr & p & Hrun & Hcases & Hbase).
  exists tr, p. split; [done|]. split; [|split; [done|split]].
  - destruct Hcases as [Hrej|(r & -> & Hrel & Hskip & Hentry)]; [by left|].
    right. exists r. split_and!; try done.
    apply list_elem_of_fmap in Hrel as (config & -> & Hin).
    destruct (exportWith_unregistered_skipped EXPORT_TABLES db userId
                DATA_EXPORT_CONFIG concurrency sched1 sched2 tr r config
                DATA_EXPORT_CONFIG_names DATA_EXPORT_CONFIG_base_sources
                Hrun Hin Hnone)
      as (relation & Hrelation & Hempty).
    by exists config, relation.
  - intros w.
    exact (exportWith_unregistered_not_queried EXPORT_TABLES db userId
             DATA_EXPORT_CONFIG concurrency sched1 sched2 tr p name w Hrun Hnone).
  - intros config tr1 baseResults Hin <- Hrun1 Hdata.
    exact (exportWith_missing_relation_table EXPORT_TABLES db userId
             DATA_EXPORT_CONFIG concurrency sched1 sched2 tr p tr1 baseResults config
             DATA_EXPORT_CONFIG_base_sources Hrun Hc Hs1 Hs2 Hin Hnone Hrun1 Hdata).
Qed.

(** C3: a relation table one of whose declared sources has an empty
    exported set when the relation phase starts gets the empty set as its
    entry, and no query is issued for it: the run only logs that the table
    is skipped. *)
Theorem relation_with_empty_source_is_skipped
    concurrency sched1 sched2 tr r tr1 baseResults config relation :
  export concurrency sched1 sched2 = (tr, Fulfilled r) →
  pMap db (baseMapper EXPORT_TABLES userId) (baseTables DATA_EXPORT_CONFIG)
    concurrency sched1 = (tr1, Fulfilled baseResults) →
  config ∈ relationTables DATA_EXPORT_CONFIG →
  relation ∈ relations config →
  default [] (storeResults ∅ baseResults !! sourceTable relation) = [] →
  r !! rtTable config = Some []
  ∧ (∀ w, EvQueryBegin (rtTable config) w ∉ tr)
  ∧ EvConsole (LogSkipTable (rtTable config)) ∈ tr.
Proof.
  intros Hrun Hbase Hin Hrel Hempty.
  exact (exportWith_skips_relation EXPORT_TABLES db userId DATA_EXPORT_CONFIG
           concurrency sched1 sched2 tr r tr1 baseResults config relation
           DATA_EXPORT_CONFIG_names Hrun Hbase Hin Hrel
           (proj1 (DATA_EXPORT_CONFIG_sources config relation Hin Hrel)) Hempty).
Qed.

(** C4: a relation table all of whose declared sources have data is
    queried once, and with this filter: for every declared relation, the
    values of its [sourceField] (of [id] when it has none) in the rows the
    base phase exported for its [sourceTable], and the requirement that
    the column of its [field] is one of them.  One condition is passed as
    it is, several are joined by [and]: a row passes the filter exactly
    when it passes the membership test of every relation.  The last part
    of the statement writes the filter out: the conditions are listed in
    the order of the relations, each the [inArray] of the column that the
    table object has under the name of [field] (under the name
    [undefined] when the relation has no [field]) and of the values the
    rows of the source have under [sourceField], under [id] when
    [sourceField] is absent or empty, [undefined] for a row without that
    property. *)
Theorem relation_filter_is_conjunction_of_memberships
    concurrency sched1 sched2 tr r tr1 baseResults config :
  export concurrency sched1 sched2 = (tr, Fulfilled r) →
  pMap db (baseMapper EXPORT_TABLES userId) (baseTables DATA_EXPORT_CONFIG)
    concurrency sched1 = (tr1, Fulfilled baseResults) →
  config ∈ relationTables DATA_EXPORT_CONFIG →
  (∀ relation, relation ∈ relations config →
     default [] (storeResults ∅ baseResults !! sourceTable relation) ≠ []) →
  ∃ tableObj where_,
    EXPORT_TABLES !! rtTable config = Some tableObj
    ∧ where_ =
        combine
          ((λ relation,
              inArray (tableObj !! propKey (field relation))
                (map (λ item, getProp item (orDefault (sourceField relation) "id"))
                   (default [] (storeResults ∅ baseResults !! sourceTable relation))))
             <$> relations config)
    ∧ EvQueryBegin (rtTable config) where_ ∈ tr
    ∧ (∀ w, EvQueryBegin (rtTable config) w ∈ tr → w = where_)
    ∧ (2 ≤ length (relations config) → ∃ conditions, where_ = Some (SqlAnd conditions))
    ∧ (∀ env,
         holdsWhere env where_ = true ↔
         ∀ relation, relation ∈ relations config →
           ∃ col, tableObj !! propKey (field relation) = Some col
             ∧ ∃ v, v ∈ map (λ item, getProp item (orDefault (sourceField relation) "id"))
                          (default [] (storeResults ∅ baseResults !! sourceTable relation))
                    ∧ sqlEqb (env col) v = true)
    ∧ ∃ conditions,
        Forall2
          (λ relation condition,
             ∃ rows,
               storeResults ∅ baseResults !! sourceTable relation = Some rows
               ∧ rows ≠ []
               ∧ condition
                 = SqlInArray
                     (tableObj !! match field relation with
                                  | Some name => name
                                  | None => "undefined"
                                  end)
                     (map (λ item : Row,
                             default VUndefined
                               (item !! match sourceField relation with
                                        | Some name =>
                                            if String.eqb name "" then "id" else name
                                        | None => "id"
                                        end))
                        rows))
          (relations config) conditions
        ∧ where_ = match conditions with
                   | [] => None
                   | [condition] => Some condition
                   | _ => Some (SqlAnd conditions)
                   end.
Proof.
  intros Hrun Hbase Hin Hdata.
  destruct (exportWith_relation_filter EXPORT_TABLES db userId DATA_EXPORT_CONFIG
              concurrency sched1 sched2 tr r tr1 baseResults config
              DATA_EXPORT_CONFIG_names Hrun Hbase Hin
              (λ relation Hrel,
                 proj1 (DATA_EXPORT_CONFIG_sources config relation Hin Hrel))
              Hdata)
    as (tableObj & where_ & Hreg & Hwhere & Hev & Honce & Hand & Hsem).
  exists tableObj, where_. split_and!; try done.
  destruct (relation_conditions_written_out tableObj (storeResults ∅ baseResults)
              (relations config))
    as (conditions & Hconditions & Hcombine).
  - intros relation Hrel.
    rewrite (base_run_basePhase _ _ _ _ _ _ _ _ Hbase).
    destruct (base_run_results _ _ _ _ _ _ _ _ Hbase) as [_ Hregistered].
    apply basePhase_is_Some; [done|].
    by destruct (DATA_EXPORT_CONFIG_sources config relation Hin Hrel).
  - done.
  - intros relation Hrel. by apply (DATA_EXPORT_CONFIG_source_fields config).
  - exists conditions. split; [done|]. by rewrite Hwhere.
Qed.

(** C5: the object a fulfilled export returns has an entry for every
    configured table, base or relation.  The entry is the empty sequence
    when the query of the table returned no row, when it failed, and when
    the table was skipped. *)
Theorem export_has_entry_for_every_table concurrency sched1 sched2 tr r :
  export concurrency sched1 sched2 = (tr, Fulfilled r) →
  (∀ name, name ∈ configNames DATA_EXPORT_CONFIG → ∃ rows, r !! name = Some rows)
  ∧ (∀ name, EvQueryEnd name (inr []) ∈ tr → r !! name = Some [])
  ∧ (∀ name e, EvQueryEnd name (inl e) ∈ tr → r !! name = Some [])
  ∧ (∀ name, EvConsole (LogSkipTable name) ∈ tr → r !! name = Some []).
Proof.
  intros Hrun.
  exact (exportWith_entries EXPORT_TABLES db userId DATA_EXPORT_CONFIG
           concurrency sched1 sched2 tr r DATA_EXPORT_CONFIG_names Hrun).
Qed.

(** C6: wherever a relation-table query begins in the trace of a run, the
    first [pMap] call has resolved and its whole trace lies before that
    point; before it, the query of every base table has begun once and
    has ended once, and after it no base-table query begins or ends.  The
    filter of the query is built from the result of the base phase
    alone. *)
Theorem relation_queries_begin_after_base_phase
    concurrency sched1 sched2 tr p i config w :
  export concurrency sched1 sched2 = (tr, p) →
  config ∈ relationTables DATA_EXPORT_CONFIG →
  tr !! i = Some (EvQueryBegin (rtTable config) w) →
  (∃ tr1 baseResults tableObj,
     pMap db (baseMapper EXPORT_TABLES userId) (baseTables DATA_EXPORT_CONFIG)
       concurrency sched1 = (tr1, Fulfilled baseResults)
     ∧ take (S (length tr1)) tr = EvConsole LogQueryingBase :: tr1
     ∧ S (length tr1) < i
     ∧ EXPORT_TABLES !! rtTable config = Some tableObj
     ∧ w = relationWhere tableObj (storeResults ∅ baseResults) config)
  ∧ ∀ b, b ∈ baseTables DATA_EXPORT_CONFIG →
      countEvents (isBeginOf (btTable b)) (take i tr) = 1
      ∧ countEvents (isEndOf (btTable b)) (take i tr) = 1
      ∧ countEvents (isBeginOf (btTable b)) (drop i tr) = 0
      ∧ countEvents (isEndOf (btTable b)) (drop i tr) = 0.
Proof.
  intros Hrun Hin Hi.
  exact (exportWith_phase_order EXPORT_TABLES db userId DATA_EXPORT_CONFIG
           concurrency sched1 sched2 tr p i config w
           DATA_EXPORT_CONFIG_names Hrun Hin Hi).
Qed.

(** C7: a query that raises does not make the export fail.  With every
    configured table registered, the export is fulfilled whichever queries
    raise; every base table is queried; and for every query that raised,
    the error is logged and the entry of the table is the empty set. *)
Theorem query_failure_is_contained concurrency sched1 sched2 :
  (∀ name, name ∈ configNames DATA_EXPORT_CONFIG → is_Some (EXPORT_TABLES !! name)) →
  1 ≤ concurrency →
  34 ≤ length sched1 →
  22 ≤ length sched2 →
  ∃ tr r,
    export concurrency sched1 sched2 = (tr, Fulfilled r)
    ∧ (∀ config, config ∈ baseTables DATA_EXPORT_CONFIG →
         ∃ where_ o, EvQueryBegin (btTable config) where_ ∈ tr
                     ∧ o = db (btTable config) where_
                     ∧ EvQueryEnd (btTable config) o ∈ tr)
    ∧ (∀ name e,
         EvQueryEnd name (inl e) ∈ tr →
         EvConsole (LogQueryError name e) ∈ tr ∧ r !! name = Some []).
Proof.
  intros Hreg Hc Hs1 Hs2.
  exact (exportWith_query_failure EXPORT_TABLES db userId DATA_EXPORT_CONFIG
           concurrency sched1 sched2 DATA_EXPORT_CONFIG_names Hreg Hc Hs1 Hs2).
Qed.

(** C9: [removeUserId] keeps the number and the order of the rows; of
    each row it removes the field named [userId] and nothing else, every
    other field keeps its value, and a row without a [userId] field is
    returned as it is.  So every field but [userId] of a row a base-table
    query returned is found unchanged in the object the export returns. *)
Theorem removeUserId_removes_only_userId :
  (∀ rows : list Row, length (removeUserId rows) = length rows)
  ∧ (∀ (rows : list Row) i item,
       rows !! i = Some item →
       ∃ item', removeUserId rows !! i = Some item'
                ∧ item' !! "userId" = None
                ∧ (∀ key, key ≠ "userId" → item' !! key = item !! key)
                ∧ (item !! "userId" = None → item' = item))
  ∧ (∀ concurrency sched1 sched2 tr r name rows,
       export concurrency sched1 sched2 = (tr, Fulfilled r) →
       name ∈ btTable <$> baseTables DATA_EXPORT_CONFIG →
       EvQueryEnd name (inr rows) ∈ tr →
       ∃ rows',
         r !! name = Some rows'
         ∧ Forall2 (λ item item' : Row,
                      ∀ key, key ≠ "userId" → item' !! key = item !! key)
             rows rows').
Proof.
  split; [|split].
  - intros rows. unfold removeUserId. apply length_map.
  - intros rows i item Hi. exists (delete "userId" item).
    split; [|split; [|split]].
    + unfold removeUserId. change (map ?f ?l) with (f <$> l).
      by rewrite list_lookup_fmap, Hi.
    + apply lookup_delete_eq.
    + intros key Hkey. by apply lookup_delete_ne.
    + intros Hnone. by apply delete_id.
  - intros concurrency sched1 sched2 tr r name rows Hrun Hname Hev.
    exact (exportWith_keeps_other_fields EXPORT_TABLES db userId DATA_EXPORT_CONFIG
             concurrency sched1 sched2 tr r name rows
             DATA_EXPORT_CONFIG_names Hrun Hname Hev).
Qed.

End ExporterClaims.

(** ** The exporter on the demonstration database *)

Lemma fulfilled_run {A B} (d : B) (x : A * Promise B) :
  isFulfilled (snd x) = true → x = (fst x, Fulfilled (fulfilledWith d (snd x))).
Proof. by destruct x as [a [b|e|]]. Qed.

Lemma demoRun_fulfilled :
  export demoTables demoDb "u1" defaultConcurrency demoSched demoSched
  = (demoTrace, Fulfilled demoResult).
Proof. apply (fulfilled_run ∅ demoRun). reflexivity. Qed.

Lemma base_rows_lose_userId_relation_rows_kept_witness :
  export demoTables demoDb "u1" defaultConcurrency demoSched demoSched
    = (demoTrace, Fulfilled demoResult)
  ∧ EvQueryEnd "sessions" (inr [session1; session2]) ∈ demoTrace
  ∧ demoResult !! "sessions" = Some (removeUserId [session1; session2])
  ∧ EvQueryEnd "filesToSessions" (inr [link1]) ∈ demoTrace
  ∧ demoResult !! "filesToSessions" = Some [link1].
Proof.
  assert (EvQueryEnd "sessions" (inr [session1; session2]) ∈ demoTrace) as Hs.
  { apply (list_elem_of_lookup_2 _ 21). reflexivity. }
  assert (EvQueryEnd "filesToSessions" (inr [link1]) ∈ demoTrace) as Hl.
  { apply (list_elem_of_lookup_2 _ 59). reflexivity. }
  destruct (base_rows_lose_userId_relation_rows_kept demoTables demoDb "u1"
              defaultConcurrency demoSched demoSched demoTrace demoResult
              (fulfilled_run ∅ demoRun eq_refl))
    as [Hbase Hrel].
  split; [reflexivity|]. split; [exact Hs|]. split; [|split; [exact Hl|]].
  - apply Hbase; [|exact Hs]. apply (list_elem_of_lookup_2 _ 5). reflexivity.
  - apply Hrel; [|exact Hl]. apply (list_elem_of_lookup_2 _ 2). reflexivity.
Defined.

(** C1 fails as stated: [users] is configured with the owner field [id],
    and the row the export returns for it still has its [id]. *)
Lemma export_keeps_the_id_of_users :
  export demoTables demoDb "u1" defaultConcurrency demoSched demoSched
    = (demoTrace, Fulfilled demoResult)
  ∧ baseBy "users" "id" ∈ baseTables DATA_EXPORT_CONFIG
  ∧ EvQueryEnd "users" (inr [user1]) ∈ demoTrace
  ∧ demoResult !! "users" = Some [user1]
  ∧ user1 !! "id" = Some (VStr "u1").
Proof.
  split; [reflexivity|]. split; [apply (list_elem_of_lookup_2 _ 0); reflexivity|].
  split; [apply (list_elem_of_lookup_2 _ 2); reflexivity|].
  split; reflexivity.
Qed.

(** C2 fails as stated: with [agents] absent from the registry, the export
    returns no result; it is rejected with [Table agents not found]. *)
Lemma export_rejected_when_agents_is_not_registered :
  "agents" ∈ configNames DATA_EXPORT_CONFIG
  ∧ delete "agents" demoTables !! "agents" = None
  ∧ snd (export (delete "agents" demoTables) demoDb "u1" defaultConcurrency
           demoSched demoSched)
    = Rejected (TableNotFound "agents").
Proof.
  split; [apply (list_elem_of_lookup_2 _ 3); reflexivity|].
  split; reflexivity.
Qed.

Lemma missing_table_rejects_export_witness :
  "agents" ∈ configNames DATA_EXPORT_CONFIG
  ∧ delete "agents" demoTables !! "agents" = None
  ∧ (∃ tr p,
       export (delete "agents" demoTables) demoDb "u1" defaultConcurrency
         demoSched demoSched = (tr, p)
       ∧ (∀ r, p ≠ Fulfilled r)
       ∧ EvConsole LogQueryingRelation ∉ tr)
  ∧ filesToSessions ∈ relationTables DATA_EXPORT_CONFIG
  ∧ delete "filesToSessions" demoTables !! "filesToSessions" = None
  ∧ storeResults ∅ (fulfilledWith [] (snd demoUnlinkedBaseRun)) !! "sessions"
    = Some (removeUserId [session1; session2])
  ∧ snd demoUnlinkedRun = Rejected (TableNotFound "filesToSessions")
  ∧ ∃ tr p,
      demoUnlinkedRun = (tr, p)
      ∧ (∀ w, EvQueryBegin "filesToSessions" w ∉ tr)
      ∧ ∃ missing,
          p = Rejected (TableNotFound missing)
          ∧ missing ∈ rtTable <$> relationTables DATA_EXPORT_CONFIG
          ∧ delete "filesToSessions" demoTables !! missing = None.
Proof.
  assert ("agents" ∈ configNames DATA_EXPORT_CONFIG) as Hname.
  { apply (list_elem_of_lookup_2 _ 3). reflexivity. }
  assert (delete "agents" demoTables !! "agents" = None) as Hnone by reflexivity.
  assert (filesToSessions ∈ relationTables DATA_EXPORT_CONFIG) as Hin.
  { apply (list_elem_of_lookup_2 _ 2). reflexivity. }
  assert ("filesToSessions" ∈ configNames DATA_EXPORT_CONFIG) as Hname'.
  { apply (list_elem_of_lookup_2 _ 19). reflexivity. }
  assert (delete "filesToSessions" demoTables !! "filesToSessions" = None) as Hnone'
    by reflexivity.
  split; [exact Hname|]. split; [exact Hnone|]. split.
  { destruct (missing_table_rejects_export (delete "agents" demoTables) demoDb "u1"
                defaultConcurrency demoSched demoSched "agents" Hname Hnone)
      as (tr & p & Hrun & _ & Hbase & _).
    - unfold defaultConcurrency. lia.
    - simpl. lia.
    - simpl. lia.
    - exists tr, p. split; [exact Hrun|]. apply Hbase.
      apply (list_elem_of_lookup_2 _ 3). reflexivity. }
  split; [exact Hin|]. split; [exact Hnone'|]. split; [reflexivity|].
  split; [reflexivity|].
  destruct (missing_table_rejects_export (delete "filesToSessions" demoTables) demoDb
              "u1" defaultConcurrency demoSched demoSched "filesToSessions"
              Hname' Hnone')
    as (tr & p & Hrun & _ & _ & Hquery & Hrel).
  - unfold defaultConcurrency. lia.
  - simpl. lia.
  - simpl. lia.
  - exists tr, p. split; [exact Hrun|]. split; [exact Hquery|].
    apply (Hrel filesToSessions (fst demoUnlinkedBaseRun)
             (fulfilledWith [] (snd demoUnlinkedBaseRun)) Hin eq_refl).
    + apply (fulfilled_run [] demoUnlinkedBaseRun). reflexivity.
    + intros relation Hrelation Heq.
      apply list_elem_of_singleton in Hrelation. subst relation.
      apply (f_equal length) in Heq. vm_compute in Heq. lia.
Defined.

Lemma demoBaseRun_fulfilled :
  pMap demoDb (baseMapper demoTables "u1") (baseTables DATA_EXPORT_CONFIG)
    defaultConcurrency demoSched
  = (fst demoBaseRun, Fulfilled demoBaseResults).
Proof. apply (fulfilled_run [] demoBaseRun). reflexivity. Qed.

Lemma relation_with_empty_source_is_skipped_witness :
  agentsToSessions ∈ relationTables DATA_EXPORT_CONFIG
  ∧ default [] (storeResults ∅ demoBaseResults !! "agents") = []
  ∧ demoResult !! "agentsToSessions" = Some []
  ∧ (∀ w, EvQueryBegin "agentsToSessions" w ∉ demoTrace)
  ∧ EvConsole (LogSkipTable "agentsToSessions") ∈ demoTrace.
Proof.
  assert (agentsToSessions ∈ relationTables DATA_EXPORT_CONFIG) as Hin.
  { apply (list_elem_of_lookup_2 _ 0). reflexivity. }
  assert (default [] (storeResults ∅ demoBaseResults !! "agents") = []) as Hempty
    by reflexivity.
  split; [exact Hin|]. split; [exact Hempty|].
  apply (relation_with_empty_source_is_skipped demoTables demoDb "u1"
           defaultConcurrency demoSched demoSched demoTrace demoResult
           (fst demoBaseRun) demoBaseResults agentsToSessions
           (rel (Some "agentId") (Some "id") "agents")).
  - apply (fulfilled_run ∅ demoRun). reflexivity.
  - apply (fulfilled_run [] demoBaseRun). reflexivity.
  - exact Hin.
  - apply (list_elem_of_lookup_2 _ 0). reflexivity.
  - exact Hempty.
Defined.

Lemma relation_filter_is_conjunction_of_memberships_witness :
  agentsToSessions ∈ relationTables DATA_EXPORT_CONFIG
  ∧ storeResults ∅ (fulfilledWith [] (snd demoAgentsBaseRun)) !! "agents"
    = Some (removeUserId [agent1])
  ∧ storeResults ∅ (fulfilledWith [] (snd demoAgentsBaseRun)) !! "sessions"
    = Some (removeUserId [session1; session2])
  ∧ EvQueryBegin "agentsToSessions"
      (Some (SqlAnd [SqlInArray (Some "agentId") [VStr "a1"];
                     SqlInArray None [VUndefined; VUndefined]]))
      ∈ fst demoAgentsRun
  ∧ ∃ conditions,
      Forall2
        (λ relation condition,
           ∃ rows,
             storeResults ∅ (fulfilledWith [] (snd demoAgentsBaseRun))
               !! sourceTable relation = Some rows
             ∧ rows ≠ []
             ∧ condition
               = SqlInArray
                   (tableOf ["id"; "agentId"; "sessionId"; "fileId"; "messageId";
                             "chunkId"; "knowledgeBaseId"; "userId"]
                      !! match field relation with
                         | Some name => name
                         | None => "undefined"
                         end)
                   (map (λ item : Row,
                           default VUndefined
                             (item !! match sourceField relation with
                                      | Some name =>
                                          if String.eqb name "" then "id" else name
                                      | None => "id"
                                      end))
                      rows))
        (relations agentsToSessions) conditions
      ∧ Some (SqlAnd [SqlInArray (Some "agentId") [VStr "a1"];
                      SqlInArray None [VUndefined; VUndefined]])
        = match conditions with
          | [] => None
          | [condition] => Some condition
          | _ => Some (SqlAnd conditions)
          end.
Proof.
  assert (agentsToSessions ∈ relationTables DATA_EXPORT_CONFIG) as Hin.
  { apply (list_elem_of_lookup_2 _ 0). reflexivity. }
  split; [exact Hin|]. split; [reflexivity|]. split; [reflexivity|].
  destruct (relation_filter_is_conjunction_of_memberships demoTables demoDbAgents "u1"
              defaultConcurrency demoSched demoSched
              (fst demoAgentsRun) (fulfilledWith ∅ (snd demoAgentsRun))
              (fst demoAgentsBaseRun) (fulfilledWith [] (snd demoAgentsBaseRun))
              agentsToSessions)
    as (tableObj & where_ & Hreg & Hwhere & Hev & _ & _ & _
        & conditions & Hconditions & Hcases).
  - apply (fulfilled_run ∅ demoAgentsRun). reflexivity.
  - apply (fulfilled_run [] demoAgentsBaseRun). reflexivity.
  - exact Hin.
  - intros relation Hrel Heq.
    apply elem_of_cons in Hrel as [->|Hrel];
      [|apply list_elem_of_singleton in Hrel; subst relation];
      apply (f_equal length) in Heq; vm_compute in Heq; lia.
  - change (demoTables !! rtTable agentsToSessions)
      with (Some (tableOf ["id"; "agentId"; "sessionId"; "fileId"; "messageId";
                           "chunkId"; "knowledgeBaseId"; "userId"])) in Hreg.
    injection Hreg as <-.
    assert (where_
            = Some (SqlAnd [SqlInArray (Some "agentId") [VStr "a1"];
                            SqlInArray None [VUndefined; VUndefined]])) as Hvalue.
    { rewrite Hwhere. reflexivity. }
    rewrite Hvalue in Hev, Hcases.
    split; [exact Hev|]. exists conditions. split; [exact Hconditions|exact Hcases].
Defined.

Lemma export_has_entry_for_every_table_witness :
  export demoTables demoDb "u1" defaultConcurrency demoSched demoSched
    = (demoTrace, Fulfilled demoResult)
  ∧ (∃ rows, demoResult !! "embeddings" = Some rows)
  ∧ EvQueryEnd "files" (inl (DbError "connection lost")) ∈ demoTrace
  ∧ demoResult !! "files" = Some [].
Proof.
  destruct (export_has_entry_for_every_table demoTables demoDb "u1"
              defaultConcurrency demoSched demoSched demoTrace demoResult
              (fulfilled_run ∅ demoRun eq_refl))
    as (Hkeys & _ & Hfail & _).
  assert (EvQueryEnd "files" (inl (DbError "connection lost")) ∈ demoTrace) as Hev.
  { apply (list_elem_of_lookup_2 _ 34). reflexivity. }
  split; [reflexivity|]. split; [|split; [exact Hev|]].
  - apply Hkeys. apply (list_elem_of_lookup_2 _ 16). reflexivity.
  - exact (Hfail _ _ Hev).
Defined.

Lemma relation_queries_begin_after_base_phase_witness :
  demoTrace !! 56
    = Some (EvQueryBegin "filesToSessions"
              (Some (SqlInArray (Some "sessionId") [VStr "s1"; VStr "s2"])))
  ∧ countEvents (isBeginOf "messages") (take 56 demoTrace) = 1
  ∧ countEvents (isEndOf "messages") (take 56 demoTrace) = 1
  ∧ countEvents (isBeginOf "messages") (drop 56 demoTrace) = 0
  ∧ countEvents (isEndOf "messages") (drop 56 demoTrace) = 0.
Proof.
  assert (filesToSessions ∈ relationTables DATA_EXPORT_CONFIG) as Hin.
  { apply (list_elem_of_lookup_2 _ 2). reflexivity. }
  assert (base "messages" ∈ baseTables DATA_EXPORT_CONFIG) as Hmessages.
  { apply (list_elem_of_lookup_2 _ 8). reflexivity. }
  split; [reflexivity|].
  exact (proj2 (relation_queries_begin_after_base_phase demoTables demoDb "u1"
                  defaultConcurrency demoSched demoSched demoTrace
                  (Fulfilled demoResult) 56 filesToSessions
                  (Some (SqlInArray (Some "sessionId") [VStr "s1"; VStr "s2"]))
                  (fulfilled_run ∅ demoRun eq_refl) Hin eq_refl)
           (base "messages") Hmessages).
Defined.

Lemma query_failure_is_contained_witness :
  ∃ tr r,
    export demoTables demoDb "u1" defaultConcurrency demoSched demoSched
      = (tr, Fulfilled r)
    ∧ EvQueryEnd "messagePlugins" (inl (DbError "timeout")) ∈ tr
    ∧ EvConsole (LogQueryError "messagePlugins" (DbError "timeout")) ∈ tr
    ∧ r !! "messagePlugins" = Some [].
Proof.
  destruct (query_failure_is_contained demoTables demoDb "u1"
              defaultConcurrency demoSched demoSched)
    as (tr & r & Hrun & _ & Hfail).
  - apply (Forall_forall (λ name, is_Some (demoTables !! name))).
    apply (bool_decide_unpack _). exact I.
  - unfold defaultConcurrency. lia.
  - simpl. lia.
  - simpl. lia.
  - exists tr, r. split; [exact Hrun|].
    assert (EvQueryEnd "messagePlugins" (inl (DbError "timeout")) ∈ tr) as Hev.
    { assert (demoTrace = tr) as <-.
      { unfold demoTrace, demoRun. by rewrite Hrun. }
      apply (list_elem_of_lookup_2 _ 64). reflexivity. }
    split; [exact Hev|]. exact (Hfail _ _ Hev).
Defined.

Lemma removeUserId_removes_only_userId_witness :
  EvQueryEnd "sessions" (inr [session1; session2]) ∈ demoTrace
  ∧ ∃ rows',
      demoResult !! "sessions" = Some rows'
      ∧ Forall2 (λ item item' : Row,
                   ∀ key, key ≠ "userId" → item' !! key = item !! key)
          [session1; session2] rows'.
Proof.
  assert (EvQueryEnd "sessions" (inr [session1; session2]) ∈ demoTrace) as Hev.
  { apply (list_elem_of_lookup_2 _ 21). reflexivity. }
  split; [exact Hev|].
  apply (proj2 (proj2 (removeUserId_removes_only_userId demoTables demoDb "u1"))
           defaultConcurrency demoSched demoSched demoTrace demoResult "sessions"
           [session1; session2]).
  - apply (fulfilled_run ∅ demoRun). reflexivity.
  - apply (list_elem_of_lookup_2 _ 5). reflexivity.
  - exact Hev.
Defined.



(** ** Queries in flight *)

Lemma inFlight_app tr1 tr2 : inFlight (tr1 ++ tr2) = (inFlight tr1 + inFlight tr2)%Z.
Proof. induction tr1 as [|ev tr1 IH]; simpl; [done|]. rewrite IH. lia. Qed.

Lemma inFlight_take_app n tr1 tr2 :
  inFlight (take n (tr1 ++ tr2))
  = (inFlight (take n tr1) + inFlight (take (n - length tr1) tr2))%Z.
Proof. by rewrite take_app, inFlight_app. Qed.

Section InFlight.

Variable db : string → option SQL → QueryOutcome.
Context {A B : Type}.
Variable mapper : A → Task B.

#[local] Abbreviation Transition := (Transition db mapper).

(** A task that runs up to its next await begins at most one query, as
    its last event. *)
Lemma advance_inFlight (t : Task B) evs s :
  advance t = (evs, s) →
  inFlight evs = (match s with SAwait _ _ _ => 1 | _ => 0 end)%Z
  ∧ ∀ n, (0 ≤ inFlight (take n evs) ≤ inFlight evs)%Z.
Proof.
  revert evs s. induction t as [b|e|l k IH|name w k _]; intros evs s Hadv; simpl in Hadv.
  - injection Hadv as <- <-. split; [done|]. intros n. by rewrite take_nil.
  - injection Hadv as <- <-. split; [done|]. intros n. by rewrite take_nil.
  - destruct (advance k) as [evs' s'] eqn:Hk. injection Hadv as <- <-.
    destruct (IH evs' s' eq_refl) as [Htot Hpre].
    change (inFlight (EvConsole l :: evs')) with (0 + inFlight evs')%Z.
    split; [rewrite Htot; destruct s'; lia|].
    intros [|n]; [simpl; rewrite Htot; destruct s'; lia|].
    change (inFlight (take (S n) (EvConsole l :: evs')))
      with (0 + inFlight (take n evs'))%Z.
    specialize (Hpre n). lia.
  - injection Hadv as <- <-. split; [done|].
    intros [|n]; simpl; [lia|]. rewrite take_nil. simpl. lia.
Qed.

(** A step keeps the number of queries in flight between zero and the
    concurrency, at each of its events, and the calls in flight after it
    are the ones before it and the ones it began, less the ones it
    ended. *)
Lemma transition_inFlight concurrency st evs r :
  length (resolving st) ≤ concurrency →
  Transition concurrency st evs r →
  (∀ n, (0 ≤ Z.of_nat (length (resolving st)) + inFlight (take n evs)
           ≤ Z.of_nat concurrency)%Z)
  ∧ ∀ st', r = inl st' →
      Z.of_nat (length (resolving st'))
      = (Z.of_nat (length (resolving st)) + inFlight evs)%Z.
Proof.
  intros Hle Htr. destruct Htr as [item rest evs s Hiter Hlt Hadv|slot f evs s Hslot Hadv].
  - destruct (advance_inFlight _ _ _ Hadv) as [Htot Hpre]. split.
    + intros n. specialize (Hpre n). destruct s; lia.
    + intros st' Hst'. destruct s; simpl in Hst'; [| done |].
      * injection Hst' as <-. simpl. lia.
      * injection Hst' as <-. simpl. rewrite length_app. simpl. lia.
  - destruct (advance_inFlight _ _ _ Hadv) as [Htot Hpre].
    pose proof (lookup_lt_Some _ _ _ Hslot) as Hlen. split.
    + intros [|n]; simpl; [lia|]. specialize (Hpre n). destruct s; lia.
    + intros st' Hst'.
      assert (length (delete slot (resolving st)) = length (resolving st) - 1) as Hdel
        by by apply length_delete.
      destruct s; simpl in Hst'; [| done |].
      * injection Hst' as <-. simpl. lia.
      * injection Hst' as <-. simpl. rewrite length_app. simpl. lia.
Qed.

Lemma pMapLoop_inFlight concurrency sched st tr p :
  1 ≤ concurrency →
  length (resolving st) ≤ concurrency →
  pMapLoop db mapper concurrency sched st = (tr, p) →
  (∀ n, (0 ≤ Z.of_nat (length (resolving st)) + inFlight (take n tr)
           ≤ Z.of_nat concurrency)%Z)
  ∧ ∀ rs, p = Fulfilled rs →
      (Z.of_nat (length (resolving st)) + inFlight tr = 0)%Z.
Proof.
  intros Hc. revert st tr p. induction sched as [|d sched IH]; intros st tr p Hle Hrun;
    simpl in Hrun; destruct (settled st) eqn:Hset.
  - injection Hrun as <- <-. unfold settled in Hset.
    destruct (iterator st), (resolving st); try done. split.
    + intros n. rewrite take_nil. simpl. lia.
    + done.
  - injection Hrun as <- <-. split; [|done].
    intros n. rewrite take_nil. simpl. lia.
  - injection Hrun as <- <-. unfold settled in Hset.
    destruct (iterator st), (resolving st); try done. split.
    + intros n. rewrite take_nil. simpl. lia.
    + done.
  - destruct (step db mapper concurrency d st) as [evs r] eqn:Hstep.
    pose proof (step_transition db mapper concurrency d st evs r Hc Hset Hstep) as Htr.
    destruct (transition_inFlight _ _ _ _ Hle Htr) as [Hpre Hnext].
    destruct r as [st'|e].
    + destruct (pMapLoop db mapper concurrency sched st') as [evs' p'] eqn:Hloop.
      injection Hrun as <- <-.
      pose proof (Hnext st' eq_refl) as Hst'.
      assert (length (resolving st') ≤ concurrency) as Hle'.
      { specialize (Hpre (length evs)). rewrite firstn_all in Hpre. lia. }
      destruct (IH st' evs' p' Hle' Hloop) as [Hpre' Hdone]. split.
      * intros n. rewrite inFlight_take_app.
        destruct (decide (n ≤ length evs)) as [Hn|Hn].
        -- replace (n - length evs) with 0 by lia. rewrite take_0. simpl.
           specialize (Hpre n). lia.
        -- rewrite take_ge by lia. specialize (Hpre' (n - length evs)). lia.
      * intros rs Hrs. rewrite inFlight_app. specialize (Hdone rs Hrs). lia.
    + injection Hrun as <- <-. split; [exact Hpre|done].
Qed.

Lemma pMap_inFlight items concurrency sched :
  (∀ n, (0 ≤ inFlight (take n (fst (pMap db mapper items concurrency sched)))
           ≤ Z.of_nat concurrency)%Z)
  ∧ ∀ rs, snd (pMap db mapper items concurrency sched) = Fulfilled rs →
      inFlight (fst (pMap db mapper items concurrency sched)) = 0%Z.
Proof.
  unfold pMap. case_bool_decide as Hc.
  - simpl. split; [|done]. intros n. rewrite take_nil. simpl. lia.
  - destruct (pMapLoop _ _ _ _ _) as [tr p] eqn:Hrun.
    assert (1 ≤ concurrency) as Hc' by lia.
    apply pMapLoop_inFlight in Hrun as [Hpre Hdone]; [|done|simpl; lia].
    simpl in *. split.
    + intros n. specialize (Hpre n). lia.
    + intros rs Hrs. specialize (Hdone rs Hrs). lia.
Qed.

End InFlight.

Lemma inFlight_bounded_app (c : Z) tr1 tr2 :
  (∀ n, (0 ≤ inFlight (take n tr1) ≤ c)%Z) →
  inFlight tr1 = 0%Z →
  (∀ n, (0 ≤ inFlight (take n tr2) ≤ c)%Z) →
  ∀ n, (0 ≤ inFlight (take n (tr1 ++ tr2)) ≤ c)%Z.
Proof.
  intros H1 Hz H2 n. rewrite inFlight_take_app.
  destruct (decide (n ≤ length tr1)) as [Hn|Hn].
  - replace (n - length tr1) with 0 by lia. rewrite take_0. simpl.
    specialize (H1 n). lia.
  - rewrite take_ge by lia. specialize (H2 (n - length tr1)). lia.
Qed.

Lemma inFlight_bounded_console (c : Z) l tr :
  (∀ n, (0 ≤ inFlight (take n tr) ≤ c)%Z) →
  ∀ n, (0 ≤ inFlight (take n (EvConsole l :: tr)) ≤ c)%Z.
Proof.
  intros H [|n]; simpl.
  - specialize (H 0). rewrite take_0 in H. simpl in H. lia.
  - specialize (H n). lia.
Qed.

Section InFlightExport.

Variable EXPORT_TABLES : gmap string TableObj.
Variable db : string → option SQL → QueryOutcome.
Variable userId : string.

#[local] Abbreviation exportWith := (exportWith EXPORT_TABLES db userId).

Lemma exportWith_inFlight cfg concurrency sched1 sched2 :
  (∀ n, (0 ≤ inFlight (take n (fst (exportWith cfg concurrency sched1 sched2)))
           ≤ Z.of_nat concurrency)%Z)
  ∧ ∀ r, snd (exportWith cfg concurrency sched1 sched2) = Fulfilled r →
      inFlight (fst (exportWith cfg concurrency sched1 sched2)) = 0%Z.
Proof.
  unfold exportWith.
  pose proof (pMap_inFlight db (baseMapper EXPORT_TABLES userId) (baseTables cfg)
                concurrency sched1) as [Hpre1 Hdone1].
  destruct (pMap db (baseMapper EXPORT_TABLES userId) (baseTables cfg) concurrency sched1)
    as [tr1 p1] eqn:Hrun1.
  simpl in Hpre1, Hdone1.
  destruct p1 as [baseResults|e|].
  - pose proof (pMap_inFlight db
                  (relationMapper EXPORT_TABLES userId (storeResults ∅ baseResults))
                  (relationTables cfg) concurrency sched2) as [Hpre2 Hdone2].
    destruct (pMap db _ (relationTables cfg) concurrency sched2) as [tr2 p2] eqn:Hrun2.
    simpl in Hpre2, Hdone2. simpl.
    pose proof (Hdone1 _ eq_refl) as Hz1.
    split.
    + apply (inFlight_bounded_console _ LogQueryingBase).
      apply inFlight_bounded_app; [done..|].
      by do 2 apply inFlight_bounded_console.
    + intros r Hr. destruct p2 as [rs| |]; try done.
      rewrite inFlight_app. simpl. rewrite (Hdone2 rs eq_refl). lia.
  - simpl. split; [|done]. by apply inFlight_bounded_console.
  - simpl. split; [|done]. by apply inFlight_bounded_console.
Qed.

End InFlightExport.

(** ** Counting over parts of a trace *)

Lemma countEvents_submseteq f tr1 tr2 :
  tr1 ⊆+ tr2 → countEvents f tr1 ≤ countEvents f tr2.
Proof.
  unfold countEvents. induction 1; simpl; lia.
Qed.

Lemma sum_list_with_le {C} (f g : C → nat) (l : list C) :
  (∀ x, x ∈ l → f x ≤ g x) → sum_list_with f l ≤ sum_list_with g l.
Proof.
  induction l as [|x l IH]; intros Hle; simpl; [done|].
  pose proof (Hle x (list_elem_of_here _ _)).
  assert (sum_list_with f l ≤ sum_list_with g l)
    by (apply IH; intros y Hy; apply Hle; by apply list_elem_of_further).
  lia.
Qed.

Lemma sum_indicator_le {C} (g : C → string) (l : list C) name :
  NoDup (g <$> l) →
  sum_list_with (λ y, if String.eqb (g y) name then 1 else 0) l
  ≤ (if bool_decide (name ∈ g <$> l) then 1 else 0).
Proof.
  induction l as [|x l IH]; intros Hnd; simpl; [done|].
  rewrite fmap_cons in Hnd. apply NoDup_cons in Hnd as [Hx Hnd].
  specialize (IH Hnd).
  destruct (String.eqb (g x) name) eqn:Heq.
  - apply String.eqb_eq in Heq. subst name.
    rewrite bool_decide_eq_false_2 in IH by done.
    rewrite bool_decide_eq_true_2 by apply list_elem_of_here. lia.
  - apply String.eqb_neq in Heq.
    case_bool_decide as Hin.
    + rewrite bool_decide_eq_true_2 by by apply list_elem_of_further. lia.
    + rewrite bool_decide_eq_false_2; [lia|].
      intros [?|?]%elem_of_cons; [congruence|done].
Qed.

(** ** Further properties of runs *)

Section FurtherRuns.

Variable EXPORT_TABLES : gmap string TableObj.
Variable db : string → option SQL → QueryOutcome.
Variable userId : string.

#[local] Abbreviation exportWith := (exportWith EXPORT_TABLES db userId).
#[local] Abbreviation basePhase := (basePhase EXPORT_TABLES db userId).
#[local] Abbreviation exported := (exported EXPORT_TABLES db userId).
#[local] Abbreviation basePhaseEvents := (basePhaseEvents EXPORT_TABLES db userId).
#[local] Abbreviation relationPhaseEvents := (relationPhaseEvents EXPORT_TABLES db userId).
#[local] Abbreviation baseResultsOf := (baseResultsOf EXPORT_TABLES db userId).
#[local] Abbreviation relationOutcome := (relationOutcome EXPORT_TABLES db).

Lemma exportWith_same_result cfg c s1 s2 tr r c' s1' s2' tr' p' :
  exportWith cfg c s1 s2 = (tr, Fulfilled r) →
  exportWith cfg c' s1' s2' = (tr', p') →
  match p' with
  | Fulfilled r' => r' = r ∧ tr' ≡ₚ tr
  | Rejected e => c' = 0 ∧ e = PMapTypeError
  | Unsettled =>
      length s1' < 2 * length (baseTables cfg)
      ∨ length s2' < 2 * length (relationTables cfg)
  end.
Proof.
  intros Hrun Hrun'.
  destruct (exportWith_fulfilled _ _ _ _ _ _ _ _ _ Hrun)
    as (tr1 & tr2 & -> & Htr1 & Htr2 & -> & Hbase & Hrel).
  apply exportWith_shape in Hrun'.
  inversion Hrun' as [tr1' e Hsub [(Hc & -> & _)|(config & Hin & Hnone & _)]
                     |tr1' Hsub Hlen
                     |tr1' tr2' p'' Hrun1 Hc Htr1' Hreg Hsub Hp]; subst.
  - split; [lia|done].
  - rewrite Forall_forall in Hbase. destruct (Hbase _ Hin) as [? Hsome]. congruence.
  - by left.
  - destruct p' as [r'|e|].
    + destruct Hp as (Htr2' & -> & _). split; [done|].
      by rewrite Htr1, Htr2, Htr1', Htr2'.
    + destruct Hp as (config & Hin & Hall & Hnone & _).
      rewrite Forall_forall in Hrel. destruct (Hrel _ Hin) as [td Htd].
      unfold relationOutcome in Htd.
      by rewrite Hall, Hnone in Htd.
    + by right.
Qed.

Lemma exportWith_count_le cfg c s1 s2 name (f : Event → bool) :
  NoDup (configNames cfg) →
  (∀ l, f (EvConsole l) = false) →
  (∀ name' w, countEvents f (queryEvents db name' w)
              = if String.eqb name' name then 1 else 0) →
  countEvents f (fst (exportWith cfg c s1 s2))
  ≤ if bool_decide (name ∈ configNames cfg) then 1 else 0.
Proof.
  intros Hnames Hconsole Hquery.
  destruct (NoDup_configNames _ Hnames) as (Hnb & Hnr & Hdisj).
  assert (countEvents f (basePhaseEvents cfg)
          ≤ if bool_decide (name ∈ btTable <$> baseTables cfg) then 1 else 0) as Hb.
  { unfold basePhaseEvents. rewrite countEvents_bind.
    etrans; [|apply (sum_indicator_le btTable), Hnb].
    apply sum_list_with_le. intros config _. unfold baseEvents.
    destruct (EXPORT_TABLES !! btTable config); [by rewrite Hquery|simpl; lia]. }
  assert (countEvents f (relationPhaseEvents cfg)
          ≤ if bool_decide (name ∈ rtTable <$> relationTables cfg) then 1 else 0) as Hr.
  { unfold relationPhaseEvents. rewrite countEvents_bind.
    etrans; [|apply (sum_indicator_le rtTable), Hnr].
    apply sum_list_with_le. intros config _. unfold relationEvents.
    destruct (allSourcesHaveData _ config).
    - destruct (EXPORT_TABLES !! rtTable config); [|simpl; lia].
      destruct (sourcesAreArrays _ config); [by rewrite Hquery|].
      unfold countEvents. simpl. rewrite Hconsole. destruct (String.eqb _ _); lia.
    - unfold countEvents. simpl. rewrite Hconsole. destruct (String.eqb _ _); lia. }
  assert ((if bool_decide (name ∈ btTable <$> baseTables cfg) then 1 else 0)
          + (if bool_decide (name ∈ rtTable <$> relationTables cfg) then 1 else 0)
          ≤ if bool_decide (name ∈ configNames cfg) then 1 else 0) as Hsum.
  { unfold configNames.
    destruct (decide (name ∈ btTable <$> baseTables cfg)) as [Hb'|Hb'];
      destruct (decide (name ∈ rtTable <$> relationTables cfg)) as [Hr'|Hr'].
    - exfalso. by eapply Hdisj.
    - rewrite (bool_decide_eq_true_2 _ Hb'), (bool_decide_eq_false_2 _ Hr').
      rewrite bool_decide_eq_true_2; [lia|]. apply elem_of_app. by left.
    - rewrite (bool_decide_eq_false_2 _ Hb'), (bool_decide_eq_true_2 _ Hr').
      rewrite bool_decide_eq_true_2; [lia|]. apply elem_of_app. by right.
    - rewrite (bool_decide_eq_false_2 _ Hb'), (bool_decide_eq_false_2 _ Hr'). lia. }
  assert (∀ l tr, countEvents f (EvConsole l :: tr) = countEvents f tr) as Hcons.
  { intros l tr. unfold countEvents. simpl. by rewrite Hconsole. }
  destruct (exportWith cfg c s1 s2) as [tr p] eqn:Hrun. simpl.
  apply exportWith_shape in Hrun.
  inversion Hrun as [tr1 e Hsub _|tr1 Hsub _|tr1 tr2 p' _ _ Htr1 _ Hsub _]; subst.
  - rewrite Hcons. apply countEvents_submseteq with (f := f) in Hsub. lia.
  - rewrite Hcons. apply countEvents_submseteq with (f := f) in Hsub. lia.
  - rewrite Hcons, countEvents_app, !Hcons.
    apply countEvents_Permutation with (f := f) in Htr1.
    apply countEvents_submseteq with (f := f) in Hsub. lia.
Qed.

Lemma exportWith_query_counts cfg c s1 s2 name :
  NoDup (configNames cfg) →
  countEvents (isBeginOf name) (fst (exportWith cfg c s1 s2))
    ≤ (if bool_decide (name ∈ configNames cfg) then 1 else 0)
  ∧ countEvents (isEndOf name) (fst (exportWith cfg c s1 s2))
    ≤ (if bool_decide (name ∈ configNames cfg) then 1 else 0).
Proof.
  intros Hnames.
  split; apply exportWith_count_le; try done;
    intros name' w; apply (countEvents_queryEvents db name name' w).
Qed.

Lemma exportWith_rejected_cause cfg c s1 s2 tr e :
  exportWith cfg c s1 s2 = (tr, Rejected e) →
  (c = 0 ∧ e = PMapTypeError ∧ tr = [EvConsole LogQueryingBase])
  ∨ (1 ≤ c
     ∧ ∃ name,
         name ∈ configNames cfg
         ∧ EXPORT_TABLES !! name = None
         ∧ e = TableNotFound name
         ∧ ∀ w, EvQueryBegin name w ∉ tr).
Proof.
  intros Hrun. destruct c as [|c].
  - left. unfold exportWith, pMap in Hrun. simpl in Hrun.
    by injection Hrun as <- <-.
  - right. split; [lia|].
    assert (∀ name, EXPORT_TABLES !! name = None → ∀ w, EvQueryBegin name w ∉ tr)
      as Hnoquery.
    { intros name Hnone w Hin.
      destruct (exportWith_query_begin _ _ _ _ _ _ _ _ _ _ _ Hrun Hin)
        as [(? & ? & _ & _ & Hsome & _)|(? & ? & _ & _ & Hsome & _)]; congruence. }
    apply exportWith_shape in Hrun.
    inversion Hrun as [tr1 e' Hsub [(Hc & _)|(config & Hin & Hnone & ->)]
                      | |tr1 tr2 p' _ _ _ _ _ Hp]; subst.
    + lia.
    + exists (btTable config). split; [|by auto].
      apply elem_of_app. left. by apply list_elem_of_fmap_2.
    + destruct Hp as (config & Hin & _ & Hnone & ->).
      exists (rtTable config). split; [|by auto].
      apply elem_of_app. right. by apply list_elem_of_fmap_2.
Qed.

Lemma exported_lookup_is_Some cfg name :
  is_Some (exported cfg !! name) → name ∈ configNames cfg.
Proof.
  intros Hsome. apply elem_of_app.
  destruct (decide (name ∈ rtTable <$> relationTables cfg)) as [|Hr]; [by right|left].
  destruct (decide (name ∈ btTable <$> baseTables cfg)) as [|Hb]; [done|exfalso].
  unfold exported in Hsome.
  rewrite storeResults_lookup_notin in Hsome.
  - rewrite basePhase_lookup_None in Hsome by done. by destruct Hsome.
  - intros Hin. apply Hr.
    eapply elem_of_sublist; [done|apply relationResultsOf_names].
Qed.

Lemma exportWith_key_set cfg c s1 s2 tr r :
  NoDup (configNames cfg) →
  exportWith cfg c s1 s2 = (tr, Fulfilled r) →
  (∀ name, is_Some (r !! name) ↔ name ∈ configNames cfg)
  ∧ size r = length (baseTables cfg) + length (relationTables cfg).
Proof.
  intros Hnames Hrun.
  assert (∀ name, is_Some (r !! name) ↔ name ∈ configNames cfg) as Hkeys.
  { intros name. split.
    - destruct (exportWith_fulfilled _ _ _ _ _ _ _ _ _ Hrun)
        as (_ & _ & _ & _ & _ & -> & _).
      apply exported_lookup_is_Some.
    - by eapply exportWith_keys. }
  split; [done|].
  assert (dom r = list_to_set (configNames cfg)) as Hdom.
  { apply set_eq. intros name.
    by rewrite elem_of_dom, elem_of_list_to_set. }
  rewrite <- size_dom, Hdom, size_list_to_set by done.
  unfold configNames. by rewrite length_app, !length_fmap.
Qed.

Lemma exportWith_base_query cfg c s1 s2 tr p config w :
  NoDup (configNames cfg) →
  exportWith cfg c s1 s2 = (tr, p) →
  config ∈ baseTables cfg →
  EvQueryBegin (btTable config) w ∈ tr →
  ∃ tableObj,
    EXPORT_TABLES !! btTable config = Some tableObj
    ∧ w = Some (SqlEq (tableObj !! orDefault (btUserField config) "userId")
                  (VStr userId))
    ∧ ∀ env,
        holdsWhere env w = true ↔
        ∃ col, tableObj !! orDefault (btUserField config) "userId" = Some col
               ∧ sqlEqb (env col) (VStr userId) = true.
Proof.
  intros Hnames Hrun Hin Hev.
  destruct (NoDup_configNames _ Hnames) as (Hnb & _ & Hdisj).
  destruct (exportWith_query_begin _ _ _ _ _ _ _ _ _ _ _ Hrun Hev)
    as [(config' & tableObj & Hin' & Hname & Hsome & ->)
       |(config' & _ & Hin' & Hname & _)].
  - assert (config' = config) as ->
      by (by apply (NoDup_fmap_eq btTable (baseTables cfg))).
    exists tableObj. split; [done|]. split; [done|].
    intros env. unfold baseWhere, eq_. simpl.
    destruct (tableObj !! orDefault (btUserField config) "userId") as [col|].
    + split; [by eauto|]. by intros (? & [= <-] & ?).
    + split; [done|]. by intros (? & ? & _).
  - exfalso. apply (Hdisj (btTable config)).
    + by apply list_elem_of_fmap_2.
    + rewrite Hname. by apply list_elem_of_fmap_2.
Qed.

Lemma exportWith_no_source_log cfg c s1 s2 tr p source name :
  exportWith cfg c s1 s2 = (tr, p) →
  EvConsole (LogSourceNoData source name) ∉ tr.
Proof.
  intros Hrun Hin.
  assert (∀ n w, EvConsole (LogSourceNoData source name) ∉ queryEvents db n w) as Hq.
  { intros n w [?|[?|Heq]]%elem_of_queryEvents; try done.
    unfold queryLog in Heq. by destruct (db n w). }
  destruct (exportWith_events _ _ _ _ _ _ _ _ _ _ Hrun Hin)
    as [?|[Hb|(_ & [?|[?|Hr]])]]; try done.
  - apply elem_of_basePhaseEvents in Hb as (? & ? & _ & _ & Hb). by eapply Hq.
  - unfold relationPhaseEvents in Hr.
    apply list_elem_of_bind in Hr as (config & Hr & _).
    apply elem_of_relationEvents in Hr
      as [(_ & ?)|[(_ & ? & _ & _ & Hr)|(_ & _ & _ & ?)]]; [done| |done].
    by eapply Hq.
Qed.

Lemma baseResultsOf_tables cfg :
  Forall (λ config, is_Some (EXPORT_TABLES !! btTable config)) (baseTables cfg) →
  table <$> baseResultsOf cfg = btTable <$> baseTables cfg.
Proof.
  unfold baseResultsOf.
  induction (baseTables cfg) as [|config l IH]; intros Hreg; [done|].
  apply Forall_cons in Hreg as [[tableObj Hsome] Hreg].
  simpl. unfold baseOutcome at 1. rewrite Hsome. simpl. f_equal. by apply IH.
Qed.

Lemma exportWith_base_results_log cfg c s1 s2 tr r brs :
  NoDup (configNames cfg) →
  exportWith cfg c s1 s2 = (tr, Fulfilled r) →
  EvConsole (LogBaseResults brs) ∈ tr →
  table <$> brs = btTable <$> baseTables cfg
  ∧ ∀ td, td ∈ brs → r !! table td = Some (data td).
Proof.
  intros Hnames Hrun Hev.
  destruct (NoDup_configNames _ Hnames) as (Hnb & _ & Hdisj).
  assert (∀ n w, EvConsole (LogBaseResults brs) ∉ queryEvents db n w) as Hq.
  { intros n w [?|[?|Heq]]%elem_of_queryEvents; try done.
    unfold queryLog in Heq. by destruct (db n w). }
  assert (brs = baseResultsOf cfg) as ->.
  { apply (exportWith_fulfilled_events _ _ _ _ _ _ _ _ _ _ Hrun)
      in Hev as [?|[Hb|[Heq|[?|Hr]]]]; try done.
    - apply elem_of_basePhaseEvents in Hb as (? & ? & _ & _ & Hb). by edestruct Hq.
    - by injection Heq.
    - unfold relationPhaseEvents in Hr.
      apply list_elem_of_bind in Hr as (config & Hr & _).
      apply elem_of_relationEvents in Hr
        as [(_ & ?)|[(_ & ? & _ & _ & Hr)|(_ & _ & _ & ?)]]; [done| |done].
      by edestruct Hq. }
  destruct (exportWith_fulfilled _ _ _ _ _ _ _ _ _ Hrun)
    as (_ & _ & _ & _ & _ & -> & Hreg & _).
  pose proof (baseResultsOf_tables _ Hreg) as Htables.
  split; [done|].
  intros td Htd. unfold exported.
  rewrite storeResults_lookup_notin.
  - unfold basePhase. apply storeResults_lookup_in; [|done].
    fold (baseResultsOf cfg). by rewrite Htables.
  - intros Hin. apply (Hdisj (table td)).
    + rewrite <- Htables. by apply list_elem_of_fmap_2.
    + eapply elem_of_sublist; [done|apply relationResultsOf_names].
Qed.

(** In a fulfilled run, a query that ends, and a line that reports the
    end of a query, come with all events of that query. *)
Lemma exportWith_whole_query cfg c s1 s2 tr r ev :
  sourcesAreBaseTables cfg →
  exportWith cfg c s1 s2 = (tr, Fulfilled r) →
  ev ∈ tr →
  (∀ l, ev = EvConsole l →
        (∃ name n, l = LogExported name n) ∨ ∃ name e, l = LogQueryError name e) →
  ∃ name w,
    ev ∈ queryEvents db name w
    ∧ ∀ ev', ev' ∈ queryEvents db name w → ev' ∈ tr.
Proof.
  intros Hsources Hrun Hev Hkind.
  pose proof (λ ev, exportWith_fulfilled_events _ _ _ _ _ _ _ _ _ ev Hrun) as Hiff.
  apply Hiff in Hev as [->|[Hb|[->|[->|Hr]]]].
  - by destruct (Hkind _ eq_refl) as [(? & ? & ?)|(? & ? & ?)].
  - apply elem_of_basePhaseEvents in Hb as (config & tableObj & Hin & Hsome & Hb).
    eexists _, _. split; [exact Hb|].
    intros ev' Hev'. apply Hiff. right. left. apply elem_of_basePhaseEvents. eauto.
  - by destruct (Hkind _ eq_refl) as [(? & ? & ?)|(? & ? & ?)].
  - by destruct (Hkind _ eq_refl) as [(? & ? & ?)|(? & ? & ?)].
  - unfold relationPhaseEvents in Hr.
    apply list_elem_of_bind in Hr as (config & Hr & Hin).
    pose proof Hr as Hr'.
    pose proof (exportWith_sources_are_arrays EXPORT_TABLES db userId _ _ _ _ _ _
                  config Hrun (λ relation, Hsources config relation Hin)) as Harr.
    apply elem_of_relationEvents in Hr'
      as [(_ & ->)|[(Hall & tableObj & Hsome & _ & Hq)|(_ & ? & _)]]; [| |congruence].
    + by destruct (Hkind _ eq_refl) as [(? & ? & ?)|(? & ? & ?)].
    + eexists _, _. split; [exact Hq|].
      intros ev' Hev'. apply Hiff. do 4 right.
      unfold relationPhaseEvents. apply list_elem_of_bind. exists config.
      split; [|done]. apply elem_of_relationEvents. right. left. eauto.
Qed.

Lemma exportWith_logged_counts cfg c s1 s2 tr r :
  NoDup (configNames cfg) →
  sourcesAreBaseTables cfg →
  exportWith cfg c s1 s2 = (tr, Fulfilled r) →
  (∀ name n,
     EvConsole (LogExported name n) ∈ tr →
     ∃ rows rows',
       EvQueryEnd name (inr rows) ∈ tr
       ∧ length rows = n
       ∧ r !! name = Some rows'
       ∧ length rows' = n)
  ∧ (∀ name e,
       EvConsole (LogQueryError name e) ∈ tr →
       EvQueryEnd name (inl e) ∈ tr ∧ r !! name = Some []).
Proof.
  intros Hnames Hsources Hrun. split.
  - intros name n Hev.
    destruct (exportWith_whole_query _ _ _ _ _ _ _ Hsources Hrun Hev)
      as (name' & w & Hq & Hall).
    { intros l [= <-]. left. eauto. }
    apply elem_of_queryEvents in Hq as [?|[?|Heq]]; try done.
    injection Heq as Heq. unfold queryLog in Heq.
    destruct (db name' w) as [e|rows] eqn:Hdb; [done|]. injection Heq as -> ->.
    assert (EvQueryEnd name' (inr rows) ∈ tr) as Hend.
    { apply Hall, elem_of_queryEvents. right. left. by rewrite Hdb. }
    destruct (exportWith_query_end _ _ _ _ _ _ _ _ _ _ _ Hnames Hrun Hend)
      as (_ & [(_ & Hr)|(_ & Hr)]).
    + exists rows, (removeUserId rows).
      split_and!; [done..|apply length_map].
    + by exists rows, rows.
  - intros name e Hev.
    destruct (exportWith_whole_query _ _ _ _ _ _ _ Hsources Hrun Hev)
      as (name' & w & Hq & Hall).
    { intros l [= <-]. right. eauto. }
    apply elem_of_queryEvents in Hq as [?|[?|Heq]]; try done.
    injection Heq as Heq. unfold queryLog in Heq.
    destruct (db name' w) as [e'|rows] eqn:Hdb; [|done]. injection Heq as -> ->.
    assert (EvQueryEnd name' (inl e') ∈ tr) as Hend.
    { apply Hall, elem_of_queryEvents. right. left. by rewrite Hdb. }
    split; [done|].
    by destruct (exportWith_query_end _ _ _ _ _ _ _ _ _ _ _ Hnames Hrun Hend)
      as (_ & [(_ & Hr)|(_ & Hr)]).
Qed.

Lemma exportWith_base_entry cfg c s1 s2 tr r source o :
  NoDup (configNames cfg) →
  exportWith cfg c s1 s2 = (tr, Fulfilled r) →
  source ∈ btTable <$> baseTables cfg →
  EvQueryEnd source o ∈ tr →
  basePhase cfg !! source
  = Some (match o with inr rows => removeUserId rows | inl _ => [] end).
Proof.
  intros Hnames Hrun Hsource Hend.
  destruct (NoDup_configNames _ Hnames) as (_ & _ & Hdisj).
  destruct (exportWith_query_end _ _ _ _ _ _ _ _ _ _ _ Hnames Hrun Hend)
    as (_ & [(_ & Hr)|(Hrel & _)]); [|by edestruct Hdisj].
  destruct (exportWith_fulfilled _ _ _ _ _ _ _ _ _ Hrun)
    as (_ & _ & _ & _ & _ & -> & _).
  rewrite <- Hr. unfold exported.
  symmetry. apply storeResults_lookup_notin.
  intros Hin. apply (Hdisj source Hsource).
  eapply elem_of_sublist; [done|apply relationResultsOf_names].
Qed.

Lemma exportWith_skipped cfg c s1 s2 tr r config :
  NoDup (configNames cfg) →
  sourcesAreBaseTables cfg →
  exportWith cfg c s1 s2 = (tr, Fulfilled r) →
  config ∈ relationTables cfg →
  allSourcesHaveData (basePhase cfg) config = false →
  r !! rtTable config = Some []
  ∧ (∀ w, EvQueryBegin (rtTable config) w ∉ tr)
  ∧ EvConsole (LogSkipTable (rtTable config)) ∈ tr
  ∧ ∀ e, EvConsole (LogQueryError (rtTable config) e) ∉ tr.
Proof.
  intros Hnames Hsources Hrun Hin Hall.
  destruct (NoDup_configNames _ Hnames) as (_ & Hnr & Hdisj).
  assert (∀ w, EvQueryBegin (rtTable config) w ∉ tr) as Hnoquery.
  { intros w Hev.
    destruct (exportWith_query_begin _ _ _ _ _ _ _ _ _ _ _ Hrun Hev)
      as [(config' & _ & Hin' & Hname & _)
         |(config' & _ & Hin' & Hname & _ & Hall' & _)].
    - apply (Hdisj (rtTable config)).
      + rewrite Hname. by apply list_elem_of_fmap_2.
      + by apply list_elem_of_fmap_2.
    - assert (config' = config) as ->
        by (by apply (NoDup_fmap_eq rtTable (relationTables cfg))).
      congruence. }
  split_and!; [|done| |].
  - destruct (exportWith_fulfilled _ _ _ _ _ _ _ _ _ Hrun)
      as (_ & _ & _ & _ & _ & -> & _).
    by apply exported_lookup_skipped.
  - apply (exportWith_fulfilled_events _ _ _ _ _ _ _ _ _ _ Hrun). do 4 right.
    unfold relationPhaseEvents. apply list_elem_of_bind. exists config.
    split; [|done]. apply elem_of_relationEvents. by left.
  - intros e Hev.
    destruct (exportWith_whole_query _ _ _ _ _ _ _ Hsources Hrun Hev)
      as (name & w & Hq & Hwhole).
    { intros l [= <-]. right. eauto. }
    apply elem_of_queryEvents in Hq as [?|[?|Heq]]; try done.
    injection Heq as Heq. unfold queryLog in Heq.
    destruct (db name w); [|done]. injection Heq as <- _.
    apply (Hnoquery w), Hwhole, elem_of_queryEvents. by left.
Qed.

Lemma exportWith_failed_source cfg c s1 s2 tr r o config relation :
  NoDup (configNames cfg) →
  sourcesAreBaseTables cfg →
  exportWith cfg c s1 s2 = (tr, Fulfilled r) →
  config ∈ relationTables cfg →
  relation ∈ relations config →
  EvQueryEnd (sourceTable relation) o ∈ tr →
  match o with inr rows => rows = [] | inl _ => True end →
  r !! rtTable config = Some []
  ∧ (∀ w, EvQueryBegin (rtTable config) w ∉ tr)
  ∧ EvConsole (LogSkipTable (rtTable config)) ∈ tr
  ∧ ∀ e, EvConsole (LogQueryError (rtTable config) e) ∉ tr.
Proof.
  intros Hnames Hsources Hrun Hin Hrel Hend Ho.
  pose proof (Hsources config relation Hin Hrel) as Hsource.
  apply (exportWith_skipped cfg c s1 s2); try done.
  apply (allSourcesHaveData_false _ _ relation Hrel).
  rewrite (exportWith_base_entry _ _ _ _ _ _ _ _ Hnames Hrun Hsource Hend).
  destruct o as [e|rows]; [done|]. by rewrite Ho.
Qed.

Lemma sourceIds_removeUserId rows relation :
  orDefault (sourceField relation) "id" ≠ "userId" →
  sourceIds (removeUserId rows) relation
  = map (λ item, getProp item (orDefault (sourceField relation) "id")) rows.
Proof.
  intros Hne. unfold sourceIds, removeUserId. rewrite map_map.
  apply map_ext. intros item. unfold getProp. by rewrite lookup_delete_ne.
Qed.

Lemma exportWith_filter_values cfg c s1 s2 tr r config w :
  NoDup (configNames cfg) →
  (∀ relation, relation ∈ relations config →
     sourceTable relation ∈ btTable <$> baseTables cfg
     ∧ orDefault (sourceField relation) "id" ≠ "userId") →
  exportWith cfg c s1 s2 = (tr, Fulfilled r) →
  config ∈ relationTables cfg →
  EvQueryBegin (rtTable config) w ∈ tr →
  ∃ tableObj conditions,
    EXPORT_TABLES !! rtTable config = Some tableObj
    ∧ w = combine conditions
    ∧ Forall2
        (λ relation condition,
           ∃ rows,
             rows ≠ []
             ∧ EvQueryEnd (sourceTable relation) (inr rows) ∈ tr
             ∧ condition
               = inArray (tableObj !! propKey (field relation))
                   (map (λ item, getProp item (orDefault (sourceField relation) "id"))
                      rows))
        (relations config) conditions.
Proof.
  intros Hnames Hsources Hrun Hin Hev.
  destruct (NoDup_configNames _ Hnames) as (Hnb & Hnr & Hdisj).
  destruct (exportWith_fulfilled _ _ _ _ _ _ _ _ _ Hrun)
    as (_ & _ & _ & _ & _ & _ & Hreg & _).
  destruct (exportWith_query_begin _ _ _ _ _ _ _ _ _ _ _ Hrun Hev)
    as [(config' & _ & Hin' & Hname & _)
       |(config' & tableObj & Hin' & Hname & Hsome & Hall & ->)].
  { exfalso. apply (Hdisj (rtTable config)).
    - rewrite Hname. by apply list_elem_of_fmap_2.
    - by apply list_elem_of_fmap_2. }
  assert (config' = config) as ->
    by (by apply (NoDup_fmap_eq rtTable (relationTables cfg))).
  exists tableObj, (relationCondition tableObj (basePhase cfg) <$> relations config).
  split; [done|]. split; [done|].
  apply Forall2_fmap_r, Forall_Forall2_diag, Forall_forall.
  intros relation Hrel.
  destruct (Hsources relation Hrel) as [Hsource Hfield].
  apply list_elem_of_fmap in Hsource as (b & Hb & Hbin).
  rewrite Forall_forall in Hreg. destruct (Hreg b Hbin) as [tableObj' Hsome'].
  pose proof (basePhase_lookup EXPORT_TABLES db userId cfg b tableObj' Hnb Hbin Hsome')
    as Hlookup.
  unfold allSourcesHaveData in Hall. rewrite forallb_forall in Hall.
  pose proof (Hall relation (proj1 (list_elem_of_In _ _) Hrel)) as Hdata.
  pose proof Hlookup as Hown. rewrite <- Hb in Hown.
  rewrite (sourceHasData_own _ _ _ Hown) in Hdata. apply bool_decide_eq_true in Hdata.
  unfold baseRows in Hdata.
  destruct (db (btTable b) (baseWhere userId tableObj' b)) as [e|rows] eqn:Hdb;
    [simpl in Hdata; lia|].
  exists rows. split_and!.
  - intros ->. simpl in Hdata. lia.
  - rewrite Hb, <- Hdb.
    apply (exportWith_fulfilled_events _ _ _ _ _ _ _ _ _ _ Hrun). right. left.
    apply elem_of_basePhaseEvents. exists b, tableObj'. split_and!; [done..|].
    apply elem_of_queryEvents. by right; left.
  - unfold relationCondition. rewrite Hb, Hlookup. simpl. unfold baseRows.
    rewrite Hdb. by rewrite sourceIds_removeUserId.
Qed.

End FurtherRuns.

(** ** Further properties of [export] *)

Section ExporterProperties.

Variable EXPORT_TABLES : gmap string TableObj.
Variable db : string → option SQL → QueryOutcome.
Variable userId : string.

#[local] Abbreviation export := (export EXPORT_TABLES db userId).

(** X1: what a fulfilled export returns does not depend on the
    concurrency nor on the order in which the queries settle.  A second
    run over the same registry and database returns the same object and
    shows the same events in some order, unless it is refused for a
    concurrency of zero or has not settled yet. *)
Theorem export_result_does_not_depend_on_schedule
    concurrency sched1 sched2 tr r concurrency' sched1' sched2' tr' p' :
  export concurrency sched1 sched2 = (tr, Fulfilled r) →
  export concurrency' sched1' sched2' = (tr', p') →
  match p' with
  | Fulfilled r' => r' = r ∧ tr' ≡ₚ tr
  | Rejected e => concurrency' = 0 ∧ e = PMapTypeError
  | Unsettled => length sched1' < 34 ∨ length sched2' < 22
  end.
Proof.
  intros Hrun Hrun'.
  exact (exportWith_same_result EXPORT_TABLES db userId DATA_EXPORT_CONFIG
           concurrency sched1 sched2 tr r concurrency' sched1' sched2' tr' p'
           Hrun Hrun').
Qed.

(** X2: at every point of a run of [export], the queries that have begun
    and not yet ended are at most [concurrency]; and when the export is
    fulfilled, every query that has begun has ended. *)
Theorem export_keeps_queries_in_flight_within_concurrency concurrency sched1 sched2 :
  (∀ n, (0 ≤ inFlight (take n (fst (export concurrency sched1 sched2)))
           ≤ Z.of_nat concurrency)%Z)
  ∧ ∀ r, snd (export concurrency sched1 sched2) = Fulfilled r →
      inFlight (fst (export concurrency sched1 sched2)) = 0%Z.
Proof.
  exact (exportWith_inFlight EXPORT_TABLES db userId DATA_EXPORT_CONFIG
           concurrency sched1 sched2).
Qed.

(** X3: a run of [export] queries no table twice, and no table that is
    not configured: of every table, at most one query begins and at most
    one ends, and none when the table is not in the configuration. *)
Theorem export_queries_each_configured_table_at_most_once
    concurrency sched1 sched2 name :
  countEvents (isBeginOf name) (fst (export concurrency sched1 sched2))
    ≤ (if bool_decide (name ∈ configNames DATA_EXPORT_CONFIG) then 1 else 0)
  ∧ countEvents (isEndOf name) (fst (export concurrency sched1 sched2))
    ≤ (if bool_decide (name ∈ configNames DATA_EXPORT_CONFIG) then 1 else 0).
Proof.
  exact (exportWith_query_counts EXPORT_TABLES db userId DATA_EXPORT_CONFIG
           concurrency sched1 sched2 name DATA_EXPORT_CONFIG_names).
Qed.

(** X4: with a concurrency of at least one, which [pMap] accepts, an
    export is rejected for one reason only: the error is [Table .. not
    found] for a configured table that the registry lacks, and that table
    was not queried.  An error of the database never rejects the
    export. *)
Theorem export_is_rejected_only_for_unregistered_table
    concurrency sched1 sched2 tr e :
  1 ≤ concurrency →
  export concurrency sched1 sched2 = (tr, Rejected e) →
  ∃ name,
    name ∈ configNames DATA_EXPORT_CONFIG
    ∧ EXPORT_TABLES !! name = None
    ∧ e = TableNotFound name
    ∧ (∀ w, EvQueryBegin name w ∉ tr)
    ∧ ∀ msg, e ≠ DbError msg.
Proof.
  intros Hc Hrun.
  destruct (exportWith_rejected_cause EXPORT_TABLES db userId DATA_EXPORT_CONFIG
              concurrency sched1 sched2 tr e Hrun)
    as [(Hzero & _)|(_ & name & Hname & Hnone & -> & Hquery)]; [lia|].
  exists name. by split_and!.
Qed.

(** X5: the object a fulfilled export returns has the configured tables
    as its keys and no other key: twenty-eight entries. *)
Theorem export_keys_are_exactly_the_configured_tables
    concurrency sched1 sched2 tr r :
  export concurrency sched1 sched2 = (tr, Fulfilled r) →
  (∀ name, is_Some (r !! name) ↔ name ∈ configNames DATA_EXPORT_CONFIG)
  ∧ size r = 28.
Proof.
  intros Hrun.
  exact (exportWith_key_set EXPORT_TABLES db userId DATA_EXPORT_CONFIG
           concurrency sched1 sched2 tr r DATA_EXPORT_CONFIG_names Hrun).
Qed.

(** X6: every query of a base table asks for the rows whose owner column
    equals the user id of the repository, and for nothing else.  The owner
    column is the table's property named by [userField], or [userId] when
    the configuration gives none or an empty one; when the table has no
    such property the condition is built on [undefined]. *)
Theorem base_query_filters_by_owner_field
    concurrency sched1 sched2 tr p config w :
  export concurrency sched1 sched2 = (tr, p) →
  config ∈ baseTables DATA_EXPORT_CONFIG →
  EvQueryBegin (btTable config) w ∈ tr →
  ∃ tableObj,
    EXPORT_TABLES !! btTable config = Some tableObj
    ∧ w = Some (SqlEq (tableObj !! orDefault (btUserField config) "userId")
                  (VStr userId))
    ∧ ∀ env,
        holdsWhere env w = true ↔
        ∃ col, tableObj !! orDefault (btUserField config) "userId" = Some col
               ∧ sqlEqb (env col) (VStr userId) = true.
Proof.
  intros Hrun Hin Hev.
  exact (exportWith_base_query EXPORT_TABLES db userId DATA_EXPORT_CONFIG
           concurrency sched1 sched2 tr p config w DATA_EXPORT_CONFIG_names
           Hrun Hin Hev).
Qed.

(** X7: the values a relation table is filtered by are read from the rows
    its sources' queries returned.  When a relation table is queried in a
    fulfilled export, its filter combines one condition per declared
    relation, in the order of the declaration; for each relation the query
    of the source table has returned rows, at least one, and the condition
    asks that the column of [field] be one of the values these rows have
    in [sourceField] (in [id] when the relation names none), one value
    per row in the order of the rows: removing [userId] from the source
    rows has changed none of them. *)
Theorem relation_filter_values_come_from_source_rows
    concurrency sched1 sched2 tr r config w :
  export concurrency sched1 sched2 = (tr, Fulfilled r) →
  config ∈ relationTables DATA_EXPORT_CONFIG →
  EvQueryBegin (rtTable config) w ∈ tr →
  ∃ tableObj conditions,
    EXPORT_TABLES !! rtTable config = Some tableObj
    ∧ w = combine conditions
    ∧ Forall2
        (λ relation condition,
           ∃ rows,
             rows ≠ []
             ∧ EvQueryEnd (sourceTable relation) (inr rows) ∈ tr
             ∧ condition
               = inArray (tableObj !! propKey (field relation))
                   (map (λ item, getProp item (orDefault (sourceField relation) "id"))
                      rows))
        (relations config) conditions.
Proof.
  intros Hrun Hin Hev.
  exact (exportWith_filter_values EXPORT_TABLES db userId DATA_EXPORT_CONFIG
           concurrency sched1 sched2 tr r config w DATA_EXPORT_CONFIG_names
           (λ relation, DATA_EXPORT_CONFIG_sources config relation Hin) Hrun Hin Hev).
Qed.

(** X8: a source table whose query raised, or returned no row, empties
    every relation table that declares it.  In a fulfilled export such a
    relation table gets the empty set, it is not queried, the run logs
    that it is skipped, and no error is logged for it. *)
Theorem failed_source_query_empties_dependent_tables
    concurrency sched1 sched2 tr r o config relation :
  export concurrency sched1 sched2 = (tr, Fulfilled r) →
  config ∈ relationTables DATA_EXPORT_CONFIG →
  relation ∈ relations config →
  EvQueryEnd (sourceTable relation) o ∈ tr →
  match o with inr rows => rows = [] | inl _ => True end →
  r !! rtTable config = Some []
  ∧ (∀ w, EvQueryBegin (rtTable config) w ∉ tr)
  ∧ EvConsole (LogSkipTable (rtTable config)) ∈ tr
  ∧ ∀ e, EvConsole (LogQueryError (rtTable config) e) ∉ tr.
Proof.
  intros Hrun Hin Hrel Hend Ho.
  exact (exportWith_failed_source EXPORT_TABLES db userId DATA_EXPORT_CONFIG
           concurrency sched1 sched2 tr r o config relation
           DATA_EXPORT_CONFIG_names DATA_EXPORT_CONFIG_base_sources
           Hrun Hin Hrel Hend Ho).
Qed.

(** X9: the check of [queryTable] for a source without data never fires
    in an export.  The relation mapper has tested the same sources on the
    same object before it calls [queryTable], so no event of a run of
    [export] is the line [Source table .. has no data, skipping query for
    ..]. *)
Theorem export_never_logs_source_without_data concurrency sched1 sched2 :
  Forall (λ ev, ∀ source name, ev ≠ EvConsole (LogSourceNoData source name))
    (fst (export concurrency sched1 sched2)).
Proof.
  destruct (export concurrency sched1 sched2) as [tr p] eqn:Hrun.
  apply Forall_forall. intros ev Hev source name ->. revert Hev.
  exact (exportWith_no_source_log EXPORT_TABLES db userId DATA_EXPORT_CONFIG
           concurrency sched1 sched2 tr p source name Hrun).
Qed.

(** X10: the array logged as [baseResults] lists the base tables in the
    order of the configuration, whatever the order in which their queries
    settled, and each of its elements holds the rows the export returns
    for its table: the relation phase overwrites no entry of the base
    phase. *)
Theorem base_results_log_lists_what_is_returned
    concurrency sched1 sched2 tr r baseResults :
  export concurrency sched1 sched2 = (tr, Fulfilled r) →
  EvConsole (LogBaseResults baseResults) ∈ tr →
  table <$> baseResults = btTable <$> baseTables DATA_EXPORT_CONFIG
  ∧ ∀ td, td ∈ baseResults → r !! table td = Some (data td).
Proof.
  intros Hrun Hev.
  exact (exportWith_base_results_log EXPORT_TABLES db userId DATA_EXPORT_CONFIG
           concurrency sched1 sched2 tr r baseResults DATA_EXPORT_CONFIG_names
           Hrun Hev).
Qed.

(** X11: the console tells what the export returns.  In a fulfilled
    export, a line [Successfully exported table: .., count: n] comes from
    a query of that table that returned [n] rows, and the entry of the
    table has [n] rows; a line [Error querying table ..] comes from a
    query of that table that raised the error logged, and the entry of the
    table is empty. *)
Theorem logged_count_is_number_of_rows_exported concurrency sched1 sched2 tr r :
  export concurrency sched1 sched2 = (tr, Fulfilled r) →
  (∀ name n,
     EvConsole (LogExported name n) ∈ tr →
     ∃ rows rows',
       EvQueryEnd name (inr rows) ∈ tr
       ∧ length rows = n
       ∧ r !! name = Some rows'
       ∧ length rows' = n)
  ∧ (∀ name e,
       EvConsole (LogQueryError name e) ∈ tr →
       EvQueryEnd name (inl e) ∈ tr ∧ r !! name = Some []).
Proof.
  intros Hrun.
  exact (exportWith_logged_counts EXPORT_TABLES db userId DATA_EXPORT_CONFIG
           concurrency sched1 sched2 tr r DATA_EXPORT_CONFIG_names
           DATA_EXPORT_CONFIG_base_sources Hrun).
Qed.

End ExporterProperties.

(** ** A relation table without relations *)

Section NoRelations.

Variable EXPORT_TABLES : gmap string TableObj.
Variable db : string → option SQL → QueryOutcome.
Variable userId : string.

(** X12: a relation table that declares no relation passes the check of
    its sources, no condition is collected and the owner condition is
    never added, so [and()] yields no filter: the table is read whole,
    whether or not it has a [userId] column, and its rows are returned as
    they are. *)
Theorem relation_table_without_relations_is_read_unfiltered
    (result : ExportResult) config tableObj :
  relations config = [] →
  EXPORT_TABLES !! rtTable config = Some tableObj →
  events db (relationMapper EXPORT_TABLES userId result config)
  = [EvQueryBegin (rtTable config) None;
     EvQueryEnd (rtTable config) (db (rtTable config) None);
     EvConsole (match db (rtTable config) None with
                | inr rows => LogExported (rtTable config) (length rows)
                | inl e => LogQueryError (rtTable config) e
                end)]
  ∧ outcome db (relationMapper EXPORT_TABLES userId result config)
    = inr {| data := match db (rtTable config) None with
                     | inr rows => rows
                     | inl _ => []
                     end;
             table := rtTable config |}.
Proof.
  intros Hrels Hsome.
  rewrite events_relationMapper, outcome_relationMapper.
  unfold relationEvents, relationOutcome, allSourcesHaveData, sourcesAreArrays,
    relationRows, relationWhere.
  rewrite Hrels, Hsome. simpl. done.
Qed.

End NoRelations.

(** ** Two databases *)

Section TwoDatabases.

Variable EXPORT_TABLES : gmap string TableObj.
Variable db db' : string → option SQL → QueryOutcome.
Variable userId : string.

Lemma relationOutcome_agree (result result' : ExportResult) config :
  (∀ relation, relation ∈ relations config →
     result !! sourceTable relation = result' !! sourceTable relation) →
  (∀ w, db (rtTable config) w = db' (rtTable config) w) →
  relationOutcome EXPORT_TABLES db result config
  = relationOutcome EXPORT_TABLES db' result' config.
Proof.
  intros Hsources Hdb.
  assert (allSourcesHaveData result config = allSourcesHaveData result' config) as Hall.
  { unfold allSourcesHaveData.
    induction (relations config) as [|relation rels IH]; [done|]. simpl.
    rewrite IH by (intros; apply Hsources; by apply list_elem_of_further).
    unfold sourceHasData, readResult.
    by rewrite (Hsources relation (list_elem_of_here _ _)). }
  assert (sourcesAreArrays result config = sourcesAreArrays result' config) as Harr.
  { unfold sourcesAreArrays.
    induction (relations config) as [|relation rels IH]; [done|]. simpl.
    rewrite IH by (intros; apply Hsources; by apply list_elem_of_further).
    by rewrite (Hsources relation (list_elem_of_here _ _)). }
  assert (∀ tableObj,
            relationWhere tableObj result config = relationWhere tableObj result' config)
    as Hwhere.
  { intros tableObj. unfold relationWhere. f_equal.
    apply list_fmap_ext. intros i relation Hi. unfold relationCondition.
    by rewrite (Hsources relation (list_elem_of_lookup_2 _ _ _ Hi)). }
  unfold relationOutcome. rewrite Hall, Harr.
  destruct (allSourcesHaveData result' config); [|done].
  destruct (EXPORT_TABLES !! rtTable config) as [tableObj|]; [|done].
  unfold relationRows. by rewrite Hwhere, Hdb.
Qed.

Lemma exported_agree cfg name :
  NoDup (configNames cfg) →
  Forall (λ config, is_Some (EXPORT_TABLES !! btTable config)) (baseTables cfg) →
  Forall (λ config,
            ∃ td, relationOutcome EXPORT_TABLES db
                    (basePhase EXPORT_TABLES db userId cfg) config = inr td)
    (relationTables cfg) →
  (∀ w, db name w = db' name w) →
  (∀ config relation,
     config ∈ relationTables cfg → rtTable config = name →
     relation ∈ relations config →
     ∀ w, db (sourceTable relation) w = db' (sourceTable relation) w) →
  exported EXPORT_TABLES db userId cfg !! name
  = exported EXPORT_TABLES db' userId cfg !! name.
Proof.
  intros Hnames Hreg Hrel Hdb Hsources.
  destruct (NoDup_configNames _ Hnames) as (Hnb & Hnr & Hdisj).
  rewrite Forall_forall in Hreg. rewrite Forall_forall in Hrel.
  assert (∀ source, (∀ w, db source w = db' source w) →
            basePhase EXPORT_TABLES db userId cfg !! source
            = basePhase EXPORT_TABLES db' userId cfg !! source) as Hbase.
  { intros source Hsource.
    destruct (decide (source ∈ btTable <$> baseTables cfg)) as [Hin|Hin].
    - apply list_elem_of_fmap in Hin as (b & -> & Hb).
      destruct (Hreg b Hb) as [tableObj Hsome].
      rewrite !(basePhase_lookup _ _ _ _ _ tableObj) by done.
      unfold baseRows. by rewrite Hsource.
    - by rewrite !basePhase_lookup_None. }
  destruct (decide (name ∈ rtTable <$> relationTables cfg)) as [Hin|Hin].
  - apply list_elem_of_fmap in Hin as (config & -> & Hconfig).
    destruct (Hrel config Hconfig) as [td Htd].
    assert (relationOutcome EXPORT_TABLES db'
              (basePhase EXPORT_TABLES db' userId cfg) config = inr td) as Htd'.
    { rewrite <- Htd. symmetry. apply relationOutcome_agree; [|done].
      intros relation Hrelation. apply Hbase. by apply (Hsources config). }
    by rewrite (exported_lookup_relation _ db _ _ _ td),
               (exported_lookup_relation _ db' _ _ _ td).
  - unfold exported.
    rewrite !storeResults_lookup_notin.
    + by apply Hbase.
    + intros ?. apply Hin. eapply elem_of_sublist; [done|apply relationResultsOf_names].
    + intros ?. apply Hin. eapply elem_of_sublist; [done|apply relationResultsOf_names].
Qed.

(** X13: the entry of a table depends on the database only through the
    query of that table and the queries of its declared sources.  Two
    fulfilled exports over databases that answer these queries alike
    return the same rows for the table, whatever the databases answer for
    the other tables, and whatever the schedules. *)
Theorem entry_depends_only_on_table_and_its_sources
    concurrency sched1 sched2 tr r concurrency' sched1' sched2' tr' r' name :
  export EXPORT_TABLES db userId concurrency sched1 sched2 = (tr, Fulfilled r) →
  export EXPORT_TABLES db' userId concurrency' sched1' sched2' = (tr', Fulfilled r') →
  (∀ w, db name w = db' name w) →
  (∀ config relation,
     config ∈ relationTables DATA_EXPORT_CONFIG → rtTable config = name →
     relation ∈ relations config →
     ∀ w, db (sourceTable relation) w = db' (sourceTable relation) w) →
  r !! name = r' !! name.
Proof.
  intros Hrun Hrun' Hdb Hsources.
  destruct (exportWith_fulfilled _ _ _ _ _ _ _ _ _ Hrun)
    as (_ & _ & _ & _ & _ & -> & Hreg & Hrel).
  destruct (exportWith_fulfilled _ _ _ _ _ _ _ _ _ Hrun')
    as (_ & _ & _ & _ & _ & -> & _).
  by apply (exported_agree DATA_EXPORT_CONFIG name DATA_EXPORT_CONFIG_names).
Qed.

End TwoDatabases.

(** ** The result in closed form *)

Section ClosedForm.

Variable EXPORT_TABLES : gmap string TableObj.
Variable db : string → option SQL → QueryOutcome.
Variable userId : string.

#[local] Abbreviation exportWith := (exportWith EXPORT_TABLES db userId).
#[local] Abbreviation basePhase := (basePhase EXPORT_TABLES db userId).
#[local] Abbreviation exported := (exported EXPORT_TABLES db userId).
#[local] Abbreviation relationOutcome := (relationOutcome EXPORT_TABLES db).
#[local] Abbreviation export := (export EXPORT_TABLES db userId).

Lemma exported_lookup_source cfg source :
  source ∉ rtTable <$> relationTables cfg →
  exported cfg !! source = basePhase cfg !! source.
Proof.
  intros Hnot. unfold exported. apply storeResults_lookup_notin.
  intros Hin. apply Hnot.
  eapply elem_of_sublist; [done|apply relationResultsOf_names].
Qed.

Lemma exportWith_closed_form cfg c s1 s2 tr r :
  NoDup (configNames cfg) →
  sourcesAreBaseTables cfg →
  exportWith cfg c s1 s2 = (tr, Fulfilled r) →
  (∀ config,
     config ∈ baseTables cfg →
     ∃ tableObj,
       EXPORT_TABLES !! btTable config = Some tableObj
       ∧ r !! btTable config
         = Some (match db (btTable config)
                         (Some (eq_ (tableObj !! orDefault (btUserField config) "userId")
                                  (VStr userId))) with
                 | inr rows => removeUserId rows
                 | inl _ => []
                 end))
  ∧ (∀ config,
       config ∈ relationTables cfg →
       (forallb (sourceHasData r) (relations config) = false
        ∧ r !! rtTable config = Some [])
       ∨ (forallb (sourceHasData r) (relations config) = true
          ∧ ∃ tableObj,
              EXPORT_TABLES !! rtTable config = Some tableObj
              ∧ r !! rtTable config
                = Some (match db (rtTable config)
                                (combine
                                   ((λ relation,
                                       inArray (tableObj !! propKey (field relation))
                                         (sourceIds
                                            (default [] (r !! sourceTable relation))
                                            relation))
                                      <$> relations config)) with
                        | inr rows => rows
                        | inl _ => []
                        end))).
Proof.
  intros Hnames Hbase Hrun.
  destruct (NoDup_configNames _ Hnames) as (_ & _ & Hdisj).
  assert (∀ config relation,
            config ∈ relationTables cfg → relation ∈ relations config →
            sourceTable relation ∉ rtTable <$> relationTables cfg) as Hsources.
  { intros config relation Hin Hrelation. by eapply Hdisj, Hbase. }
  destruct (exportWith_fulfilled _ _ _ _ _ _ _ _ _ Hrun)
    as (_ & _ & _ & _ & _ & -> & Hregistered & Hrel).
  pose proof Hregistered as Hreg.
  rewrite Forall_forall in Hreg. rewrite Forall_forall in Hrel.
  split.
  - intros config Hin. destruct (Hreg config Hin) as [tableObj Hsome].
    exists tableObj. split; [done|].
    by rewrite (exported_lookup_base _ _ _ _ _ tableObj).
  - intros config Hin. destruct (Hrel config Hin) as [td Htd].
    rewrite (exported_lookup_relation _ _ _ _ _ td) by done.
    assert (relationOutcome (exported cfg) config = inr td) as Htd'.
    { rewrite <- Htd. apply relationOutcome_agree; [|done].
      intros relation Hrelation. apply exported_lookup_source. by eapply Hsources. }
    assert (sourcesAreArrays (exported cfg) config = true) as Harr.
    { unfold sourcesAreArrays. apply forallb_forall.
      intros relation Hrelation%list_elem_of_In. apply bool_decide_eq_true_2.
      rewrite exported_lookup_source by (by eapply Hsources).
      apply basePhase_is_Some; [done|]. by eapply Hbase. }
    unfold relationOutcome in Htd'. rewrite Harr in Htd'.
    unfold allSourcesHaveData in Htd'.
    destruct (forallb (sourceHasData (exported cfg)) (relations config)).
    + right. split; [done|].
      destruct (EXPORT_TABLES !! rtTable config) as [tableObj|]; [|done].
      exists tableObj. split; [done|]. by injection Htd' as <-.
    + left. split; [done|]. by injection Htd' as <-.
Qed.

(** X14: what a fulfilled export returns, table by table.  The entry of
    a base table is what the query of the table with its owner condition
    returned, without the [userId] fields, or the empty list when the
    query raised.  The entry of a relation table is empty when one of its
    sources has an empty entry in the same object; otherwise it is what
    the query of the table returned, unchanged, for the conditions built
    from the entries of its sources in the same object, or the empty list
    when that query raised. *)
Theorem export_entries_in_closed_form concurrency sched1 sched2 tr r :
  export concurrency sched1 sched2 = (tr, Fulfilled r) →
  (∀ config,
     config ∈ baseTables DATA_EXPORT_CONFIG →
     ∃ tableObj,
       EXPORT_TABLES !! btTable config = Some tableObj
       ∧ r !! btTable config
         = Some (match db (btTable config)
                         (Some (eq_ (tableObj !! orDefault (btUserField config) "userId")
                                  (VStr userId))) with
                 | inr rows => removeUserId rows
                 | inl _ => []
                 end))
  ∧ (∀ config,
       config ∈ relationTables DATA_EXPORT_CONFIG →
       (forallb (sourceHasData r) (relations config) = false
        ∧ r !! rtTable config = Some [])
       ∨ (forallb (sourceHasData r) (relations config) = true
          ∧ ∃ tableObj,
              EXPORT_TABLES !! rtTable config = Some tableObj
              ∧ r !! rtTable config
                = Some (match db (rtTable config)
                                (combine
                                   ((λ relation,
                                       inArray (tableObj !! propKey (field relation))
                                         (sourceIds
                                            (default [] (r !! sourceTable relation))
                                            relation))
                                      <$> relations config)) with
                        | inr rows => rows
                        | inl _ => []
                        end))).
Proof.
  intros Hrun.
  exact (exportWith_closed_form DATA_EXPORT_CONFIG concurrency sched1 sched2 tr r
           DATA_EXPORT_CONFIG_names DATA_EXPORT_CONFIG_base_sources Hrun).
Qed.

End ClosedForm.

(** ** Every table exactly once *)

Section ExactlyOnce.

Variable EXPORT_TABLES : gmap string TableObj.
Variable db : string → option SQL → QueryOutcome.
Variable userId : string.

#[local] Abbreviation exportWith := (exportWith EXPORT_TABLES db userId).
#[local] Abbreviation basePhase := (basePhase EXPORT_TABLES db userId).
#[local] Abbreviation basePhaseEvents := (basePhaseEvents EXPORT_TABLES db userId).
#[local] Abbreviation relationPhaseEvents := (relationPhaseEvents EXPORT_TABLES db userId).
#[local] Abbreviation relationOutcome := (relationOutcome EXPORT_TABLES db).
#[local] Abbreviation export := (export EXPORT_TABLES db userId).

Lemma countEvents_skip_queryEvents name name' where_ :
  countEvents (isSkipOf name) (queryEvents db name' where_) = 0.
Proof.
  unfold countEvents, queryEvents, queryLog. simpl. by destruct (db name' where_).
Qed.

Lemma countEvents_skip_basePhase cfg name :
  countEvents (isSkipOf name) (basePhaseEvents cfg) = 0.
Proof.
  apply countEvents_none. intros ev Hev.
  apply elem_of_basePhaseEvents in Hev as (config & tableObj & _ & _ & Hev).
  apply elem_of_queryEvents in Hev as [-> | [-> | ->]]; try done.
  unfold queryLog. by destruct (db _ _).
Qed.

Lemma sum_list_with_add {C} (f g : C → nat) (l : list C) :
  sum_list_with (λ x, f x + g x) l = sum_list_with f l + sum_list_with g l.
Proof. induction l as [|x l IH]; simpl; [done|]. rewrite IH. lia. Qed.

(** Of a relation table whose mapper returns, the events hold either one
    query or one skip line. *)
Lemma countEvents_relationEvents result config name td :
  sourcesAreArrays result config = true →
  relationOutcome result config = inr td →
  countEvents (isBeginOf name) (relationEvents EXPORT_TABLES db result config)
  + countEvents (isSkipOf name) (relationEvents EXPORT_TABLES db result config)
  = (if String.eqb (rtTable config) name then 1 else 0)
  ∧ countEvents (isEndOf name) (relationEvents EXPORT_TABLES db result config)
    = countEvents (isBeginOf name) (relationEvents EXPORT_TABLES db result config).
Proof.
  unfold relationOutcome, relationEvents. intros -> Htd.
  destruct (allSourcesHaveData result config).
  - destruct (EXPORT_TABLES !! rtTable config) as [tableObj|]; [|done].
    destruct (countEvents_queryEvents db name (rtTable config)
                (relationWhere tableObj result config)) as [-> ->].
    rewrite countEvents_skip_queryEvents. split; [lia|done].
  - unfold countEvents. simpl. split; [|done].
    destruct (String.eqb (rtTable config) name); lia.
Qed.

Lemma exportWith_exactly_once cfg c s1 s2 tr r :
  NoDup (configNames cfg) →
  sourcesAreBaseTables cfg →
  exportWith cfg c s1 s2 = (tr, Fulfilled r) →
  (∀ config,
     config ∈ baseTables cfg →
     countEvents (isBeginOf (btTable config)) tr = 1
     ∧ countEvents (isEndOf (btTable config)) tr = 1)
  ∧ (∀ config,
       config ∈ relationTables cfg →
       countEvents (isBeginOf (rtTable config)) tr
       + countEvents (isSkipOf (rtTable config)) tr = 1
       ∧ countEvents (isEndOf (rtTable config)) tr
         = countEvents (isBeginOf (rtTable config)) tr).
Proof.
  intros Hnames Hsources Hrun.
  destruct (NoDup_configNames _ Hnames) as (Hnb & Hnr & Hdisj).
  destruct (exportWith_fulfilled _ _ _ _ _ _ _ _ _ Hrun)
    as (tr1 & tr2 & -> & Htr1 & Htr2 & _ & Hreg & Hrel).
  assert (∀ config, config ∈ relationTables cfg →
                    sourcesAreArrays (basePhase cfg) config = true) as Harr.
  { intros config Hin. apply sourcesAreArrays_basePhase; [done|].
    intros relation. by apply Hsources. }
  assert (∀ f, (∀ l, f (EvConsole l) = false ∨ ∃ n, l = LogSkipTable n) →
            countEvents f
              (EvConsole LogQueryingBase :: tr1
                 ++ EvConsole (LogBaseResults (baseResultsOf EXPORT_TABLES db userId cfg))
                 :: EvConsole LogQueryingRelation :: tr2)
            = countEvents f (basePhaseEvents cfg)
              + countEvents f (relationPhaseEvents cfg)) as Hsplit.
  { intros f Hf.
    rewrite <- (countEvents_Permutation f _ _ Htr1),
            <- (countEvents_Permutation f _ _ Htr2).
    unfold countEvents. simpl. rewrite sum_list_with_app. simpl.
    destruct (Hf LogQueryingBase) as [->|(? & ?)]; [|done].
    destruct (Hf (LogBaseResults (baseResultsOf EXPORT_TABLES db userId cfg)))
      as [->|(? & ?)]; [|done].
    destruct (Hf LogQueryingRelation) as [->|(? & ?)]; [|done]. lia. }
  split.
  - intros config Hin.
    destruct (countEvents_basePhase EXPORT_TABLES db userId cfg config Hnb Hreg Hin)
      as [Hb He].
    assert (btTable config ∉ rtTable <$> relationTables cfg) as Hnot
      by (apply Hdisj; by apply list_elem_of_fmap_2).
    rewrite !Hsplit by (intros l; by left). rewrite Hb, He.
    rewrite !(countEvents_none _ (relationPhaseEvents cfg)); [done|..].
    + intros ev Hev.
      by destruct (relationPhaseEvents_names EXPORT_TABLES db userId cfg _ ev Hnot Hev).
    + intros ev Hev.
      by destruct (relationPhaseEvents_names EXPORT_TABLES db userId cfg _ ev Hnot Hev).
  - intros config Hin.
    assert (rtTable config ∉ btTable <$> baseTables cfg) as Hnot.
    { intros Hb. apply (Hdisj _ Hb). by apply list_elem_of_fmap_2. }
    rewrite !Hsplit; [|intros l; by left|intros l; destruct l; by eauto|intros l; by left].
    rewrite countEvents_skip_basePhase.
    rewrite !(countEvents_none _ (basePhaseEvents cfg)); [|intros ev Hev..].
    2: by destruct (basePhaseEvents_names EXPORT_TABLES db userId cfg _ ev Hnot Hev).
    2: by destruct (basePhaseEvents_names EXPORT_TABLES db userId cfg _ ev Hnot Hev).
    simpl. unfold relationPhaseEvents. rewrite !countEvents_bind.
    rewrite <- sum_list_with_add.
    rewrite Forall_forall in Hrel.
    split.
    + rewrite <- (sum_indicator rtTable (relationTables cfg) config Hnr Hin).
      apply sum_list_with_ext_in. intros config' Hin'.
      destruct (Hrel config' Hin') as [td Htd].
      by destruct (countEvents_relationEvents _ _ (rtTable config) _
                     (Harr _ Hin') Htd) as [-> _].
    + apply sum_list_with_ext_in. intros config' Hin'.
      destruct (Hrel config' Hin') as [td Htd].
      by destruct (countEvents_relationEvents _ _ (rtTable config) _
                     (Harr _ Hin') Htd) as [_ ->].
Qed.

(** X15: a fulfilled export has handled every configured table exactly
    once.  The query of every base table has begun once and ended once.
    Every relation table has either been queried once, the query begun
    and ended, or been logged as skipped once, and never both. *)
Theorem fulfilled_export_handles_each_table_exactly_once
    concurrency sched1 sched2 tr r :
  export concurrency sched1 sched2 = (tr, Fulfilled r) →
  (∀ config,
     config ∈ baseTables DATA_EXPORT_CONFIG →
     countEvents (isBeginOf (btTable config)) tr = 1
     ∧ countEvents (isEndOf (btTable config)) tr = 1)
  ∧ (∀ config,
       config ∈ relationTables DATA_EXPORT_CONFIG →
       countEvents (isBeginOf (rtTable config)) tr
       + countEvents (isSkipOf (rtTable config)) tr = 1
       ∧ countEvents (isEndOf (rtTable config)) tr
         = countEvents (isBeginOf (rtTable config)) tr).
Proof.
  intros Hrun.
  exact (exportWith_exactly_once DATA_EXPORT_CONFIG concurrency sched1 sched2 tr r
           DATA_EXPORT_CONFIG_names DATA_EXPORT_CONFIG_base_sources Hrun).
Qed.

End ExactlyOnce.

(** ** Further runs on the demonstration database *)

Lemma rejected_run {A B} (x : A * Promise B) e :
  snd x = Rejected e → x = (fst x, Rejected e).
Proof. destruct x as [a p]. simpl. by intros ->. Qed.

Lemma export_result_does_not_depend_on_schedule_witness :
  fulfilledWith ∅ (snd demoRunSequential) = demoResult
  ∧ fst demoRunSequential ≡ₚ demoTrace.
Proof.
  exact (export_result_does_not_depend_on_schedule demoTables demoDb "u1"
           defaultConcurrency demoSched demoSched demoTrace demoResult
           1 (replicate 40 0) (replicate 40 0)
           (fst demoRunSequential)
           (Fulfilled (fulfilledWith ∅ (snd demoRunSequential)))
           (fulfilled_run ∅ demoRun eq_refl)
           (fulfilled_run ∅ demoRunSequential eq_refl)).
Defined.

Lemma export_is_rejected_only_for_unregistered_table_witness :
  snd demoRejectedRun = Rejected (TableNotFound "agents")
  ∧ ∃ name,
      name ∈ configNames DATA_EXPORT_CONFIG
      ∧ delete "agents" demoTables !! name = None
      ∧ TableNotFound "agents" = TableNotFound name
      ∧ (∀ w, EvQueryBegin name w ∉ fst demoRejectedRun)
      ∧ ∀ msg, TableNotFound "agents" ≠ DbError msg.
Proof.
  assert (snd demoRejectedRun = Rejected (TableNotFound "agents")) as Hrej
    by reflexivity.
  split; [exact Hrej|].
  apply (export_is_rejected_only_for_unregistered_table
           (delete "agents" demoTables) demoDb "u1"
           defaultConcurrency demoSched demoSched (fst demoRejectedRun)
           (TableNotFound "agents")).
  - unfold defaultConcurrency. lia.
  - exact (rejected_run demoRejectedRun _ Hrej).
Defined.

Lemma export_keys_are_exactly_the_configured_tables_witness :
  (∀ name, is_Some (demoResult !! name) ↔ name ∈ configNames DATA_EXPORT_CONFIG)
  ∧ size demoResult = 28.
Proof.
  exact (export_keys_are_exactly_the_configured_tables demoTables demoDb "u1"
           defaultConcurrency demoSched demoSched demoTrace demoResult
           (fulfilled_run ∅ demoRun eq_refl)).
Defined.

Lemma base_query_filters_by_owner_field_witness :
  EvQueryBegin "users" (Some (SqlEq (Some "id") (VStr "u1"))) ∈ demoTrace
  ∧ EvQueryBegin "sessions" (Some (SqlEq (Some "userId") (VStr "u1"))) ∈ demoTrace
  ∧ ∃ tableObj,
      demoTables !! "sessions" = Some tableObj
      ∧ Some (SqlEq (Some "userId") (VStr "u1"))
        = Some (SqlEq (tableObj !! "userId") (VStr "u1"))
      ∧ ∀ env,
          holdsWhere env (Some (SqlEq (Some "userId") (VStr "u1"))) = true ↔
          ∃ col, tableObj !! "userId" = Some col
                 ∧ sqlEqb (env col) (VStr "u1") = true.
Proof.
  assert (EvQueryBegin "sessions" (Some (SqlEq (Some "userId") (VStr "u1"))) ∈ demoTrace)
    as Hev.
  { apply (list_elem_of_lookup_2 _ 14). reflexivity. }
  split; [apply (list_elem_of_lookup_2 _ 1); reflexivity|]. split; [exact Hev|].
  apply (base_query_filters_by_owner_field demoTables demoDb "u1"
           defaultConcurrency demoSched demoSched demoTrace (Fulfilled demoResult)
           (base "sessions") (Some (SqlEq (Some "userId") (VStr "u1")))).
  - apply (fulfilled_run ∅ demoRun). reflexivity.
  - apply (list_elem_of_lookup_2 _ 5). reflexivity.
  - exact Hev.
Defined.

Lemma relation_filter_values_come_from_source_rows_witness :
  EvQueryBegin "filesToSessions"
    (Some (SqlInArray (Some "sessionId") [VStr "s1"; VStr "s2"])) ∈ demoTrace
  ∧ EvQueryEnd "sessions" (inr [session1; session2]) ∈ demoTrace
  ∧ ∃ tableObj conditions,
      demoTables !! "filesToSessions" = Some tableObj
      ∧ Some (SqlInArray (Some "sessionId") [VStr "s1"; VStr "s2"]) = combine conditions
      ∧ Forall2
          (λ relation condition,
             ∃ rows,
               rows ≠ []
               ∧ EvQueryEnd (sourceTable relation) (inr rows) ∈ demoTrace
               ∧ condition
                 = inArray (tableObj !! propKey (field relation))
                     (map (λ item, getProp item (orDefault (sourceField relation) "id"))
                        rows))
          (relations filesToSessions) conditions.
Proof.
  assert (EvQueryBegin "filesToSessions"
            (Some (SqlInArray (Some "sessionId") [VStr "s1"; VStr "s2"])) ∈ demoTrace)
    as Hev.
  { apply (list_elem_of_lookup_2 _ 56). reflexivity. }
  split; [exact Hev|].
  split; [apply (list_elem_of_lookup_2 _ 21); reflexivity|].
  apply (relation_filter_values_come_from_source_rows demoTables demoDb "u1"
           defaultConcurrency demoSched demoSched demoTrace demoResult
           filesToSessions
           (Some (SqlInArray (Some "sessionId") [VStr "s1"; VStr "s2"]))).
  - apply (fulfilled_run ∅ demoRun). reflexivity.
  - apply (list_elem_of_lookup_2 _ 2). reflexivity.
  - exact Hev.
Defined.

Lemma failed_source_query_empties_dependent_tables_witness :
  EvQueryEnd "files" (inl (DbError "connection lost")) ∈ demoTrace
  ∧ demoResult !! "messagesFiles" = Some []
  ∧ (∀ w, EvQueryBegin "messagesFiles" w ∉ demoTrace)
  ∧ EvConsole (LogSkipTable "messagesFiles") ∈ demoTrace
  ∧ ∀ e, EvConsole (LogQueryError "messagesFiles" e) ∉ demoTrace.
Proof.
  assert (EvQueryEnd "files" (inl (DbError "connection lost")) ∈ demoTrace) as Hev.
  { apply (list_elem_of_lookup_2 _ 34). reflexivity. }
  split; [exact Hev|].
  apply (failed_source_query_empties_dependent_tables demoTables demoDb "u1"
           defaultConcurrency demoSched demoSched demoTrace demoResult
           (inl (DbError "connection lost")) messagesFiles
           (rel (Some "fileId") None "files")).
  - apply (fulfilled_run ∅ demoRun). reflexivity.
  - apply (list_elem_of_lookup_2 _ 6). reflexivity.
  - apply (list_elem_of_lookup_2 _ 1). reflexivity.
  - exact Hev.
  - exact I.
Defined.

Lemma relation_table_without_relations_is_read_unfiltered_witness :
  relations looseConfig = []
  ∧ events demoDb (relationMapper demoTables "u1" ∅ looseConfig)
    = [EvQueryBegin "messageTTS" None;
       EvQueryEnd "messageTTS" (inr []);
       EvConsole (LogExported "messageTTS" 0)]
  ∧ outcome demoDb (relationMapper demoTables "u1" ∅ looseConfig)
    = inr {| data := []; table := "messageTTS" |}.
Proof.
  split; [reflexivity|].
  apply (relation_table_without_relations_is_read_unfiltered demoTables demoDb "u1"
           ∅ looseConfig
           (tableOf ["id"; "agentId"; "sessionId"; "fileId"; "messageId";
                     "chunkId"; "knowledgeBaseId"; "userId"])).
  - reflexivity.
  - reflexivity.
Defined.

Lemma base_results_log_lists_what_is_returned_witness :
  demoTrace !! 52 = Some (EvConsole (LogBaseResults demoBaseResults))
  ∧ table <$> demoBaseResults = btTable <$> baseTables DATA_EXPORT_CONFIG
  ∧ ∀ td, td ∈ demoBaseResults → demoResult !! table td = Some (data td).
Proof.
  assert (demoTrace !! 52 = Some (EvConsole (LogBaseResults demoBaseResults))) as Hev
    by reflexivity.
  split; [exact Hev|].
  apply (base_results_log_lists_what_is_returned demoTables demoDb "u1"
           defaultConcurrency demoSched demoSched demoTrace demoResult
           demoBaseResults).
  - apply (fulfilled_run ∅ demoRun). reflexivity.
  - exact (list_elem_of_lookup_2 _ 52 _ Hev).
Defined.

Lemma logged_count_is_number_of_rows_exported_witness :
  (∀ name n,
     EvConsole (LogExported name n) ∈ demoTrace →
     ∃ rows rows',
       EvQueryEnd name (inr rows) ∈ demoTrace
       ∧ length rows = n
       ∧ demoResult !! name = Some rows'
       ∧ length rows' = n)
  ∧ (∀ name e,
       EvConsole (LogQueryError name e) ∈ demoTrace →
       EvQueryEnd name (inl e) ∈ demoTrace ∧ demoResult !! name = Some []).
Proof.
  exact (logged_count_is_number_of_rows_exported demoTables demoDb "u1"
           defaultConcurrency demoSched demoSched demoTrace demoResult
           (fulfilled_run ∅ demoRun eq_refl)).
Defined.

Lemma entry_depends_only_on_table_and_its_sources_witness :
  fulfilledWith ∅ (snd demoRunHealthy) !! "files" = Some []
  ∧ demoResult !! "filesToSessions"
    = fulfilledWith ∅ (snd demoRunHealthy) !! "filesToSessions".
Proof.
  split; [reflexivity|].
  apply (entry_depends_only_on_table_and_its_sources demoTables demoDb demoDbHealthy
           "u1" defaultConcurrency demoSched demoSched demoTrace demoResult
           defaultConcurrency demoSched demoSched (fst demoRunHealthy)
           (fulfilledWith ∅ (snd demoRunHealthy)) "filesToSessions").
  - apply (fulfilled_run ∅ demoRun). reflexivity.
  - apply (fulfilled_run ∅ demoRunHealthy). reflexivity.
  - reflexivity.
  - intros config relation Hin Hname Hrel w.
    assert (config = filesToSessions) as ->.
    { apply (NoDup_fmap_eq rtTable (relationTables DATA_EXPORT_CONFIG)); try done.
      - exact (proj1 (proj2 (NoDup_configNames _ DATA_EXPORT_CONFIG_names))).
      - apply (list_elem_of_lookup_2 _ 2). reflexivity. }
    apply list_elem_of_singleton in Hrel. by subst relation.
Defined.

Lemma export_entries_in_closed_form_witness :
  demoResult !! "sessions" = Some (removeUserId [session1; session2])
  ∧ demoResult !! "files" = Some []
  ∧ (forallb (sourceHasData demoResult) (relations messagesFiles) = false
     ∧ demoResult !! "messagesFiles" = Some []
     ∨ forallb (sourceHasData demoResult) (relations messagesFiles) = true
       ∧ ∃ tableObj,
           demoTables !! "messagesFiles" = Some tableObj
           ∧ demoResult !! "messagesFiles"
             = Some (match demoDb "messagesFiles"
                             (combine
                                ((λ relation,
                                    inArray (tableObj !! propKey (field relation))
                                      (sourceIds
                                         (default [] (demoResult !! sourceTable relation))
                                         relation))
                                   <$> relations messagesFiles)) with
                     | inr rows => rows
                     | inl _ => []
                     end)).
Proof.
  destruct (export_entries_in_closed_form demoTables demoDb "u1"
              defaultConcurrency demoSched demoSched demoTrace demoResult
              (fulfilled_run ∅ demoRun eq_refl)) as [Hbase Hrel].
  split; [reflexivity|]. split; [reflexivity|].
  apply (Hrel messagesFiles). apply (list_elem_of_lookup_2 _ 6). reflexivity.
Defined.

Lemma fulfilled_export_handles_each_table_exactly_once_witness :
  countEvents (isBeginOf "messages") demoTrace = 1
  ∧ countEvents (isEndOf "messages") demoTrace = 1
  ∧ countEvents (isBeginOf "messagesFiles") demoTrace
    + countEvents (isSkipOf "messagesFiles") demoTrace = 1
  ∧ countEvents (isEndOf "messagesFiles") demoTrace
    = countEvents (isBeginOf "messagesFiles") demoTrace.
Proof.
  destruct (fulfilled_export_handles_each_table_exactly_once demoTables demoDb "u1"
              defaultConcurrency demoSched demoSched demoTrace demoResult
              (fulfilled_run ∅ demoRun eq_refl)) as [Hbase Hrel].
  assert (base "messages" ∈ baseTables DATA_EXPORT_CONFIG) as Hm.
  { apply (list_elem_of_lookup_2 _ 8). reflexivity. }
  assert (messagesFiles ∈ relationTables DATA_EXPORT_CONFIG) as Hf.
  { apply (list_elem_of_lookup_2 _ 6). reflexivity. }
  split; [exact (proj1 (Hbase _ Hm))|]. split; [exact (proj2 (Hbase _ Hm))|].
  exact (Hrel _ Hf).
Defined.

(** * The clear action: what confirming does *)

Import AdvancedActions.

Section HandlerFacts.

Context {Store Err : Type}.
Variable perform : ClearOp → Store → Store * option Err.

#[local] Abbreviation call := (call perform).
#[local] Abbreviation onOk := (onOk perform).
#[local] Abbreviation handleClear := (handleClear perform).
#[local] Abbreviation storesAfter := (storesAfter perform).
#[local] Abbreviation failure := (failure perform).
#[local] Abbreviation callAll := (callAll perform).

Lemma onOk_callAll : onOk = callAll clearOrder messageSuccess.
Proof. reflexivity. Qed.

Lemma callAll_succeeds ops final st :
  (∀ i op, ops !! i = Some op → failure op (storesAfter (take i ops) st) = None) →
  callAll ops final st =
  let '(tr, st', r) := final (storesAfter ops st) in
  ((Invoked <$> ops) ++ tr, st', r).
Proof.
  revert st. induction ops as [|op ops IH]; intros st Hok; simpl.
  - by destruct (final st) as [[tr st'] r].
  - unfold andThen at 1, call at 1.
    pose proof (Hok 0 op eq_refl) as H0. unfold failure in H0. simpl in H0.
    destruct (perform op st) as [st1 r1] eqn:Hop. simpl in H0. subst r1.
    fold (callAll ops final). rewrite IH.
    + unfold storesAfter. simpl.
      by destruct (final _) as [[tr st'] r].
    + intros i op' Hi. specialize (Hok (S i) op' Hi).
      unfold storesAfter in *. simpl in Hok. by rewrite ?Hop in Hok.
Qed.

Lemma callAll_fails ops final st k op e :
  ops !! k = Some op →
  (∀ i op', i < k → ops !! i = Some op' →
            failure op' (storesAfter (take i ops) st) = None) →
  failure op (storesAfter (take k ops) st) = Some e →
  callAll ops final st =
  (Invoked <$> take (S k) ops, storesAfter (take (S k) ops) st, inl e).
Proof.
  revert st k. induction ops as [|op0 ops IH]; intros st k Hk Hok Hfail; [done|].
  simpl. unfold andThen at 1, call at 1.
  destruct (perform op0 st) as [st1 r1] eqn:Hop.
  destruct k as [|k]; simpl in Hk.
  - injection Hk as ->. unfold failure, storesAfter in Hfail. simpl in Hfail.
    rewrite ?Hop in Hfail. simpl in Hfail. subst r1.
    unfold storesAfter. simpl. by rewrite ?Hop.
  - pose proof (Hok 0 op0 (Nat.lt_0_succ _) eq_refl) as H0.
    unfold failure, storesAfter in H0. simpl in H0. rewrite ?Hop in H0.
    simpl in H0. subst r1.
    fold (callAll ops final). rewrite (IH st1 k Hk).
    + unfold storesAfter. simpl. by rewrite ?Hop.
    + intros i op' Hi Hop'. specialize (Hok (S i) op' (proj1 (Nat.succ_lt_mono _ _) Hi) Hop').
      unfold storesAfter in *. simpl in Hok. by rewrite ?Hop in Hok.
    + unfold storesAfter in *. simpl in Hfail. by rewrite ?Hop in Hfail.
Qed.

(** C8: confirming the dialog of [handleClear] runs the six clear
    operations in the order sessions, plugins, topics, files, messages,
    session groups.  When none of them fails, each is invoked once and the
    success message is shown after the sixth.  When the operation at
    position [k] is the first to fail, the operations before it and the
    failing one have been invoked once each, the later ones are not
    invoked, no success message is shown, the error is passed on, and the
    stores are left as the invoked operations left them: nothing is rolled
    back. *)
Theorem confirm_clears_in_order_until_first_failure (st : Store) :
  ((∀ i op, clearOrder !! i = Some op →
            failure op (storesAfter (take i clearOrder) st) = None) →
   confirm handleClear st =
   ((Invoked <$> clearOrder) ++ [SuccessShown], storesAfter clearOrder st, inr ()))
  ∧ (∀ k op e,
       clearOrder !! k = Some op →
       (∀ i op', i < k → clearOrder !! i = Some op' →
                 failure op' (storesAfter (take i clearOrder) st) = None) →
       failure op (storesAfter (take k clearOrder) st) = Some e →
       confirm handleClear st =
       (Invoked <$> take (S k) clearOrder, storesAfter (take (S k) clearOrder) st,
        inl e))
  ∧ NoDup clearOrder
  ∧ ∀ op : ClearOp, op ∈ clearOrder.
Proof.
  change (confirm handleClear st) with (onOk st). rewrite onOk_callAll.
  split; [|split; [|split]].
  - intros Hok. by rewrite callAll_succeeds.
  - intros k op e Hk Hok Hfail. by eapply callAll_fails.
  - apply (bool_decide_unpack _). by vm_compute.
  - intros []; unfold clearOrder; rewrite !elem_of_cons; tauto.
Qed.

End HandlerFacts.

Lemma confirm_clears_in_order_until_first_failure_witness :
  confirm (handleClear demoPerform) []
  = ([Invoked OpClearSessions; Invoked OpRemoveAllPlugins; Invoked OpClearTopics],
     [OpClearSessions; OpRemoveAllPlugins; OpClearTopics],
     inl "store unavailable").
Proof.
  apply (proj1 (proj2 (confirm_clears_in_order_until_first_failure demoPerform []))
           2 OpClearTopics "store unavailable").
  - reflexivity.
  - intros [|[|i]] op' Hlt Hop; [by injection Hop as <-..|lia].
  - reflexivity.
Defined.

(** ** Every run of the handler *)

Section HandlerRuns.

Context {Store Err : Type}.
Variable perform : ClearOp → Store → Store * option Err.

#[local] Abbreviation call := (call perform).
#[local] Abbreviation onOk := (onOk perform).
#[local] Abbreviation handleClear := (handleClear perform).
#[local] Abbreviation storesAfter := (storesAfter perform).
#[local] Abbreviation failure := (failure perform).
#[local] Abbreviation callAll := (callAll perform).

(** The operations run until the first one that fails. *)
Lemma callAll_cases ops (final : Async unit) st :
  ((∀ i op, ops !! i = Some op → failure op (storesAfter (take i ops) st) = None)
   ∧ callAll ops final st
     = (let '(tr, st', r) := final (storesAfter ops st) in
        ((Invoked <$> ops) ++ tr, st', r)))
  ∨ ∃ k op e,
      ops !! k = Some op
      ∧ (∀ i op', i < k → ops !! i = Some op' →
                  failure op' (storesAfter (take i ops) st) = None)
      ∧ failure op (storesAfter (take k ops) st) = Some e
      ∧ callAll ops final st
        = (Invoked <$> take (S k) ops, storesAfter (take (S k) ops) st, inl e).
Proof.
  revert st. induction ops as [|op ops IH]; intros st.
  - left. split; [done|]. simpl. by destruct (final st) as [[tr st'] r].
  - assert (∀ l, storesAfter (op :: l) st = storesAfter l (perform op st).1) as Hstores.
    { done. }
    assert (callAll (op :: ops) final st
            = match (perform op st).2 with
              | Some e => ([Invoked op], (perform op st).1, inl e)
              | None =>
                  let '(tr, st', r) := callAll ops final (perform op st).1 in
                  (Invoked op :: tr, st', r)
              end) as ->.
    { simpl. unfold andThen at 1, call at 1.
      by destruct (perform op st) as [st1 [e|]]. }
    destruct (perform op st).2 as [e|] eqn:Hop.
    + right. exists 0, op, e. split; [done|]. split; [intros; lia|].
      split; [exact Hop|reflexivity].
    + destruct (IH (perform op st).1)
        as [[Hok Hall]|(k & op' & e & Hk & Hok & Hfail & Hrun)].
      * left. split.
        -- intros [|i] op' Hi.
           ++ injection Hi as <-. exact Hop.
           ++ change (take (S i) (op :: ops)) with (op :: take i ops).
              rewrite Hstores. by apply Hok.
        -- rewrite Hall, Hstores.
           by destruct (final (storesAfter ops (perform op st).1)) as [[tr st'] r].
      * right. exists (S k), op', e. split; [done|]. split; [|split].
        -- intros [|i] op'' Hlt Hi.
           ++ injection Hi as <-. exact Hop.
           ++ change (take (S i) (op :: ops)) with (op :: take i ops).
              rewrite Hstores. apply Hok; [lia|done].
        -- change (take (S k) (op :: ops)) with (op :: take k ops).
           by rewrite Hstores.
        -- rewrite Hrun. change (take (S (S k)) (op :: ops)) with (op :: take (S k) ops).
           by rewrite Hstores.
Qed.

(** X16: whatever the stores do, confirming the dialog ends in one of two
    ways.  Either none of the six operations failed: they have run in
    order and the success message is shown.  Or the run has stopped at the
    first operation that failed: the operations before it did not fail,
    they and the failing one have been invoked, the later ones have not,
    and the run ends with the error of the failing one and no message.
    So the success message is shown exactly when [onOk] returns without an
    error, the sessions are always cleared first, and no operation is
    invoked twice. *)
Theorem confirm_succeeds_or_stops_at_first_failure (st : Store) tr st' r :
  confirm handleClear st = (tr, st', r) →
  (r = inr ()
   ∧ tr = (Invoked <$> clearOrder) ++ [SuccessShown]
   ∧ st' = storesAfter clearOrder st
   ∧ (∀ i op, clearOrder !! i = Some op →
              failure op (storesAfter (take i clearOrder) st) = None)
   ∨ ∃ k op e,
       clearOrder !! k = Some op
       ∧ (∀ i op', i < k → clearOrder !! i = Some op' →
                   failure op' (storesAfter (take i clearOrder) st) = None)
       ∧ failure op (storesAfter (take k clearOrder) st) = Some e
       ∧ r = inl e
       ∧ tr = Invoked <$> take (S k) clearOrder
       ∧ st' = storesAfter (take (S k) clearOrder) st)
  ∧ (SuccessShown ∈ tr ↔ r = inr ())
  ∧ head tr = Some (Invoked OpClearSessions)
  ∧ NoDup tr.
Proof.
  change (confirm handleClear st) with (onOk st). rewrite onOk_callAll.
  intros Hrun.
  assert (NoDup clearOrder) as Hnd by (apply (bool_decide_unpack _); by vm_compute).
  assert (∀ ops : list ClearOp, SuccessShown ∉ Invoked <$> ops) as Hno.
  { intros ops (op & ? & _)%list_elem_of_fmap. done. }
  assert (∀ ops : list ClearOp, NoDup ops → NoDup (Invoked <$> ops)) as Hinj.
  { intros ops. apply NoDup_fmap_2. by intros ?? [= ->]. }
  destruct (callAll_cases clearOrder messageSuccess st)
    as [[Hok Hall]|(k & op & e & Hk & Hok & Hfail & Hstop)].
  - change (callAll clearOrder messageSuccess st
            = ((Invoked <$> clearOrder) ++ [SuccessShown],
               storesAfter clearOrder st, inr ())) in Hall.
    rewrite Hall in Hrun.
    assert (tr = (Invoked <$> clearOrder) ++ [SuccessShown]) as -> by congruence.
    assert (st' = storesAfter clearOrder st) as -> by congruence.
    assert (r = inr ()) as -> by congruence.
    split; [by left|]. split; [|split; [done|]].
    + split; [done|]. intros _. apply elem_of_app. right. apply list_elem_of_here.
    + apply NoDup_app. split; [by apply Hinj|]. split; [|apply NoDup_singleton].
      intros ev Hev ->%list_elem_of_singleton. by eapply Hno.
  - rewrite Hstop in Hrun.
    assert (tr = Invoked <$> take (S k) clearOrder) as -> by congruence.
    assert (st' = storesAfter (take (S k) clearOrder) st) as -> by congruence.
    assert (r = inl e) as -> by congruence.
    split; [right; by eauto 10|]. split; [|split; [done|]].
    + split; [intros Hin; by edestruct Hno|done].
    + apply Hinj. eapply sublist_NoDup; [done|apply sublist_take].
Qed.

End HandlerRuns.

Lemma confirm_succeeds_or_stops_at_first_failure_witness :
  confirm (handleClear demoPerform) []
  = ([Invoked OpClearSessions; Invoked OpRemoveAllPlugins; Invoked OpClearTopics],
     [OpClearSessions; OpRemoveAllPlugins; OpClearTopics],
     inl "store unavailable")
  ∧ ((inl "store unavailable" : string + ()) = inr ()
     ∨ ∃ k op e,
         clearOrder !! k = Some op
         ∧ (∀ i op', i < k → clearOrder !! i = Some op' →
                     failure demoPerform op'
                       (storesAfter demoPerform (take i clearOrder) []) = None)
         ∧ failure demoPerform op (storesAfter demoPerform (take k clearOrder) [])
           = Some e
         ∧ [Invoked OpClearSessions; Invoked OpRemoveAllPlugins; Invoked OpClearTopics]
           = Invoked <$> take (S k) clearOrder)
  ∧ (SuccessShown
       ∈ [Invoked OpClearSessions; Invoked OpRemoveAllPlugins; Invoked OpClearTopics]
     ↔ (inl "store unavailable" : string + ()) = inr ())
  ∧ NoDup [Invoked OpClearSessions; Invoked OpRemoveAllPlugins; Invoked OpClearTopics].
Proof.
  assert (confirm (handleClear demoPerform) []
          = ([Invoked OpClearSessions; Invoked OpRemoveAllPlugins;
              Invoked OpClearTopics],
             [OpClearSessions; OpRemoveAllPlugins; OpClearTopics],
             inl "store unavailable")) as Hrun by reflexivity.
  split; [exact Hrun|].
  destruct (confirm_succeeds_or_stops_at_first_failure demoPerform [] _ _ _ Hrun)
    as (Hcases & Hiff & _ & Hnd).
  split; [|split; [exact Hiff|exact Hnd]].
  destruct Hcases as [(Hr & _)|(k & op & e & Hk & Hok & Hfail & _ & Htr & _)].
  - left. exact Hr.
  - right. exists k, op, e. split; [exact Hk|]. split; [exact Hok|].
    split; [exact Hfail|exact Htr].
Defined.
